(** * COLNEW driver: a model of [scikits/bvp1lg/colnew.py]

    The Python module wraps the Fortran collocation solver COLNEW.  This
    development embeds the driver: argument validation and marshalling in
    [_colnew_solve], the status-code dispatch, the [Solution] handle, the
    reentrancy stack of [_colnew_enter] / [_colnew_exit], and the index
    bookkeeping of [check_jacobians].  The Fortran kernel [_colnew.colnew]
    is a parameter of the model. *)

From Stdlib Require Import ZArith List Bool Lia Floats.
From stdpp Require Import base option list gmap strings.

Open Scope Z_scope.

(* ##################################################################### *)
(** * Part I: the model *)
(* ##################################################################### *)

(* ===================================================================== *)
(** ** Binary64 values and their comparisons *)
(* ===================================================================== *)

(** Python floats and [np.float64] entries are IEEE binary64 numbers; the
    driver only compares them.  [Prim2SF] gives the comparisons their
    meaning on [spec_float]. *)
Module F64.

Definition lt (a b : float) : bool := PrimFloat.ltb a b.

Definition le (a b : float) : bool := PrimFloat.leb a b.

Definition eq (a b : float) : bool := PrimFloat.eqb a b.

Definition gt (a b : float) : bool := PrimFloat.ltb b a.

Definition ge (a b : float) : bool := PrimFloat.leb b a.

Definition isnan (a : float) : bool := negb (PrimFloat.eqb a a).

(** The less-than of numpy's sort: NaN is placed after every number. *)
Definition sort_lt (a b : float) : bool :=
  lt a b || (isnan b && negb (isnan a)).

End F64.

(* ===================================================================== *)
(** ** Python exceptions and results *)
(* ===================================================================== *)

(** The exception classes the driver raises or lets through.  The three
    solver conditions come from the package's [error] module. *)
Inductive exn : Type :=
| ValueError (msg : string)
| TypeError (msg : string)
| IndexError (msg : string)
| KeyError (name : string)
| RuntimeError (msg : string)
| SingularCollocationMatrix (msg : string)
| TooManySubintervals (msg : string)
| NoConvergence (msg : string).

(** A computation either raises or returns. *)
Definition res (A : Type) : Type := (exn + A)%type.

Definition rbind {A B : Type} (c : res A) (k : A -> res B) : res B :=
  match c with
  | inl e => inl e
  | inr x => k x
  end.

Notation "'let!' x ':=' c 'in' k" := (rbind c (fun x => k))
  (at level 10, x pattern, c at level 100, k at level 200).

Definition is_ValueError (e : exn) : bool :=
  match e with ValueError _ => true | _ => false end.

(* ===================================================================== *)
(** ** Sequences, numpy arrays and slices *)
(* ===================================================================== *)

Definition len {A : Type} (l : list A) : Z := Z.of_nat (length l).

(** [sum(degrees)] *)
Definition py_sum (l : list Z) : Z := fold_left Z.add l 0.

(** Builtin [min] and [max]: scan left to right, keep the first extreme. *)
Definition py_min (l : list float) : res float :=
  match l with
  | [] => inl (ValueError "min() arg is an empty sequence")
  | x :: r => inr (fold_left (fun acc y => if F64.lt y acc then y else acc) r x)
  end.

Definition py_max (l : list float) : res float :=
  match l with
  | [] => inl (ValueError "max() arg is an empty sequence")
  | x :: r => inr (fold_left (fun acc y => if F64.gt y acc then y else acc) r x)
  end.

Definition py_max_int (l : list Z) : res Z :=
  match l with
  | [] => inl (ValueError "max() arg is an empty sequence")
  | x :: r => inr (fold_left (fun acc y => if y >? acc then y else acc) r x)
  end.

(** Stable insertion sort for a given less-than. *)
Fixpoint insert_by (ltb : float -> float -> bool) (x : float)
    (l : list float) : list float :=
  match l with
  | [] => [x]
  | y :: r => if ltb y x then y :: insert_by ltb x r else x :: y :: r
  end.

Definition sort_by (ltb : float -> float -> bool) (l : list float)
    : list float :=
  foldr (insert_by ltb) [] l.

(** [ndarray.sort()]: ascending, NaN last.  Entries that compare equal
    keep their order, as in the insertion sort numpy runs on short
    arrays. *)
Definition np_sort (l : list float) : list float := sort_by F64.sort_lt l.

(** [list.sort()] compares with [<] only. *)
Definition py_sort (l : list float) : list float := sort_by F64.lt l.

(** [np.unique]: sort, then keep every entry that differs from its
    predecessor. *)
Fixpoint keep_changes (prev : float) (l : list float) : list float :=
  match l with
  | [] => []
  | y :: r =>
      if F64.eq y prev then keep_changes y r else y :: keep_changes y r
  end.

Definition np_unique (l : list float) : list float :=
  match np_sort l with
  | [] => []
  | x :: r => x :: keep_changes x r
  end.

(** [a[i]] for a literal index [i]. *)
Definition np_getitem {A : Type} (a : list A) (i : nat) : res A :=
  match a !! i with
  | Some x => inr x
  | None => inl (IndexError "index is out of bounds")
  end.

(** [a[:k]] and [a[0:k]]: a negative bound counts from the end, a bound
    past the end is clipped. *)
Definition py_slice_to {A : Type} (a : list A) (k : Z) : list A :=
  if k <? 0 then take (Z.to_nat (len a + k)) a else take (Z.to_nat k) a.

(** [a[lo:hi] = v] on a one-dimensional array with [0 <= lo <= hi]: the
    bounds are clipped to the array, and [v] must have the length of the
    clipped slice or length one (broadcast). *)
Definition np_setslice {A : Type} (a : list A) (lo hi : nat) (v : list A)
    : res (list A) :=
  let lo' := Nat.min lo (length a) in
  let hi' := Nat.min hi (length a) in
  let k := (hi' - lo')%nat in
  if (length v =? k)%nat then inr (take lo' a ++ v ++ drop (lo' + k) a)
  else
    match v with
    | [x] => inr (take lo' a ++ replicate k x ++ drop (lo' + k) a)
    | _ => inl (ValueError "could not broadcast input array")
    end.

(** [np.empty([n], dtype)]: the cells hold whatever the allocator left. *)
Definition np_empty {A : Type} (junk : nat -> A) (n : Z) : res (list A) :=
  if n <? 0 then inl (ValueError "negative dimensions are not allowed")
  else inr (map junk (seq 0 (Z.to_nat n))).

(** Storing a Python integer into an [np.int32] cell keeps the low 32
    bits, read as a signed number. *)
Definition int32 (x : Z) : Z := (x + 2 ^ 31) mod 2 ^ 32 - 2 ^ 31.

(** [np.where(t > 0)[0]]: positions of the positive entries. *)
Fixpoint where_positive (i : Z) (t : list float) : list Z :=
  match t with
  | [] => []
  | x :: r =>
      if F64.gt x 0%float then i :: where_positive (i + 1) r
      else where_positive (i + 1) r
  end.

(** [t[idx]] for an index array. *)
Definition np_take (t : list float) (idx : list Z) : list float :=
  omap (fun i => t !! Z.to_nat i) idx.

(** A sequence of floats as the caller passes it: a Python list (or any
    object [np.asarray] must copy), or a [float64] ndarray, known by the
    address of its buffer. *)
Inductive array_like : Type :=
| PyList (l : list float)
| NdArray (r : positive).

(* ===================================================================== *)
(** ** Solution *)
(* ===================================================================== *)

Module Solution.

Record t : Type := Build {
  ncomp : Z;
  mstar : Z;
  nmesh : Z;
  ispace : list Z;
  fspace : list float
}.

(** [Solution.__init__(self, ispace, fspace)] *)
Definition __init__ (ispace0 : list Z) (fspace0 : list float) : res t :=
  let! ncomp := np_getitem ispace0 2 in
  let! mstar := np_getitem ispace0 3 in
  let! n := np_getitem ispace0 0 in
  let nmesh := n + 1 in
  let ispace := py_slice_to ispace0 (7 + ncomp) in
  let! nf := np_getitem ispace0 6 in
  let fspace := py_slice_to fspace0 nf in
  inr (Build ncomp mstar nmesh ispace fspace).

(** [Solution.get_mesh(self)] *)
Definition get_mesh (self : t) : list float :=
  py_slice_to (fspace self) (nmesh self).

End Solution.

(* ===================================================================== *)
(** ** Arguments of [solve] and of the kernel *)
(* ===================================================================== *)

(** A Python callable supplied by the caller; the driver never looks
    inside. *)
Inductive callable : Type := Callable (id : nat).

(** What [initial_guess] can be. *)
Inductive guess_t : Type :=
| GuessSolution (s : Solution.t)
| GuessCallable (c : callable)
| GuessNone
| GuessOther.

(** What [initial_mesh] can be: [None], a number of points, or a list of
    mesh points. *)
Inductive mesh_t : Type :=
| MeshNone
| MeshCount (n : Z)
| MeshPoints (m : list float).

Record solve_args : Type := {
  boundary_points : array_like;
  degrees : list Z;
  fsub : callable;
  gsub : callable;
  dfsub : option callable;
  dgsub : option callable;
  left : option float;
  right : option float;
  is_linear : bool;
  initial_guess : guess_t;
  coarsen_initial_guess_mesh : bool;
  initial_mesh : mesh_t;
  tolerances : option (list float);
  adaptive_mesh_selection : bool;
  verbosity : Z;
  collocation_points : option Z;
  extra_fixed_points : option (list float);
  problem_regularity : Z;
  maximum_mesh_size : Z;
  vectorized : bool;
  is_complex : bool
}.

(** The seven attributes read off a [ComplexAdapter]. *)
Module ComplexAdapter.

Record t : Type := Build {
  boundary_points : array_like;
  degrees : list Z;
  fsub : callable;
  gsub : callable;
  dfsub : option callable;
  dgsub : option callable;
  tolerances : option (list float)
}.

End ComplexAdapter.

(** The callbacks handed to the kernel: the caller's own function, or one
    of the closures [_colnew_solve] builds around it. *)
Inductive callback : Type :=
| User (c : callable)
| dummy_guess
| vectorized_guess (g : callback)
| vectorized_f (f : callable)
| vectorized_df (df : callable)
| numerical_dg (g : callable)
| numerical_df (f : callback).

(** The positional arguments of [_colnew.colnew]. *)
Record kernel_args : Type := {
  k_degrees : list Z;
  k_left : float;
  k_right : float;
  k_zeta : list float;
  k_ipar : list Z;
  k_ltol : list Z;
  k_tol : list float;
  k_fixpnt : list float;
  k_ispace : list Z;
  k_fspace : list float;
  k_f : callback;
  k_df : callback;
  k_g : callable;
  k_dg : callback;
  k_guess : callback
}.

Inductive result : Type :=
| RealSolution (s : Solution.t)
| ComplexSolution (s : Solution.t).

(* ===================================================================== *)
(** ** The state the driver runs in *)
(* ===================================================================== *)

(** A variable of a Fortran COMMON block, seen through f2py as an array. *)
Inductive cval : Type :=
| CInt (v : list Z)
| CReal (v : list float).

(** One COMMON block: its variables by name ([com.__dict__]). *)
Abbreviation block := (gmap string cval).

Record world : Type := World {
  _colnew_depth : Z;
  _colnew_stack : list (list block);
  _colnew_commons : list block;
  heap : gmap positive (list float);
  uninit_int : nat -> Z;
  uninit_float : nat -> float;
  kernel_calls : list kernel_args
}.

Definition set_depth (d : Z) (w : world) : world :=
  World d (_colnew_stack w) (_colnew_commons w) (heap w)
        (uninit_int w) (uninit_float w) (kernel_calls w).

Definition set_stack (s : list (list block)) (w : world) : world :=
  World (_colnew_depth w) s (_colnew_commons w) (heap w)
        (uninit_int w) (uninit_float w) (kernel_calls w).

Definition set_commons (c : list block) (w : world) : world :=
  World (_colnew_depth w) (_colnew_stack w) c (heap w)
        (uninit_int w) (uninit_float w) (kernel_calls w).

Definition set_heap (h : gmap positive (list float)) (w : world) : world :=
  World (_colnew_depth w) (_colnew_stack w) (_colnew_commons w) h
        (uninit_int w) (uninit_float w) (kernel_calls w).

Definition log_call (ka : kernel_args) (w : world) : world :=
  World (_colnew_depth w) (_colnew_stack w) (_colnew_commons w) (heap w)
        (uninit_int w) (uninit_float w) (kernel_calls w ++ [ka]).

(** Stateful computations that may raise; a raise keeps the state reached. *)
Definition M (A : Type) : Type := world -> res A * world.

Definition ret {A : Type} (x : A) : M A := fun w => (inr x, w).

Definition raise {A : Type} (e : exn) : M A := fun w => (inl e, w).

Definition lift {A : Type} (c : res A) : M A := fun w => (c, w).

Definition bind {A B : Type} (c : M A) (k : A -> M B) : M B :=
  fun w =>
    match c w with
    | (inl e, w') => (inl e, w')
    | (inr x, w') => k x w'
    end.

Notation "'do!' x ':=' c 'in' k" := (bind c (fun x => k))
  (at level 10, x pattern, c at level 100, k at level 200).

(** [try: body finally: fin] *)
Definition try_finally {A : Type} (body : M A) (fin : M unit) : M A :=
  fun w =>
    match body w with
    | (r, w1) =>
        match fin w1 with
        | (inl e, w2) => (inl e, w2)
        | (inr _, w2) => (r, w2)
        end
    end.

(** The current contents of a caller's sequence. *)
Definition contents (a : array_like) (w : world) : list float :=
  match a with
  | PyList l => l
  | NdArray r => default [] (heap w !! r)
  end.

Definition read (a : array_like) : M (list float) :=
  fun w => (inr (contents a w), w).

(** [zeta = np.asarray(a, np.float64); zeta.sort()].  For a list
    [np.asarray] builds a fresh array; a [float64] ndarray is returned as
    it is, so the sort happens in the caller's buffer. *)
Definition asarray_sort (a : array_like) : M (list float) :=
  fun w =>
    let zeta := np_sort (contents a w) in
    match a with
    | PyList _ => (inr zeta, w)
    | NdArray r => (inr zeta, set_heap (<[r := zeta]> (heap w)) w)
    end.

Definition alloc_int (n : Z) : M (list Z) :=
  fun w => (np_empty (uninit_int w) n, w).

Definition alloc_float (n : Z) : M (list float) :=
  fun w => (np_empty (uninit_float w) n, w).

(** [if cond: raise e] *)
Definition raise_if (cond : bool) (e : exn) : M unit :=
  if cond then raise e else ret tt.

(* ===================================================================== *)
(** ** [_colnew_solve]: the steps before the kernel call *)
(* ===================================================================== *)

(** "Check degrees" *)
Definition check_degrees (degrees : list Z) : res (Z * Z) :=
  let ncomp := len degrees in
  let mstar := py_sum degrees in
  if existsb (fun x => (x <=? 0) || (x >? 4)) degrees then
    inl (ValueError "Invalid value for ``degrees``")
  else if (ncomp <=? 0) || (mstar <=? 0) then
    inl (ValueError "Invalid value for ``degrees``: no equations")
  else if ncomp >? 256 then
    inl (ValueError "Too many equations")
  else if mstar >? 512 then
    inl (ValueError "Too many unknown variables")
  else inr (ncomp, mstar).

(** "Defaults": the number of collocation points *)
Definition default_collocation_points (collocation_points : option Z)
    (degrees : list Z) : res Z :=
  match collocation_points with
  | None => inr 0
  | Some c =>
      let! m := py_max_int degrees in
      if (c <? m) || (c >? 7) then
        inl (ValueError "Invalid number of collocation points")
      else inr c
  end.

(** "Calculate needed workspace size" *)
Definition workspace_size (ncomp mstar collocation_points
    maximum_mesh_size : Z) : Z * Z :=
  let k := collocation_points in
  let kd := k * ncomp in
  let kdm := kd + mstar in
  let nsizei := 3 + kdm in
  let nispace := maximum_mesh_size * nsizei in
  let nrec := 0 in
  let nsizef :=
    4 + 3 * mstar + (5 + kd) * kdm + (2 * mstar - nrec) * 2 * mstar in
  let nfspace := maximum_mesh_size * nsizef in
  (nispace, nfspace).

(** "Fixed points in the mesh" *)
Definition fixed_points (boundary_points extra_fixed_points : list float)
    (left right : float) : list float :=
  let fixpnt := py_sort (boundary_points ++ extra_fixed_points) in
  let fixpnt :=
    List.filter (fun x => F64.gt x left && F64.lt x right) fixpnt in
  np_unique fixpnt.

(** "Verbosity" *)
Definition clamp_verbosity (verbosity : Z) : Z :=
  if verbosity <? 0 then 0
  else if verbosity >? 2 then 2
  else verbosity.

(** "Tolerances": the index list [ltol] (already shifted to Fortran
    indexing) and the tolerances [tol] it selects. *)
Definition active_tolerances (tolerances : list float) (mstar : Z)
    : res (list Z * list float) :=
  if negb (len tolerances =? mstar) then
    inl (ValueError "Invalid number of tolerances")
  else
    let ltol := where_positive 0 tolerances in
    let tol := np_take tolerances ltol in
    let ltol := map (fun i => i + 1) ltol in
    inr (ltol, tol).

(** "Parameters to COLNEW" *)
Definition make_ipar (is_linear : bool) (collocation_points : Z)
    (ltol : list Z) (fspace : list float) (ispace : list Z)
    (verbosity problem_regularity : Z) (fixpnt : list float) : list Z :=
  map int32
    [ 1 - Z.b2z is_linear;
      collocation_points;
      10;
      len ltol;
      len fspace;
      len ispace;
      1 - verbosity;
      0;
      0;
      problem_regularity;
      len fixpnt ].

(** [len(initial_mesh)] *)
Definition len_mesh (initial_mesh : mesh_t) : res nat :=
  match initial_mesh with
  | MeshPoints m => inr (length m)
  | MeshCount _ => inl (TypeError "object of type 'int' has no len()")
  | MeshNone => inl (TypeError "object of type 'NoneType' has no len()")
  end.

(** "Initial guess" *)
Definition resolve_initial_guess (initial_guess : guess_t)
    (initial_mesh : mesh_t) (coarsen_initial_guess_mesh : bool)
    (ispace : list Z) (fspace : list float) (ipar : list Z)
    : res (list Z * list float * list Z * callback) :=
  let guess_func := dummy_guess in
  match initial_guess with
  | GuessSolution s =>
      match initial_mesh with
      | MeshNone =>
          let! ispace :=
            np_setslice ispace 0 (length (Solution.ispace s))
                        (Solution.ispace s) in
          let! fspace :=
            np_setslice fspace 0 (length (Solution.fspace s))
                        (Solution.fspace s) in
          let! n0 := np_getitem ispace 0 in
          let ipar := <[2%nat := int32 n0]> ipar in
          let ipar :=
            if coarsen_initial_guess_mesh then <[8%nat := int32 3]> ipar
            else <[8%nat := int32 2]> ipar in
          inr (ispace, fspace, ipar, guess_func)
      | _ =>
          if coarsen_initial_guess_mesh then
            inl (ValueError
                   "Initial mesh and guess both specified: cannot coarsen")
          else
            let! n := len_mesh initial_mesh in
            let! ispace :=
              np_setslice ispace n (n + length (Solution.ispace s))
                          (Solution.ispace s) in
            let! fspace :=
              np_setslice fspace n (n + length (Solution.fspace s))
                          (Solution.fspace s) in
            let ipar := <[8%nat := int32 4]> ipar in
            let ipar := <[2%nat := int32 (Z.of_nat n - 1)]> ipar in
            inr (ispace, fspace, ipar, guess_func)
      end
  | GuessCallable c =>
      inr (ispace, fspace, <[8%nat := int32 1]> ipar, User c)
  | GuessNone =>
      inr (ispace, fspace, <[8%nat := int32 0]> ipar, guess_func)
  | GuessOther => inl (ValueError "Unknown initial_guess")
  end.

(** "Initial mesh" *)
Definition resolve_initial_mesh (initial_mesh : mesh_t)
    (adaptive_mesh_selection : bool) (fspace : list float)
    (ipar : list Z) : res (list float * list Z) :=
  (* try: ipar[2] = int(initial_mesh) ... except (TypeError, ValueError) *)
  let '(ipar, initial_mesh) :=
    match initial_mesh with
    | MeshCount n => (<[7%nat := int32 0]> (<[2%nat := int32 n]> ipar),
                      MeshNone)
    | _ => (ipar, initial_mesh)
    end in
  match initial_mesh with
  | MeshPoints m =>
      let! fspace := np_setslice fspace 0 (length m) m in
      let ipar := <[2%nat := int32 (len m - 1)]> ipar in
      let ipar :=
        if negb adaptive_mesh_selection then <[7%nat := int32 2]> ipar
        else <[7%nat := int32 1]> ipar in
      inr (fspace, ipar)
  | _ =>
      let ipar := <[7%nat := int32 0]> ipar in
      if negb adaptive_mesh_selection then
        inl (ValueError
               "Cannot disable mesh selection when no initial_mesh given")
      else inr (fspace, ipar)
  end.

(** "Compatibility with non-vectorized functions" and "Numerical
    evaluation of Jacobians, if needed": which function is passed for
    [f], [df], [dg] and the guess. *)
Definition pick_f (vectorized : bool) (fsub : callable) : callback :=
  if vectorized then User fsub else vectorized_f fsub.

Definition pick_df (vectorized : bool) (fsub : callable)
    (dfsub : option callable) : callback :=
  match dfsub with
  | None => numerical_df (pick_f vectorized fsub)
  | Some df => if vectorized then User df else vectorized_df df
  end.

Definition pick_dg (gsub : callable) (dgsub : option callable) : callback :=
  match dgsub with
  | None => numerical_dg gsub
  | Some dg => User dg
  end.

Definition pick_guess (vectorized : bool) (guess_func : callback)
    : callback :=
  if vectorized then guess_func else vectorized_guess guess_func.

(** "Check return value" *)
Definition check_return_value (iflag : Z) : res unit :=
  if iflag =? 1 then inr tt
  else if iflag =? 0 then
    inl (SingularCollocationMatrix "Singular collocation matrix in COLNEW")
  else if iflag =? -1 then
    inl (TooManySubintervals
           "Out of storage space in COLNEW. Try increasing maximum_mesh_size.")
  else if iflag =? -2 then
    inl (NoConvergence "Nonlinear iteration did not converge in COLNEW")
  else if iflag =? -3 then
    inl (ValueError "Invalid input data for COLNEW")
  else inl (RuntimeError "Unknown error in COLNEW").

(* ===================================================================== *)
(** ** The reentrancy stack *)
(* ===================================================================== *)

(** [com.__dict__.keys()] *)
Definition keys (com : block) : list string := elements (dom com).

(** One [stack_sub]: a copy of every variable of the block, by name. *)
Definition copy_block (com : block) : block :=
  list_to_map (map_to_list com).

(** [_colnew_stack.pop()] *)
Definition pop {A : Type} (l : list A) : res (list A * A) :=
  match reverse l with
  | [] => inl (IndexError "pop from empty list")
  | x :: r => inr (reverse r, x)
  end.

(** [for name in com.__dict__.keys(): getattr(com, name)[...] = sub[name]].
    The shape and type of a COMMON variable are fixed by its Fortran
    declaration, so the assignment replaces its contents. *)
Fixpoint restore_names (names : list string) (com sub : block)
    : option exn * block :=
  match names with
  | [] => (None, com)
  | name :: rest =>
      match sub !! name with
      | None => (Some (KeyError name), com)
      | Some v => restore_names rest (<[name := v]> com) sub
      end
  end.

Definition restore_block (com sub : block) : option exn * block :=
  restore_names (keys com) com sub.

(** [for com, sub in zip(_colnew_commons, entry): ...] *)
Fixpoint restore_commons (commons entry : list block)
    : option exn * list block :=
  match commons, entry with
  | com :: cs, sub :: es =>
      match restore_block com sub with
      | (Some e, com') => (Some e, com' :: cs)
      | (None, com') =>
          let '(r, cs') := restore_commons cs es in (r, com' :: cs')
      end
  | _, _ => (None, commons)
  end.

(** [_colnew_enter()] *)
Definition _colnew_enter : M unit :=
  fun w =>
    let w := set_depth (_colnew_depth w + 1) w in
    if _colnew_depth w =? 1 then (inr tt, w)
    else
      let stack_entry := map copy_block (_colnew_commons w) in
      (inr tt, set_stack (_colnew_stack w ++ [stack_entry]) w).

(** [_colnew_exit()] *)
Definition _colnew_exit : M unit :=
  fun w =>
    let w := set_depth (_colnew_depth w - 1) w in
    if _colnew_depth w =? 0 then (inr tt, w)
    else
      match pop (_colnew_stack w) with
      | inl e => (inl e, w)
      | inr (stack', entry) =>
          let w := set_stack stack' w in
          match restore_commons (_colnew_commons w) entry with
          | (Some e, c) => (inl e, set_commons c w)
          | (None, c) => (inr tt, set_commons c w)
          end
      end.

(** The caller's array after [asarray_sort]. *)
Definition sorted_world (a : array_like) (w : world) : world :=
  match a with
  | PyList _ => w
  | NdArray r => set_heap (<[r := np_sort (contents a w)]> (heap w)) w
  end.

(* ===================================================================== *)
(** ** [_colnew_solve] and [solve] *)
(* ===================================================================== *)

Section Driver.

(** The Fortran kernel [_colnew.colnew]: it returns [iflag] and leaves its
    results in the two workspaces; it may raise (a callback did), touch
    the COMMON blocks, and run nested solves. *)
Variable colnew : kernel_args -> M (Z * list Z * list float).

(** The constructor of [complex_adapter.ComplexAdapter]. *)
Variable new_ComplexAdapter :
  array_like -> list Z -> callable -> callable -> option callable ->
  option callable -> option (list float) -> res ComplexAdapter.t.

(** "Handle complex equations": the seven names after the block. *)
Definition handle_complex (a : solve_args) : res ComplexAdapter.t :=
  if is_complex a then
    new_ComplexAdapter (boundary_points a) (degrees a) (fsub a) (gsub a)
                       (dfsub a) (dgsub a) (tolerances a)
  else
    inr (ComplexAdapter.Build (boundary_points a) (degrees a) (fsub a)
                              (gsub a) (dfsub a) (dgsub a) (tolerances a)).

(** [_colnew_solve] down to the line before "Call COLNEW": the arguments
    the kernel is about to receive. *)
Definition kernel_arguments (a : solve_args) : M kernel_args :=
  do! c := lift (handle_complex a) in
  let boundary_points := ComplexAdapter.boundary_points c in
  let degrees := ComplexAdapter.degrees c in
  let fsub := ComplexAdapter.fsub c in
  let gsub := ComplexAdapter.gsub c in
  let dfsub := ComplexAdapter.dfsub c in
  let dgsub := ComplexAdapter.dgsub c in
  let tolerances := ComplexAdapter.tolerances c in
  (* Check degrees *)
  do! (ncomp, mstar) := lift (check_degrees degrees) in
  (* Defaults *)
  do! collocation_points :=
    lift (default_collocation_points (collocation_points a) degrees) in
  let extra_fixed_points := default [] (extra_fixed_points a) in
  let tolerances :=
    default (replicate (Z.to_nat mstar) 0%float) tolerances in
  do! bp := read boundary_points in
  do! left := lift (match left a with
                   | None => py_min bp
                   | Some x => inr x
                   end) in
  do! right := lift (match right a with
                    | None => py_max bp
                    | Some x => inr x
                    end) in
  (* Calculate needed workspace size; allocate work space *)
  let '(nispace, nfspace) :=
    workspace_size ncomp mstar collocation_points (maximum_mesh_size a) in
  do! ispace := alloc_int nispace in
  do! fspace := alloc_float nfspace in
  (* Boundary points *)
  do! _ := raise_if (negb (len bp =? mstar))
            (ValueError "Invalid number of boundary points") in
  do! zeta := asarray_sort boundary_points in
  do! bp := read boundary_points in
  do! _ := raise_if (negb (forallb id (zip_with F64.eq zeta bp)))
            (ValueError "Invalid ordering of boundary points") in
  do! _ := raise_if
            (negb (forallb (fun z => F64.ge z left && F64.le z right) zeta))
            (ValueError "Some boundary points outside range [left, right]") in
  (* Fixed points in the mesh *)
  let fixpnt := fixed_points bp extra_fixed_points left right in
  (* Verbosity *)
  let verbosity := clamp_verbosity (verbosity a) in
  (* Tolerances *)
  do! (ltol, tol) := lift (active_tolerances tolerances mstar) in
  (* Parameters to COLNEW *)
  let ipar :=
    make_ipar (is_linear a) collocation_points ltol fspace ispace
              verbosity (problem_regularity a) fixpnt in
  let fixpnt := if len fixpnt =? 0 then [0%float] else fixpnt in
  (* Initial guess *)
  do! (ispace, fspace, ipar, guess_func) :=
    lift (resolve_initial_guess (initial_guess a) (initial_mesh a)
            (coarsen_initial_guess_mesh a) ispace fspace ipar) in
  (* Initial mesh *)
  do! (fspace, ipar) :=
    lift (resolve_initial_mesh (initial_mesh a)
            (adaptive_mesh_selection a) fspace ipar) in
  ret {| k_degrees := degrees;
         k_left := left;
         k_right := right;
         k_zeta := zeta;
         k_ipar := ipar;
         k_ltol := ltol;
         k_tol := tol;
         k_fixpnt := fixpnt;
         k_ispace := ispace;
         k_fspace := fspace;
         k_f := pick_f (vectorized a) fsub;
         k_df := pick_df (vectorized a) fsub dfsub;
         k_g := gsub;
         k_dg := pick_dg gsub dgsub;
         k_guess := pick_guess (vectorized a) guess_func |}.

(** "Call COLNEW" *)
Definition call_colnew (ka : kernel_args) : M (Z * list Z * list float) :=
  fun w => colnew ka (log_call ka w).

(** [_colnew_solve] *)
Definition _colnew_solve (a : solve_args) : M result :=
  do! ka := kernel_arguments a in
  do! (iflag, ispace, fspace) := call_colnew ka in
  do! _ := lift (check_return_value iflag) in
  do! solution := lift (Solution.__init__ ispace fspace) in
  if is_complex a then ret (ComplexSolution solution)
  else ret (RealSolution solution).

(** [solve] *)
Definition solve (a : solve_args) : M result :=
  try_finally (do! _ := _colnew_enter in _colnew_solve a) _colnew_exit.

(** What [_colnew_solve] does with the kernel's answer. *)
Definition after_call (a : solve_args) (iflag : Z) (ispace : list Z)
    (fspace : list float) : res result :=
  let! _ := check_return_value iflag in
  let! solution := Solution.__init__ ispace fspace in
  inr (if is_complex a then ComplexSolution solution
       else RealSolution solution).

(** [marshalled a w ka w1]: started in [w], every check of
    [_colnew_solve] passes, the kernel is about to be called with [ka],
    and the state is [w1].  The premises are the checks in source order. *)
Inductive marshalled (a : solve_args) (w : world)
    : kernel_args -> world -> Prop :=
| Marshalled (c : ComplexAdapter.t) (ncomp mstar k : Z)
    (left_ right_ : float) (ispace0 : list Z) (fspace0 : list float)
    (ltol : list Z) (tol : list float)
    (ispace1 : list Z) (fspace1 : list float) (ipar1 : list Z)
    (guess_func : callback) (fspace2 : list float) (ipar2 : list Z) :
    let bp := contents (ComplexAdapter.boundary_points c) w in
    let zeta := np_sort bp in
    let w1 := sorted_world (ComplexAdapter.boundary_points c) w in
    let bp' := contents (ComplexAdapter.boundary_points c) w1 in
    let tolerances :=
      default (replicate (Z.to_nat mstar) 0%float)
              (ComplexAdapter.tolerances c) in
    let fixpnt :=
      fixed_points bp' (default [] (extra_fixed_points a)) left_ right_ in
    let sizes := workspace_size ncomp mstar k (maximum_mesh_size a) in
    handle_complex a = inr c ->
    check_degrees (ComplexAdapter.degrees c) = inr (ncomp, mstar) ->
    default_collocation_points (collocation_points a)
      (ComplexAdapter.degrees c) = inr k ->
    match left a with None => py_min bp | Some x => inr x end = inr left_ ->
    match right a with None => py_max bp | Some x => inr x end
      = inr right_ ->
    np_empty (uninit_int w) sizes.1 = inr ispace0 ->
    np_empty (uninit_float w) sizes.2 = inr fspace0 ->
    len bp = mstar ->
    forallb id (zip_with F64.eq zeta bp') = true ->
    forallb (fun z => F64.ge z left_ && F64.le z right_) zeta = true ->
    active_tolerances tolerances mstar = inr (ltol, tol) ->
    resolve_initial_guess (initial_guess a) (initial_mesh a)
      (coarsen_initial_guess_mesh a) ispace0 fspace0
      (make_ipar (is_linear a) k ltol fspace0 ispace0
         (clamp_verbosity (verbosity a)) (problem_regularity a) fixpnt)
      = inr (ispace1, fspace1, ipar1, guess_func) ->
    resolve_initial_mesh (initial_mesh a) (adaptive_mesh_selection a)
      fspace1 ipar1 = inr (fspace2, ipar2) ->
    marshalled a w
      {| k_degrees := ComplexAdapter.degrees c;
         k_left := left_;
         k_right := right_;
         k_zeta := zeta;
         k_ipar := ipar2;
         k_ltol := ltol;
         k_tol := tol;
         k_fixpnt := if len fixpnt =? 0 then [0%float] else fixpnt;
         k_ispace := ispace1;
         k_fspace := fspace2;
         k_f := pick_f (vectorized a) (ComplexAdapter.fsub c);
         k_df := pick_df (vectorized a) (ComplexAdapter.fsub c)
                   (ComplexAdapter.dfsub c);
         k_g := ComplexAdapter.gsub c;
         k_dg := pick_dg (ComplexAdapter.gsub c) (ComplexAdapter.dgsub c);
         k_guess := pick_guess (vectorized a) guess_func |}
      w1.

End Driver.

(* ===================================================================== *)
(** ** [check_jacobians] *)
(* ===================================================================== *)

(** [l.index(p)] *)
Fixpoint index_from (p : float) (l : list float) (i : nat) : res nat :=
  match l with
  | [] => inl (ValueError "x is not in list")
  | x :: r => if F64.eq x p then inr i else index_from p r (S i)
  end.

Fixpoint mapM {A B : Type} (f : A -> res B) (l : list A) : res (list B) :=
  match l with
  | [] => inr []
  | x :: r =>
      let! y := f x in
      let! ys := mapM f r in
      inr (y :: ys)
  end.

(** [indep_map = [indep.index(p) for p in boundary_points]] *)
Definition indep_map (indep boundary_points : list float)
    : res (list nat) :=
  mapM (fun p => index_from p indep 0) boundary_points.

(** [_get_u(z)]: [z] holds one z-vector per distinct boundary point, entry
    [(r, j)] at position [r * L + j]; column [i] of the result is the
    copy for the point of condition [i]. *)
Definition _get_u (mstar L : nat) (imap : list nat) (z : list float)
    : list (list float) :=
  map (fun r => map (fun j => nth (r * L + j) z 0%float) imap)
      (seq 0 mstar).

(** One row of [_dgsub]: [d[i,:,j] = dg[i,:]] on zeros, flattened so that
    entry [(c, j')] is at position [c * L + j']. *)
Definition expand_row (L j : nat) (row : list float) : list float :=
  flat_map
    (fun x => map (fun j' => if (j' =? j)%nat then x else 0%float)
                  (seq 0 L))
    row.

Section CheckJacobians.

(** [jacobian.check_jacobian(N, f, df)] compares [df] with difference
    quotients of [f] in floating point; the driver uses its verdict. *)
Variable check_jacobian :
  nat -> (list float -> list float) -> (list float -> list (list float)) ->
  bool.

(** The successive values of [np.random.rand()]. *)
Variable rand : nat -> float.

Variable fsub : float -> list float -> list float.

Variable dfsub : float -> list float -> list (list float).

Variable gsub : list (list float) -> list float.

Variable dgsub : list (list float) -> list (list float).

Definition _gsub (mstar L : nat) (imap : list nat) (z : list float)
    : list float :=
  gsub (_get_u mstar L imap z).

Definition _dgsub (mstar L : nat) (imap : list nat) (z : list float)
    : list (list float) :=
  let dg := dgsub (_get_u mstar L imap z) in
  zip_with (expand_row L) imap dg.

(** "1. Jacobian of the rhs function": five random points. *)
Fixpoint check_rhs (mstar : nat) (xmin xmax : float) (k n : nat)
    : res unit :=
  match n with
  | O => inr tt
  | S n' =>
      let x := (xmin + (xmax - xmin) * rand k)%float in
      if check_jacobian mstar (fsub x) (dfsub x) then
        check_rhs mstar xmin xmax (S k) n'
      else inl (ValueError "dfsub may be invalid")
  end.

(** [check_jacobians], for as many boundary points as unknowns. *)
Definition check_jacobians (boundary_points : list float)
    (degrees : list Z) : res unit :=
  let! xmin := py_min boundary_points in
  let! xmax := py_max boundary_points in
  let mstar := Z.to_nat (py_sum degrees) in
  let! _ := check_rhs mstar xmin xmax 0 5 in
  let indep := np_unique boundary_points in
  let! imap := indep_map indep boundary_points in
  let L := length indep in
  if check_jacobian (mstar * L) (_gsub mstar L imap) (_dgsub mstar L imap)
  then inr tt
  else inl (ValueError "dgsub may be invalid").

End CheckJacobians.

(* ===================================================================== *)
(** ** Vocabulary of the statements *)
(* ===================================================================== *)

(** Two lists of blocks with the same variable names, block by block. *)
Definition same_layout (c1 c2 : list block) : Prop :=
  Forall2 (fun b1 b2 : block => dom b1 = dom b2) c1 c2.

(** The state [_colnew_enter] leaves. *)
Definition entered (w : world) : world :=
  if _colnew_depth w =? 0 then set_depth 1 w
  else set_stack (_colnew_stack w ++ [_colnew_commons w])
                 (set_depth (_colnew_depth w + 1) w).

(** The state [_colnew_exit] leaves when it closes the bracket opened in
    [w] and the solve in between ended in [w2]. *)
Definition exited (w w2 : world) : world :=
  World (_colnew_depth w) (_colnew_stack w)
        (if _colnew_depth w =? 0 then _colnew_commons w2
         else _colnew_commons w)
        (heap w2) (uninit_int w2) (uninit_float w2) (kernel_calls w2).

(** What a solve may do to the reentrancy data between enter and exit:
    depth and stack are back where they were, and every COMMON block still
    has its variables. *)
Definition frame_step (w w' : world) : Prop :=
  _colnew_depth w' = _colnew_depth w /\
  _colnew_stack w' = _colnew_stack w /\
  same_layout (_colnew_commons w') (_colnew_commons w).

(** Steps that only touch the caller's arrays. *)
Definition heap_step (w w' : world) : Prop :=
  _colnew_depth w' = _colnew_depth w /\
  _colnew_stack w' = _colnew_stack w /\
  _colnew_commons w' = _colnew_commons w /\
  uninit_int w' = uninit_int w /\
  uninit_float w' = uninit_float w /\
  kernel_calls w' = kernel_calls w.

(** [c] relates every start state to its end state by [R]. *)
Definition preserves {A : Type} (R : world -> world -> Prop) (c : M A)
    : Prop :=
  forall w, R w (c w).2.

(** A kernel that leaves depth and stack as they were (its own nested
    solves are closed) and keeps the variables of every COMMON block. *)
Definition keeps_frames (k : kernel_args -> M (Z * list Z * list float))
    : Prop :=
  forall ka, preserves frame_step (k ka).

(** Strictly increasing index lists. *)
Fixpoint increasing (l : list Z) : Prop :=
  match l with
  | [] => True
  | x :: r =>
      match r with
      | [] => True
      | y :: _ => x < y /\ increasing r
      end
  end.



(** Ascending order: every entry is at most the next one. *)
Fixpoint ascending (l : list float) : Prop :=
  match l with
  | [] => True
  | x :: r =>
      match r with
      | [] => True
      | y :: _ => F64.le x y = true /\ ascending r
      end
  end.

(** Adjacent entries of a sorted list: the later one is not before the
    earlier one in numpy's order. *)
Fixpoint sorted_np (l : list float) : Prop :=
  match l with
  | [] => True
  | x :: r =>
      match r with
      | [] => True
      | y :: _ => F64.sort_lt y x = false /\ sorted_np r
      end
  end.

(** The two ways the "Initial guess" block can fail with something other
    than a ValueError: [len()] of an integer [initial_mesh], and reading
    [ispace[0]] from an empty workspace. *)
Definition guess_crash (a : solve_args) (e : exn) : Prop :=
  exists s, initial_guess a = GuessSolution s /\
    ((exists n, initial_mesh a = MeshCount n /\
                coarsen_initial_guess_mesh a = false /\
                e = TypeError "object of type 'int' has no len()") \/
     (initial_mesh a = MeshNone /\ e = IndexError "index is out of bounds")).

(** The boundary points of the call pass the three "Boundary points"
    checks. *)
Definition boundary_ok (a : solve_args) (c : ComplexAdapter.t) (w : world)
    : Prop :=
  let bp := contents (ComplexAdapter.boundary_points c) w in
  let bp' := contents (ComplexAdapter.boundary_points c)
               (sorted_world (ComplexAdapter.boundary_points c) w) in
  len bp = py_sum (ComplexAdapter.degrees c) /\
  forallb id (zip_with F64.eq (np_sort bp) bp') = true /\
  exists left_ right_,
    match left a with None => py_min bp | Some x => inr x end = inr left_ /\
    match right a with None => py_max bp | Some x => inr x end
      = inr right_ /\
    forallb (fun z => F64.ge z left_ && F64.le z right_) (np_sort bp) = true.

(** Where a binary64 value sits on the extended real line: class first
    (infinities, finite by sign, zero), then exponent, then mantissa. *)
Definition sf_key (x : spec_float) : Z * Z * Z :=
  match x with
  | S754_zero _ => (0, 0, 0)
  | S754_infinity s => (if s then -2 else 2, 0, 0)
  | S754_nan => (0, 0, 0)
  | S754_finite s m e =>
      if s then (-1, - e, Z.neg m) else (1, e, Z.pos m)
  end.

(** Lexicographic comparison of keys. *)
Definition lex3 (a b : Z * Z * Z) : comparison :=
  match a.1.1 ?= b.1.1 with
  | Datatypes.Eq =>
      match a.1.2 ?= b.1.2 with
      | Datatypes.Eq => a.2 ?= b.2
      | r => r
      end
  | r => r
  end.

(** Strictly increasing order: every entry is below the next one. *)
Fixpoint strictly_ascending (l : list float) : Prop :=
  match l with
  | [] => True
  | x :: r =>
      match r with
      | [] => True
      | y :: _ => F64.lt x y = true /\ strictly_ascending r
      end
  end.

(** No entry is a NaN. *)
Definition no_nan (l : list float) : Prop :=
  Forall (fun x => F64.isnan x = false) l.

(** Every check of [_colnew_solve] that comes before the "Initial guess"
    block passes. *)
Definition checks_pass (a : solve_args) (c : ComplexAdapter.t) (w : world)
    : Prop :=
  exists ncomp mstar k ispace fspace ltol tol,
    check_degrees (ComplexAdapter.degrees c) = inr (ncomp, mstar) /\
    default_collocation_points (collocation_points a)
      (ComplexAdapter.degrees c) = inr k /\
    np_empty (uninit_int w)
      (workspace_size ncomp mstar k (maximum_mesh_size a)).1 = inr ispace /\
    np_empty (uninit_float w)
      (workspace_size ncomp mstar k (maximum_mesh_size a)).2 = inr fspace /\
    active_tolerances
      (default (replicate (Z.to_nat mstar) 0%float)
               (ComplexAdapter.tolerances c)) mstar = inr (ltol, tol) /\
    boundary_ok a c w.

(** A call that is refused: [solve] raises a ValueError and the kernel has
    not been called. *)
Definition rejected (r : res result * world) (w : world) : Prop :=
  exists msg, r.1 = inl (ValueError msg) /\ kernel_calls r.2 = kernel_calls w.

(** The only thing the marshalling may have done to the state: sorted the
    caller's array [b]. *)
Definition sorted_at_most (b : array_like) (w w' : world) : Prop :=
  w' = w \/ w' = sorted_world b w.

(* ===================================================================== *)
(** ** Sample calls *)
(* ===================================================================== *)

(** The problems below are real-valued; the adapter is never reached. *)
Definition no_adapter : array_like -> list Z -> callable -> callable ->
  option callable -> option callable -> option (list float) ->
  res ComplexAdapter.t :=
  fun _ _ _ _ _ _ _ => inl (RuntimeError "no complex problems here").

(** A kernel run overwrites the COMMON variables. *)
Definition scribble (w : world) : world :=
  set_commons (map (fmap (fun _ => CInt [0])) (_colnew_commons w)) w.

(** A kernel stub: it answers [iflag] with a two-point mesh in the
    workspaces. *)
Definition stub (iflag : Z) : kernel_args -> M (Z * list Z * list float) :=
  fun ka w =>
    (inr (iflag, [1; 0; 1; 2; 0; 0; 2; 0], [0%float; 1%float; 5%float]),
     scribble w).

(** No solve in progress; one COMMON block; one float64 array owned by
    the caller, holding 0.5 and 0.2. *)
Definition w0 : world :=
  World 0 [] [ {[ "n" := CInt [3]; "b" := CReal [0.5%float] ]} ]
        {[ 1%positive := [0.5%float; 0x1.999999999999ap-3%float] ]}
        (fun _ => 0) (fun _ => 0%float) [].

(** The same state while an outer solve is running. *)
Definition w_nested : world := set_depth 1 w0.

(** [solve([0., 1.], [2], fsub, gsub, tolerances=[2**-10, 0.],
          maximum_mesh_size=3)] *)
Definition args0 : solve_args :=
  {| boundary_points := PyList [0%float; 1%float];
     degrees := [2];
     fsub := Callable 0;
     gsub := Callable 1;
     dfsub := None;
     dgsub := None;
     left := None;
     right := None;
     is_linear := false;
     initial_guess := GuessNone;
     coarsen_initial_guess_mesh := true;
     initial_mesh := MeshNone;
     tolerances := Some [0x1p-10%float; 0%float];
     adaptive_mesh_selection := true;
     verbosity := 0;
     collocation_points := None;
     extra_fixed_points := None;
     problem_regularity := 0;
     maximum_mesh_size := 3;
     vectorized := true;
     is_complex := false |}.

(** Tolerances [-1.0, 0.5]. *)
Definition args_negative_tolerance : solve_args :=
  {| boundary_points := PyList [0%float; 1%float];
     degrees := [2];
     fsub := Callable 0;
     gsub := Callable 1;
     dfsub := None;
     dgsub := None;
     left := None;
     right := None;
     is_linear := false;
     initial_guess := GuessNone;
     coarsen_initial_guess_mesh := true;
     initial_mesh := MeshNone;
     tolerances := Some [(-1)%float; 0.5%float];
     adaptive_mesh_selection := true;
     verbosity := 0;
     collocation_points := None;
     extra_fixed_points := None;
     problem_regularity := 0;
     maximum_mesh_size := 3;
     vectorized := true;
     is_complex := false |}.

(** A former solution on the mesh [0, 1]. *)
Definition former : Solution.t :=
  Solution.Build 1 2 2 [1; 0; 1; 2; 0; 0; 2; 0] [0%float; 1%float].


(** Boundary points [0.5, 0.2] in the caller's float64 array, on
    [[0, 1]]. *)
Definition args_ndarray : solve_args :=
  {| boundary_points := NdArray 1;
     degrees := [2];
     fsub := Callable 0;
     gsub := Callable 1;
     dfsub := None;
     dgsub := None;
     left := Some 0%float;
     right := Some 1%float;
     is_linear := false;
     initial_guess := GuessNone;
     coarsen_initial_guess_mesh := true;
     initial_mesh := MeshNone;
     tolerances := None;
     adaptive_mesh_selection := true;
     verbosity := 0;
     collocation_points := None;
     extra_fixed_points := None;
     problem_regularity := 0;
     maximum_mesh_size := 3;
     vectorized := true;
     is_complex := false |}.

(** The same points as a Python list. *)
Definition args_list : solve_args :=
  {| boundary_points := PyList [0.5%float; 0x1.999999999999ap-3%float];
     degrees := [2];
     fsub := Callable 0;
     gsub := Callable 1;
     dfsub := None;
     dgsub := None;
     left := Some 0%float;
     right := Some 1%float;
     is_linear := false;
     initial_guess := GuessNone;
     coarsen_initial_guess_mesh := true;
     initial_mesh := MeshNone;
     tolerances := None;
     adaptive_mesh_selection := true;
     verbosity := 0;
     collocation_points := None;
     extra_fixed_points := None;
     problem_regularity := 0;
     maximum_mesh_size := 3;
     vectorized := true;
     is_complex := false |}.

(** A non-adaptive run continuing from [former], with a number of mesh
    points for [initial_mesh] and coarsening switched off. *)
Definition args_count_mesh : solve_args :=
  {| boundary_points := PyList [0%float; 1%float];
     degrees := [2];
     fsub := Callable 0;
     gsub := Callable 1;
     dfsub := None;
     dgsub := None;
     left := None;
     right := None;
     is_linear := false;
     initial_guess := GuessSolution former;
     coarsen_initial_guess_mesh := false;
     initial_mesh := MeshCount 10;
     tolerances := None;
     adaptive_mesh_selection := false;
     verbosity := 0;
     collocation_points := None;
     extra_fixed_points := None;
     problem_regularity := 0;
     maximum_mesh_size := 3;
     vectorized := true;
     is_complex := false |}.

(** A kernel whose callback runs a solve of its own: it leaves 42 in the
    COMMON variable [n], runs the nested solve (whose kernel overwrites
    every variable), and answers with what it then finds in [n]. *)
Definition nesting_kernel : kernel_args -> M (Z * list Z * list float) :=
  fun ka w =>
    let w := set_commons
               (map (fun b : block => <["n" := CInt [42]]> b)
                    (_colnew_commons w)) w in
    let '(_, w) := solve (stub 1) no_adapter args0 w in
    let n := match _colnew_commons w with
             | b :: _ =>
                 match b !! "n" with Some (CInt [v]) => v | _ => 0 end
             | [] => 0
             end in
    (inr (1, [n; 0; 1; 2; 0; 0; 2; 0], [0%float; 1%float; 5%float]), w).

(** A real-valued call on the boundary points [0, 1] with the defaults of
    [solve], but for the arguments named. *)
Definition sample_call (d : list Z) (ig : guess_t) (im : mesh_t)
    (tol : option (list float)) (cp : option Z)
    (extra : option (list float)) (size : Z) : solve_args :=
  {| boundary_points := PyList [0%float; 1%float];
     degrees := d;
     fsub := Callable 0;
     gsub := Callable 1;
     dfsub := None;
     dgsub := None;
     left := None;
     right := None;
     is_linear := false;
     initial_guess := ig;
     coarsen_initial_guess_mesh := true;
     initial_mesh := im;
     tolerances := tol;
     adaptive_mesh_selection := true;
     verbosity := 0;
     collocation_points := cp;
     extra_fixed_points := extra;
     problem_regularity := 0;
     maximum_mesh_size := size;
     vectorized := true;
     is_complex := false |}.

(** The seven arguments a real-valued sample call passes on. *)
Definition sample_adapter (d : list Z) (tol : option (list float))
    : ComplexAdapter.t :=
  ComplexAdapter.Build (PyList [0%float; 1%float]) d (Callable 0)
                       (Callable 1) None None tol.

(** A kernel that reports success but hands back three integers only. *)
Definition truncating_stub : kernel_args -> M (Z * list Z * list float) :=
  fun ka w => (inr (1, [1; 0; 1], [0%float; 1%float]), w).

(** A kernel run in which one of the caller's functions raises. *)
Definition raising_stub : kernel_args -> M (Z * list Z * list float) :=
  fun ka w => (inl (RuntimeError "fsub failed"), scribble w).

(* ##################################################################### *)
(** * Part II: facts *)
(* ##################################################################### *)

(* ===================================================================== *)
(** ** Binary64 comparisons *)
(* ===================================================================== *)

Module F64Facts.

Import F64.

Lemma SFcompare_swap (x y : spec_float) :
  SFcompare y x = option_map CompOpp (SFcompare x y).
Proof.
  destruct x as [s1| s1 | |s1 m1 e1], y as [s2|s2| |s2 m2 e2]; simpl;
    try reflexivity;
    try (destruct s1; reflexivity);
    try (destruct s2; reflexivity);
    try (destruct s1, s2; reflexivity).
  destruct s1, s2; simpl; try reflexivity.
  - rewrite (Z.compare_antisym e1 e2).
    destruct (e1 ?= e2); simpl; try reflexivity.
    rewrite (Pos.compare_cont_antisym m1 m2 Datatypes.Eq). reflexivity.
  - rewrite (Z.compare_antisym e1 e2).
    destruct (e1 ?= e2); simpl; try reflexivity.
    now rewrite (Pos.compare_cont_antisym m1 m2 Datatypes.Eq).
Qed.

Lemma SFcompare_refl (x : spec_float) :
  x <> S754_nan -> SFcompare x x = Some Datatypes.Eq.
Proof.
  destruct x as [s|s| |s m e]; simpl; intros H; try congruence.
  - now destruct s.
  - rewrite Z.compare_refl.
    assert (Hm : Pos.compare_cont Datatypes.Eq m m = Datatypes.Eq)
      by apply Pos.compare_cont_refl.
    destruct s; simpl; now rewrite Hm.
Qed.

(** Two numbers that compare equal are interchangeable in any comparison. *)
Lemma SFcompare_Eq_l (x x' y : spec_float) :
  SFcompare x x' = Some Datatypes.Eq -> SFcompare x y = SFcompare x' y.
Proof.
  destruct x as [s1|s1| |s1 m1 e1], x' as [s2|s2| |s2 m2 e2]; simpl;
    intros H; try discriminate; try reflexivity;
    try (destruct s1; discriminate); try (destruct s2; discriminate);
    try (destruct s1, s2; (discriminate || reflexivity)).
  - assert (Hs : s1 = s2 /\ e1 = e2 /\ m1 = m2).
    { destruct s1, s2; try discriminate;
        destruct (e1 ?= e2) eqn:He; try discriminate;
        apply Z.compare_eq in He;
        (split; [reflexivity | split; [exact He|]]);
        apply Pos.compare_eq.
      - destruct (Pos.compare_cont Datatypes.Eq m1 m2) eqn:Hm;
          simpl in H; try discriminate.
        unfold Pos.compare. exact Hm.
      - injection H as H. unfold Pos.compare. exact H. }
    destruct Hs as (-> & -> & ->). reflexivity.
Qed.

Lemma SFcompare_Eq_r (x y y' : spec_float) :
  SFcompare y y' = Some Datatypes.Eq -> SFcompare x y = SFcompare x y'.
Proof.
  intros H.
  rewrite (SFcompare_swap y x), (SFcompare_swap y' x).
  now rewrite (SFcompare_Eq_l y y' x H).
Qed.

Lemma lt_SF a b : lt a b = SFltb (Prim2SF a) (Prim2SF b).
Proof. apply FloatAxioms.ltb_spec. Qed.

Lemma le_SF a b : le a b = SFleb (Prim2SF a) (Prim2SF b).
Proof. apply FloatAxioms.leb_spec. Qed.

Lemma eq_SF a b : eq a b = SFeqb (Prim2SF a) (Prim2SF b).
Proof. apply FloatAxioms.eqb_spec. Qed.

Lemma isnan_SF a : isnan a = false <-> Prim2SF a <> S754_nan.
Proof.
  unfold isnan. fold (eq a a). rewrite eq_SF. unfold SFeqb. split.
  - intros H Hn. rewrite Hn in H. simpl in H. discriminate.
  - intros H. now rewrite (SFcompare_refl _ H).
Qed.

Lemma lt_asym a b : lt a b = true -> lt b a = false.
Proof.
  rewrite !lt_SF. unfold SFltb.
  rewrite (SFcompare_swap (Prim2SF a) (Prim2SF b)).
  destruct (SFcompare (Prim2SF a) (Prim2SF b)) as [[]|]; simpl; congruence.
Qed.

Lemma le_not_gt a b : le a b = true -> lt b a = false.
Proof.
  rewrite le_SF, lt_SF. unfold SFleb, SFltb.
  rewrite (SFcompare_swap (Prim2SF a) (Prim2SF b)).
  destruct (SFcompare (Prim2SF a) (Prim2SF b)) as [[]|]; simpl; congruence.
Qed.

Lemma le_not_nan_l a b : le a b = true -> isnan a = false.
Proof.
  rewrite le_SF. intros H. apply isnan_SF. intros Hn.
  rewrite Hn in H. discriminate.
Qed.

Lemma le_not_nan_r a b : le a b = true -> isnan b = false.
Proof.
  rewrite le_SF. intros H. apply isnan_SF. intros Hn.
  rewrite Hn in H. unfold SFleb in H.
  destruct (Prim2SF a); discriminate.
Qed.

Lemma eq_not_nan_l a b : eq a b = true -> isnan a = false.
Proof.
  rewrite eq_SF. intros H. apply isnan_SF. intros Hn.
  rewrite Hn in H. discriminate.
Qed.

Lemma eq_not_nan_r a b : eq a b = true -> isnan b = false.
Proof.
  rewrite eq_SF. intros H. apply isnan_SF. intros Hn.
  rewrite Hn in H. unfold SFeqb in H.
  destruct (Prim2SF a); discriminate.
Qed.

(** On numbers the order is total. *)
Lemma not_gt_le a b :
  isnan a = false -> isnan b = false -> lt b a = false -> le a b = true.
Proof.
  rewrite !isnan_SF, le_SF, lt_SF. unfold SFleb, SFltb.
  rewrite (SFcompare_swap (Prim2SF a) (Prim2SF b)).
  intros Ha Hb.
  destruct (Prim2SF a) as [s1|s1| |s1 m1 e1] eqn:Ea; try congruence;
    destruct (Prim2SF b) as [s2|s2| |s2 m2 e2] eqn:Eb; try congruence;
    simpl SFcompare.
  all: match goal with
       | |- context [Some ?c] => destruct c; simpl; congruence
       end.
Qed.

Lemma le_eq_compat a a' b b' :
  eq a a' = true -> eq b b' = true -> le a b = true -> le a' b' = true.
Proof.
  rewrite !eq_SF, !le_SF. unfold SFeqb, SFleb. intros Ha Hb.
  assert (Ea : SFcompare (Prim2SF a) (Prim2SF a') = Some Datatypes.Eq).
  { destruct (SFcompare (Prim2SF a) (Prim2SF a')) as [[]|]; congruence. }
  assert (Eb : SFcompare (Prim2SF b) (Prim2SF b') = Some Datatypes.Eq).
  { destruct (SFcompare (Prim2SF b) (Prim2SF b')) as [[]|]; congruence. }
  rewrite (SFcompare_Eq_l _ _ (Prim2SF b) Ea).
  now rewrite (SFcompare_Eq_r (Prim2SF a') _ _ Eb).
Qed.

End F64Facts.

(* ===================================================================== *)
(** ** The order of binary64 values *)
(* ===================================================================== *)

Lemma SFcompare_key (x y : spec_float) :
  x <> S754_nan -> y <> S754_nan ->
  SFcompare x y = Some (lex3 (sf_key x) (sf_key y)).
Proof.
  intros Hx Hy.
  destruct x as [sx|sx| |sx mx ex], y as [sy|sy| |sy my ey];
    try congruence; unfold lex3; simpl;
    try (destruct sx; reflexivity); try (destruct sy; reflexivity);
    try (destruct sx, sy; reflexivity).
  destruct sx, sy; simpl; try reflexivity.
  rewrite Z.compare_opp, (Z.compare_antisym ex ey).
  destruct (ex ?= ey); reflexivity.
Qed.

Lemma lex3_refl a : lex3 a a = Datatypes.Eq.
Proof. unfold lex3. now rewrite !Z.compare_refl. Qed.

Lemma lex3_Eq a b : lex3 a b = Datatypes.Eq <-> a = b.
Proof.
  destruct a as [[a1 a2] a3], b as [[b1 b2] b3]. unfold lex3. simpl.
  destruct (Z.compare_spec a1 b1) as [E1|E1|E1],
    (Z.compare_spec a2 b2) as [E2|E2|E2],
    (Z.compare_spec a3 b3) as [E3|E3|E3];
    split; intros H; try discriminate; try (injection H as -> -> ->);
    subst; try lia; reflexivity.
Qed.

Lemma lex3_Lt a b :
  lex3 a b = Datatypes.Lt <->
  a.1.1 < b.1.1 \/ (a.1.1 = b.1.1 /\ (a.1.2 < b.1.2 \/
                                      (a.1.2 = b.1.2 /\ a.2 < b.2))).
Proof.
  destruct a as [[a1 a2] a3], b as [[b1 b2] b3]. unfold lex3. simpl.
  destruct (Z.compare_spec a1 b1) as [E1|E1|E1],
    (Z.compare_spec a2 b2) as [E2|E2|E2],
    (Z.compare_spec a3 b3) as [E3|E3|E3];
    split; intros H; try discriminate; try reflexivity; lia.
Qed.

Lemma lex3_Lt_trans a b c :
  lex3 a b = Datatypes.Lt -> lex3 b c = Datatypes.Lt ->
  lex3 a c = Datatypes.Lt.
Proof. rewrite !lex3_Lt. lia. Qed.

Lemma lex3_Gt a b : lex3 a b = Datatypes.Gt <-> lex3 b a = Datatypes.Lt.
Proof.
  destruct a as [[a1 a2] a3], b as [[b1 b2] b3]. unfold lex3. simpl.
  rewrite (Z.compare_antisym a1 b1), (Z.compare_antisym a2 b2),
    (Z.compare_antisym a3 b3).
  destruct (a1 ?= b1), (a2 ?= b2), (a3 ?= b3); simpl; split; congruence.
Qed.

Module F64Order.

Import F64 F64Facts.

Lemma key_cases a b :
  isnan a = false -> isnan b = false ->
  SFcompare (Prim2SF a) (Prim2SF b)
  = Some (lex3 (sf_key (Prim2SF a)) (sf_key (Prim2SF b))).
Proof.
  intros Ha Hb. apply SFcompare_key; now apply isnan_SF.
Qed.

Lemma lt_not_nan_l a b : lt a b = true -> isnan a = false.
Proof.
  rewrite lt_SF. unfold SFltb. intros H. apply isnan_SF. intros Hn.
  rewrite Hn in H. discriminate.
Qed.

Lemma lt_not_nan_r a b : lt a b = true -> isnan b = false.
Proof.
  rewrite lt_SF. unfold SFltb. intros H. apply isnan_SF. intros Hn.
  rewrite Hn in H. destruct (Prim2SF a); discriminate.
Qed.

Lemma lt_key a b :
  lt a b = true <->
  isnan a = false /\ isnan b = false /\
  lex3 (sf_key (Prim2SF a)) (sf_key (Prim2SF b)) = Datatypes.Lt.
Proof.
  split.
  - intros H. pose proof (lt_not_nan_l _ _ H) as Ha.
    pose proof (lt_not_nan_r _ _ H) as Hb. repeat split; auto.
    rewrite lt_SF in H. unfold SFltb in H. rewrite (key_cases a b Ha Hb) in H.
    destruct (lex3 _ _); congruence.
  - intros (Ha & Hb & H). rewrite lt_SF. unfold SFltb.
    now rewrite (key_cases a b Ha Hb), H.
Qed.

Lemma eq_key a b :
  eq a b = true <->
  isnan a = false /\ isnan b = false /\
  sf_key (Prim2SF a) = sf_key (Prim2SF b).
Proof.
  split.
  - intros H. pose proof (eq_not_nan_l _ _ H) as Ha.
    pose proof (eq_not_nan_r _ _ H) as Hb. repeat split; auto.
    rewrite eq_SF in H. unfold SFeqb in H. rewrite (key_cases a b Ha Hb) in H.
    apply lex3_Eq. destruct (lex3 _ _); congruence.
  - intros (Ha & Hb & H). rewrite eq_SF. unfold SFeqb.
    rewrite (key_cases a b Ha Hb), H, lex3_refl. reflexivity.
Qed.

Lemma le_key a b :
  le a b = true <->
  isnan a = false /\ isnan b = false /\
  lex3 (sf_key (Prim2SF b)) (sf_key (Prim2SF a)) <> Datatypes.Lt.
Proof.
  split.
  - intros H. pose proof (le_not_nan_l _ _ H) as Ha.
    pose proof (le_not_nan_r _ _ H) as Hb. repeat split; auto.
    rewrite le_SF in H. unfold SFleb in H. rewrite (key_cases a b Ha Hb) in H.
    intros Hlt. apply lex3_Gt in Hlt. rewrite Hlt in H. discriminate.
  - intros (Ha & Hb & H). rewrite le_SF. unfold SFleb.
    rewrite (key_cases a b Ha Hb).
    destruct (lex3 (sf_key (Prim2SF a)) _) eqn:E; try reflexivity.
    apply lex3_Gt in E. contradiction.
Qed.

Lemma triple_neq (a b : Z * Z * Z) :
  a <> b <-> a.1.1 <> b.1.1 \/ a.1.2 <> b.1.2 \/ a.2 <> b.2.
Proof.
  destruct a as [[a1 a2] a3], b as [[b1 b2] b3]. simpl. split.
  - intros H. destruct (Z.eq_dec a1 b1), (Z.eq_dec a2 b2), (Z.eq_dec a3 b3);
      subst; auto; now contradict H.
  - intros H [= -> -> ->]. lia.
Qed.

Lemma triple_eq (a b : Z * Z * Z) :
  a = b <-> a.1.1 = b.1.1 /\ a.1.2 = b.1.2 /\ a.2 = b.2.
Proof.
  destruct a as [[a1 a2] a3], b as [[b1 b2] b3]. simpl. split.
  - now intros [= -> -> ->].
  - now intros (-> & -> & ->).
Qed.

Lemma eq_false_key a b :
  isnan a = false -> isnan b = false ->
  eq a b = false <-> sf_key (Prim2SF a) <> sf_key (Prim2SF b).
Proof.
  intros Ha Hb. split.
  - intros H E. assert (eq a b = true) by (apply eq_key; auto). congruence.
  - intros H. destruct (eq a b) eqn:E; [|reflexivity].
    apply eq_key in E. tauto.
Qed.

Lemma lt_false_key a b :
  isnan a = false -> isnan b = false ->
  lt a b = false <->
  lex3 (sf_key (Prim2SF a)) (sf_key (Prim2SF b)) <> Datatypes.Lt.
Proof.
  intros Ha Hb. split.
  - intros H E. assert (lt a b = true) by (apply lt_key; auto). congruence.
  - intros H. destruct (lt a b) eqn:E; [|reflexivity].
    apply lt_key in E. tauto.
Qed.

Lemma le_trans a b c : le a b = true -> le b c = true -> le a c = true.
Proof.
  rewrite !le_key, !lex3_Lt. intros (Ha & Hb & H1) (_ & Hc & H2).
  repeat split; auto. lia.
Qed.

Lemma lt_trans a b c : lt a b = true -> lt b c = true -> lt a c = true.
Proof.
  rewrite !lt_key, !lex3_Lt. intros (Ha & Hb & H1) (_ & Hc & H2).
  repeat split; auto. lia.
Qed.

Lemma lt_le_trans a b c : lt a b = true -> le b c = true -> lt a c = true.
Proof.
  rewrite !lt_key, !le_key, !lex3_Lt. intros (Ha & Hb & H1) (_ & Hc & H2).
  repeat split; auto. lia.
Qed.

Lemma le_lt_trans a b c : le a b = true -> lt b c = true -> lt a c = true.
Proof.
  rewrite !lt_key, !le_key, !lex3_Lt. intros (Ha & Hb & H1) (_ & Hc & H2).
  repeat split; auto. lia.
Qed.

Lemma lt_le a b : lt a b = true -> le a b = true.
Proof.
  rewrite lt_key, le_key, !lex3_Lt. intros (Ha & Hb & H1).
  repeat split; auto. lia.
Qed.

Lemma eq_le a b : eq a b = true -> le a b = true.
Proof.
  rewrite eq_key, le_key, lex3_Lt, triple_eq. intros (Ha & Hb & H1).
  repeat split; auto. lia.
Qed.

Lemma le_refl a : isnan a = false -> le a a = true.
Proof. intros Ha. rewrite le_key, lex3_Lt. repeat split; auto. lia. Qed.

Lemma eq_refl a : isnan a = false -> eq a a = true.
Proof. intros Ha. now apply eq_key. Qed.

Lemma eq_sym a b : eq a b = true -> eq b a = true.
Proof. rewrite !eq_key. intuition congruence. Qed.

Lemma eq_trans a b c : eq a b = true -> eq b c = true -> eq a c = true.
Proof. rewrite !eq_key. intuition congruence. Qed.

Lemma lt_neq a b : lt a b = true -> eq a b = false.
Proof.
  intros H. pose proof (lt_not_nan_l _ _ H). pose proof (lt_not_nan_r _ _ H).
  apply eq_false_key; auto. apply lt_key in H. destruct H as (_ & _ & H).
  apply lex3_Lt in H. apply triple_neq. lia.
Qed.

Lemma le_neq_lt a b : le a b = true -> eq a b = false -> lt a b = true.
Proof.
  intros H E. pose proof (le_not_nan_l _ _ H) as Ha.
  pose proof (le_not_nan_r _ _ H) as Hb.
  apply (eq_false_key a b Ha Hb) in E. apply triple_neq in E.
  apply le_key in H. destruct H as (_ & _ & H). rewrite lex3_Lt in H.
  apply lt_key. repeat split; auto. apply lex3_Lt. lia.
Qed.

Lemma le_antisym a b : le a b = true -> le b a = true -> eq a b = true.
Proof.
  rewrite !le_key, eq_key, !lex3_Lt, triple_eq. intros (Ha & Hb & H1) (_ & _ & H2).
  repeat split; auto; lia.
Qed.

Lemma lt_eq_compat_r a b b' :
  eq b b' = true -> lt a b = lt a b'.
Proof.
  intros E. apply eq_key in E. destruct E as (Hb & Hb' & E).
  destruct (isnan a) eqn:Ha.
  - destruct (lt a b) eqn:E1; [apply lt_not_nan_l in E1; congruence|].
    destruct (lt a b') eqn:E2; [apply lt_not_nan_l in E2; congruence|].
    reflexivity.
  - destruct (lt a b) eqn:E1.
    + symmetry. apply lt_key. apply lt_key in E1. rewrite <- E. tauto.
    + symmetry. apply lt_false_key; auto. apply lt_false_key in E1; auto.
      now rewrite <- E.
Qed.

Lemma lt_eq_compat_l a a' b :
  eq a a' = true -> lt a b = lt a' b.
Proof.
  intros E. apply eq_key in E. destruct E as (Ha & Ha' & E).
  destruct (isnan b) eqn:Hb.
  - destruct (lt a b) eqn:E1; [apply lt_not_nan_r in E1; congruence|].
    destruct (lt a' b) eqn:E2; [apply lt_not_nan_r in E2; congruence|].
    reflexivity.
  - destruct (lt a b) eqn:E1.
    + symmetry. apply lt_key. apply lt_key in E1. rewrite <- E. tauto.
    + symmetry. apply lt_false_key; auto. apply lt_false_key in E1; auto.
      now rewrite <- E.
Qed.

End F64Order.

(* ===================================================================== *)
(** ** Facts about the reentrancy stack *)
(* ===================================================================== *)

Section DriverFacts.

Variable colnew : kernel_args -> M (Z * list Z * list float).

Variable new_ComplexAdapter :
  array_like -> list Z -> callable -> callable -> option callable ->
  option callable -> option (list float) -> res ComplexAdapter.t.

Local Abbreviation handle_complex := (handle_complex new_ComplexAdapter).
Local Abbreviation kernel_arguments :=
  (kernel_arguments new_ComplexAdapter).
Local Abbreviation marshalled := (marshalled new_ComplexAdapter).
Local Abbreviation call_colnew := (call_colnew colnew).
Local Abbreviation _colnew_solve :=
  (_colnew_solve colnew new_ComplexAdapter).
Local Abbreviation solve := (solve colnew new_ComplexAdapter).

Lemma same_layout_refl c : same_layout c c.
Proof. induction c; constructor; auto. Qed.

Lemma same_layout_sym c1 c2 : same_layout c1 c2 -> same_layout c2 c1.
Proof. induction 1; constructor; auto. Qed.

Lemma same_layout_trans c1 c2 c3 :
  same_layout c1 c2 -> same_layout c2 c3 -> same_layout c1 c3.
Proof.
  intros H. revert c3.
  induction H as [|b1 b2 c1 c2 Hb _ IH]; intros c3 H3.
  - inversion H3. constructor.
  - inversion H3 as [|b2' b3 c2' c3' Hb' Hc']; subst.
    constructor.
    + now rewrite Hb.
    + now apply IH.
Qed.

Lemma copy_block_id (com : block) : copy_block com = com.
Proof. unfold copy_block. apply list_to_map_to_list. Qed.

Lemma map_copy_block_id (c : list block) : map copy_block c = c.
Proof.
  induction c as [|b c IH]; simpl; [reflexivity|].
  now rewrite copy_block_id, IH.
Qed.

Lemma pop_snoc {A : Type} (l : list A) (x : A) : pop (l ++ [x]) = inr (l, x).
Proof.
  unfold pop. rewrite reverse_snoc. now rewrite reverse_involutive.
Qed.

Lemma restore_names_spec (sub : block) (names : list string) :
  forall com : block,
    (forall n, n ∈ names -> is_Some (sub !! n)) ->
    exists com' : block,
      restore_names names com sub = (None, com') /\
      forall k, com' !! k = if decide (k ∈ names) then sub !! k else com !! k.
Proof.
  induction names as [|name rest IH]; intros com Hin; simpl.
  - exists com. split; [reflexivity|]. intros k.
    destruct (decide (k ∈ [])) as [H|H]; [|reflexivity].
    now apply elem_of_nil in H.
  - destruct (Hin name) as [v Hv]; [left|]. rewrite Hv.
    destruct (IH (<[name := v]> com)) as (com' & Hr & Hl).
    { intros n Hn. apply Hin. now right. }
    exists com'. split; [exact Hr|]. intros k. rewrite Hl.
    destruct (decide (k ∈ rest)) as [Hk|Hk].
    + rewrite decide_True; [reflexivity | now right].
    + destruct (decide (k = name)) as [->|Hne].
      * rewrite decide_True by left. now rewrite lookup_insert_eq.
      * rewrite lookup_insert_ne by congruence.
        rewrite decide_False; [reflexivity|].
        intros Hk'. apply elem_of_cons in Hk'. tauto.
Qed.

(** Writing a saved block back over a block with the same names yields
    the saved block. *)
Lemma restore_block_same_dom (com sub : block) :
  dom com = dom sub -> restore_block com sub = (None, sub).
Proof.
  intros Hd. unfold restore_block, keys.
  destruct (restore_names_spec sub (elements (dom com)) com)
    as (com' & Hr & Hl).
  { intros n Hn. apply elem_of_elements in Hn. rewrite Hd in Hn.
    now apply elem_of_dom in Hn. }
  rewrite Hr. f_equal. apply map_eq. intros k. rewrite Hl.
  destruct (decide (k ∈ elements (dom com))) as [Hk|Hk]; [reflexivity|].
  rewrite elem_of_elements in Hk.
  assert (Hs : k ∉ dom sub) by now rewrite <- Hd.
  apply not_elem_of_dom in Hk. apply not_elem_of_dom in Hs. congruence.
Qed.

Lemma restore_commons_same_layout (commons entry : list block) :
  same_layout commons entry -> restore_commons commons entry = (None, entry).
Proof.
  induction 1 as [|com sub cs es Hd _ IH]; simpl; [reflexivity|].
  now rewrite (restore_block_same_dom _ _ Hd), IH.
Qed.

Lemma _colnew_enter_eq (w : world) : _colnew_enter w = (inr tt, entered w).
Proof.
  unfold _colnew_enter, entered. simpl.
  destruct (_colnew_depth w =? 0) eqn:Hd.
  - apply Z.eqb_eq in Hd. rewrite Hd. reflexivity.
  - apply Z.eqb_neq in Hd.
    destruct (_colnew_depth w + 1 =? 1) eqn:Hd1.
    + apply Z.eqb_eq in Hd1. lia.
    + now rewrite map_copy_block_id.
Qed.

Lemma heap_step_refl w : heap_step w w.
Proof. repeat split. Qed.

Lemma heap_step_trans w1 w2 w3 :
  heap_step w1 w2 -> heap_step w2 w3 -> heap_step w1 w3.
Proof. unfold heap_step. intuition congruence. Qed.

Lemma frame_step_refl w : frame_step w w.
Proof. repeat split. apply same_layout_refl. Qed.

Lemma frame_step_trans w1 w2 w3 :
  frame_step w1 w2 -> frame_step w2 w3 -> frame_step w1 w3.
Proof.
  intros (H1 & H2 & H3) (H4 & H5 & H6). repeat split; try congruence.
  eapply same_layout_trans; eauto.
Qed.

Lemma heap_step_frame w w' : heap_step w w' -> frame_step w w'.
Proof.
  intros (H1 & H2 & H3 & _). repeat split; auto.
  rewrite H3. apply same_layout_refl.
Qed.

Lemma _colnew_exit_eq (w w2 : world) :
  frame_step (entered w) w2 -> _colnew_exit w2 = (inr tt, exited w w2).
Proof.
  intros (Hd & Hs & Hl).
  unfold _colnew_exit, exited, set_depth, set_stack, set_commons. simpl.
  rewrite Hd, Hs. unfold entered, set_depth, set_stack in *.
  destruct (_colnew_depth w =? 0) eqn:H0; simpl in *.
  - apply Z.eqb_eq in H0. rewrite H0. reflexivity.
  - replace (_colnew_depth w + 1 - 1) with (_colnew_depth w) by lia.
    rewrite H0, pop_snoc. simpl.
    now rewrite (restore_commons_same_layout _ _ Hl).
Qed.

(* ===================================================================== *)
(** ** Stepping through monadic code *)
(* ===================================================================== *)

Section Preserves.

Context (R : world -> world -> Prop).

Hypothesis R_refl : forall w, R w w.

Hypothesis R_trans : forall w1 w2 w3, R w1 w2 -> R w2 w3 -> R w1 w3.

Lemma preserves_ret {A : Type} (x : A) : preserves R (ret x).
Proof. intros w. apply R_refl. Qed.

Lemma preserves_raise {A : Type} (e : exn) : preserves R (raise (A := A) e).
Proof. intros w. apply R_refl. Qed.

Lemma preserves_lift {A : Type} (r : res A) : preserves R (lift r).
Proof. intros w. apply R_refl. Qed.

Lemma preserves_raise_if (b : bool) (e : exn) : preserves R (raise_if b e).
Proof. intros w. unfold raise_if. destruct b; apply R_refl. Qed.

Lemma preserves_read (a : array_like) : preserves R (read a).
Proof. intros w. apply R_refl. Qed.

Lemma preserves_alloc_int (n : Z) : preserves R (alloc_int n).
Proof. intros w. apply R_refl. Qed.

Lemma preserves_alloc_float (n : Z) : preserves R (alloc_float n).
Proof. intros w. apply R_refl. Qed.

Lemma preserves_bind {A B : Type} (c : M A) (k : A -> M B) :
  preserves R c -> (forall x, preserves R (k x)) -> preserves R (bind c k).
Proof.
  intros Hc Hk w. unfold bind. specialize (Hc w).
  destruct (c w) as [[e|x] w1]; simpl in *; [exact Hc|].
  eapply R_trans; [exact Hc | apply Hk].
Qed.

End Preserves.

Lemma bind_inr {A B : Type} (c : M A) (k : A -> M B) w y w' :
  bind c k w = (inr y, w') ->
  exists x w1, c w = (inr x, w1) /\ k x w1 = (inr y, w').
Proof.
  unfold bind. destruct (c w) as [[e|x] w1]; intros H; [discriminate|].
  eauto.
Qed.

Lemma bind_inl {A B : Type} (c : M A) (k : A -> M B) w e w' :
  bind c k w = (inl e, w') ->
  c w = (inl e, w') \/
  exists x w1, c w = (inr x, w1) /\ k x w1 = (inl e, w').
Proof.
  unfold bind. destruct (c w) as [[e1|x] w1]; intros H.
  - left. now inversion H.
  - right. eauto.
Qed.

Lemma bind_step {A B : Type} (c : M A) (k : A -> M B) w x w1 :
  c w = (inr x, w1) -> bind c k w = k x w1.
Proof. unfold bind. now intros ->. Qed.

Lemma bind_fail {A B : Type} (c : M A) (k : A -> M B) w e w1 :
  c w = (inl e, w1) -> bind c k w = (inl e, w1).
Proof. unfold bind. now intros ->. Qed.

Lemma rbind_inr {A B : Type} (c : res A) (k : A -> res B) y :
  rbind c k = inr y -> exists x, c = inr x /\ k x = inr y.
Proof. destruct c as [e|x]; simpl; intros H; [discriminate | eauto]. Qed.

Lemma asarray_sort_eq (a : array_like) (w : world) :
  asarray_sort a w = (inr (np_sort (contents a w)), sorted_world a w).
Proof. destruct a; reflexivity. Qed.

Lemma preserves_asarray_sort (a : array_like) :
  preserves heap_step (asarray_sort a).
Proof.
  intros w. rewrite asarray_sort_eq. destruct a; simpl; repeat split.
Qed.

(** After the sort, the caller's sequence reads as follows. *)
Lemma contents_sorted_world (a : array_like) (w : world) :
  contents a (sorted_world a w) =
  match a with
  | PyList l => l
  | NdArray _ => np_sort (contents a w)
  end.
Proof.
  destruct a as [l|r]; simpl; [reflexivity|].
  now rewrite lookup_insert_eq.
Qed.

(* ===================================================================== *)
(** ** When the marshalling succeeds *)
(* ===================================================================== *)

Lemma raise_if_inr (b : bool) (e : exn) (w : world) x w1 :
  raise_if b e w = (inr x, w1) -> b = false /\ w1 = w.
Proof.
  unfold raise_if. destruct b; simpl; intros H; [discriminate|].
  now inversion H.
Qed.

Lemma kernel_arguments_marshalled a w ka w1 :
  kernel_arguments a w = (inr ka, w1) -> marshalled a w ka w1.
Proof.
  unfold kernel_arguments. intros H.
  apply bind_inr in H. destruct H as (c & w' & Hc & H).
  unfold lift in Hc. injection Hc as Hc <-.
  apply bind_inr in H. destruct H as ([ncomp mstar] & w' & Hd & H).
  unfold lift in Hd. injection Hd as Hd <-.
  apply bind_inr in H. destruct H as (k & w' & Hk & H).
  unfold lift in Hk. injection Hk as Hk <-.
  apply bind_inr in H. destruct H as (bp & w' & Hbp & H).
  unfold read in Hbp. injection Hbp as <- <-.
  apply bind_inr in H. destruct H as (left_ & w' & Hl & H).
  unfold lift in Hl. injection Hl as Hl <-.
  apply bind_inr in H. destruct H as (right_ & w' & Hr & H).
  unfold lift in Hr. injection Hr as Hr <-.
  destruct (workspace_size ncomp mstar k (maximum_mesh_size a))
    as [nispace nfspace] eqn:Hsz.
  apply bind_inr in H. destruct H as (ispace0 & w' & Hi & H).
  unfold alloc_int in Hi. injection Hi as Hi <-.
  apply bind_inr in H. destruct H as (fspace0 & w' & Hf & H).
  unfold alloc_float in Hf. injection Hf as Hf <-.
  apply bind_inr in H. destruct H as (u1 & w' & Hn & H).
  apply raise_if_inr in Hn. destruct Hn as [Hn ->].
  apply bind_inr in H. destruct H as (zeta & w' & Hz & H).
  rewrite asarray_sort_eq in Hz. injection Hz as <- <-.
  apply bind_inr in H. destruct H as (bp' & w' & Hbp' & H).
  unfold read in Hbp'. injection Hbp' as <- <-.
  apply bind_inr in H. destruct H as (u2 & w' & Ho & H).
  apply raise_if_inr in Ho. destruct Ho as [Ho ->].
  apply bind_inr in H. destruct H as (u3 & w' & Hg & H).
  apply raise_if_inr in Hg. destruct Hg as [Hg ->].
  apply bind_inr in H. destruct H as ([ltol tol] & w' & Ht & H).
  unfold lift in Ht. injection Ht as Ht <-.
  apply bind_inr in H.
  destruct H as ([[[ispace1 fspace1] ipar1] guess_func] & w' & Hig & H).
  unfold lift in Hig. injection Hig as Hig <-.
  apply bind_inr in H. destruct H as ([fspace2 ipar2] & w' & Him & H).
  unfold lift in Him. injection Him as Him <-.
  unfold ret in H. injection H as <- <-.
  apply negb_false_iff in Hn, Ho, Hg. apply Z.eqb_eq in Hn.
  eapply Marshalled; eauto; rewrite Hsz; simpl; eauto.
Qed.

Ltac run_lift :=
  erewrite bind_step;
  [ | first
        [ apply asarray_sort_eq
        | unfold lift, alloc_int, alloc_float;
          apply (f_equal2 pair); [eassumption | reflexivity]
        | reflexivity ] ];
  cbv beta iota.

Ltac run_check :=
  erewrite bind_step;
  [ | unfold raise_if;
      match goal with
      | |- (if negb ?b then _ else _) _ = _ =>
          replace b with true by (symmetry; eassumption); reflexivity
      end ].

Lemma marshalled_kernel_arguments a w ka w1 :
  marshalled a w ka w1 -> kernel_arguments a w = (inr ka, w1).
Proof.
  intros H. destruct H as [c ncomp mstar k left_ right_ ispace0 fspace0
    ltol tol ispace1 fspace1 ipar1 guess_func fspace2 ipar2
    bp zeta w1 bp' tols fixpnt sizes Hc Hd Hk Hl Hr Hi Hf Hn Ho Hg Ht
    Hig Him].
  unfold kernel_arguments.
  do 4 run_lift. fold bp. do 2 run_lift.
  subst sizes.
  destruct (workspace_size ncomp mstar k (maximum_mesh_size a))
    as [nispace nfspace]. simpl in Hi, Hf. cbv beta iota.
  do 2 run_lift.
  apply Z.eqb_eq in Hn. run_check.
  run_lift. fold zeta w1. run_lift. fold bp'.
  do 2 run_check.
  fold tols. run_lift. fold fixpnt. do 2 run_lift.
  reflexivity.
Qed.

(* ===================================================================== *)
(** ** What a solve leaves behind *)
(* ===================================================================== *)

Ltac heap_only :=
  first
    [ apply (preserves_lift heap_step heap_step_refl)
    | apply (preserves_ret heap_step heap_step_refl)
    | apply (preserves_raise_if heap_step heap_step_refl)
    | apply (preserves_read heap_step heap_step_refl)
    | apply (preserves_alloc_int heap_step heap_step_refl)
    | apply (preserves_alloc_float heap_step heap_step_refl)
    | apply preserves_asarray_sort ].

(** The marshalling touches nothing but the caller's boundary array. *)
Lemma kernel_arguments_heap_step a : preserves heap_step (kernel_arguments a).
Proof.
  unfold kernel_arguments.
  apply (preserves_bind heap_step heap_step_trans); [heap_only | intros c].
  apply (preserves_bind heap_step heap_step_trans);
    [heap_only | intros [ncomp mstar]].
  do 4 (apply (preserves_bind heap_step heap_step_trans);
        [heap_only | intros ?]).
  destruct (workspace_size _ _ _ _) as [nispace nfspace].
  do 7 (apply (preserves_bind heap_step heap_step_trans);
        [heap_only | intros ?]).
  apply (preserves_bind heap_step heap_step_trans);
    [heap_only | intros [ltol tol]].
  apply (preserves_bind heap_step heap_step_trans);
    [heap_only | intros [[[ispace1 fspace1] ipar1] guess_func]].
  apply (preserves_bind heap_step heap_step_trans);
    [heap_only | intros [fspace2 ipar2]].
  heap_only.
Qed.

Lemma preserves_heap_frame {A : Type} (c : M A) :
  preserves heap_step c -> preserves frame_step c.
Proof. intros H w. apply heap_step_frame, H. Qed.

Lemma call_colnew_frame_step ka :
  keeps_frames colnew -> preserves frame_step (call_colnew ka).
Proof.
  intros Hk w. unfold call_colnew.
  eapply frame_step_trans; [|apply (Hk ka)].
  repeat split. apply same_layout_refl.
Qed.

Lemma _colnew_solve_frame_step a :
  keeps_frames colnew -> preserves frame_step (_colnew_solve a).
Proof.
  intros Hk. unfold _colnew_solve.
  apply (preserves_bind frame_step frame_step_trans).
  { apply preserves_heap_frame, kernel_arguments_heap_step. }
  intros ka.
  apply (preserves_bind frame_step frame_step_trans).
  { now apply call_colnew_frame_step. }
  intros [[iflag ispace] fspace].
  apply (preserves_bind frame_step frame_step_trans).
  { apply (preserves_lift frame_step frame_step_refl). }
  intros _.
  apply (preserves_bind frame_step frame_step_trans).
  { apply (preserves_lift frame_step frame_step_refl). }
  intros solution.
  destruct (is_complex a); apply (preserves_ret frame_step frame_step_refl).
Qed.

(** [solve] is [_colnew_solve] between [_colnew_enter] and
    [_colnew_exit], whatever [_colnew_solve] returns or raises. *)
Lemma solve_eq a w r w2 :
  _colnew_solve a (entered w) = (r, w2) ->
  frame_step (entered w) w2 ->
  solve a w = (r, exited w w2).
Proof.
  intros Hs Hf. unfold solve, try_finally.
  rewrite (bind_step _ _ w tt (entered w)) by apply _colnew_enter_eq.
  rewrite Hs. now rewrite (_colnew_exit_eq w w2 Hf).
Qed.

Lemma solve_eq_keeps a w :
  keeps_frames colnew ->
  solve a w =
  ((_colnew_solve a (entered w)).1,
   exited w (_colnew_solve a (entered w)).2).
Proof.
  intros Hk. apply solve_eq.
  - now destruct (_colnew_solve a (entered w)).
  - apply (_colnew_solve_frame_step a Hk).
Qed.

(** A raise during marshalling leaves [solve] with that exception and no
    kernel call. *)
Lemma solve_raises_before_call a w e w1 :
  kernel_arguments a (entered w) = (inl e, w1) ->
  solve a w = (inl e, exited w w1) /\
  kernel_calls (exited w w1) = kernel_calls w.
Proof.
  intros H.
  pose proof (kernel_arguments_heap_step a (entered w)) as Hh.
  rewrite H in Hh. simpl in Hh. split.
  - apply solve_eq.
    + unfold _colnew_solve. now rewrite (bind_fail _ _ _ e w1 H).
    + now apply heap_step_frame.
  - destruct Hh as (_ & _ & _ & _ & _ & Hc). simpl. rewrite Hc.
    unfold entered. now destruct (_colnew_depth w =? 0).
Qed.

Lemma contents_entered (b : array_like) (w : world) :
  contents b (entered w) = contents b w.
Proof.
  unfold entered. now destruct b, (_colnew_depth w =? 0).
Qed.

(* ===================================================================== *)
(** ** Status codes of the kernel *)
(* ===================================================================== *)

Lemma _colnew_solve_after_call a w0 ka w1 iflag ispace fspace w2 :
  kernel_arguments a w0 = (inr ka, w1) ->
  colnew ka (log_call ka w1) = (inr (iflag, ispace, fspace), w2) ->
  _colnew_solve a w0 = (after_call a iflag ispace fspace, w2).
Proof.
  intros Hka Hk. unfold _colnew_solve, after_call.
  rewrite (bind_step _ _ _ _ _ Hka).
  rewrite (bind_step _ _ w1 (iflag, ispace, fspace) w2) by exact Hk.
  cbv beta iota. unfold bind, lift, rbind.
  destruct (check_return_value iflag) as [e|[]]; [reflexivity|].
  destruct (Solution.__init__ ispace fspace) as [e|s]; [reflexivity|].
  now destruct (is_complex a).
Qed.

Lemma Solution_init_total (ispace0 : list Z) (fspace0 : list float) :
  (7 <= length ispace0)%nat ->
  exists s, Solution.__init__ ispace0 fspace0 = inr s.
Proof.
  intros Hlen. unfold Solution.__init__, np_getitem.
  destruct (lookup_lt_is_Some_2 ispace0 2) as [x2 H2]; [lia|].
  destruct (lookup_lt_is_Some_2 ispace0 3) as [x3 H3]; [lia|].
  destruct (lookup_lt_is_Some_2 ispace0 0) as [x0 H0]; [lia|].
  destruct (lookup_lt_is_Some_2 ispace0 6) as [x6 H6]; [lia|].
  rewrite H2, H3, H0. simpl. rewrite H6. simpl. eauto.
Qed.


(* ===================================================================== *)
(** ** Workspace sizes *)
(* ===================================================================== *)


Lemma np_empty_inr {A : Type} (junk : nat -> A) (n : Z) l :
  np_empty junk n = inr l -> 0 <= n /\ len l = n.
Proof.
  unfold np_empty. destruct (n <? 0) eqn:H; [discriminate|].
  apply Z.ltb_ge in H. intros [= <-]. split; [exact H|].
  unfold len. rewrite length_map, length_seq. lia.
Qed.

Lemma np_setslice_length {A : Type} (a : list A) lo hi v a' :
  np_setslice a lo hi v = inr a' -> length a' = length a.
Proof.
  unfold np_setslice.
  set (lo' := Nat.min lo (length a)).
  set (hi' := Nat.min hi (length a)).
  destruct (length v =? hi' - lo')%nat eqn:Hk.
  - apply Nat.eqb_eq in Hk. intros [= <-].
    rewrite !length_app, length_take, length_drop. lia.
  - destruct v as [|x [|y v]]; try discriminate. intros [= <-].
    rewrite !length_app, length_take, length_drop, length_replicate. lia.
Qed.

Lemma resolve_initial_guess_lengths ig im coarsen ispace fspace ipar
    ispace1 fspace1 ipar1 g :
  resolve_initial_guess ig im coarsen ispace fspace ipar
    = inr (ispace1, fspace1, ipar1, g) ->
  length ispace1 = length ispace /\ length fspace1 = length fspace /\
  length ipar1 = length ipar.
Proof.
  unfold resolve_initial_guess. intros H.
  destruct ig as [s|cb| |]; try discriminate.
  - destruct im as [|n|m].
    + apply rbind_inr in H. destruct H as (i1 & Hi & H).
      apply rbind_inr in H. destruct H as (f1 & Hf & H).
      apply rbind_inr in H. destruct H as (n0 & Hn & H).
      apply np_setslice_length in Hi, Hf.
      destruct coarsen; injection H as <- <- <- <-;
        rewrite !length_insert; auto.
    + destruct coarsen; [discriminate|]. simpl in H. discriminate.
    + destruct coarsen; [discriminate|]. simpl in H.
      apply rbind_inr in H. destruct H as (i1 & Hi & H).
      apply rbind_inr in H. destruct H as (f1 & Hf & H).
      apply np_setslice_length in Hi, Hf.
      injection H as <- <- <- <-. rewrite !length_insert. auto.
  - injection H as <- <- <- <-. rewrite length_insert. auto.
  - injection H as <- <- <- <-. rewrite length_insert. auto.
Qed.

Lemma resolve_initial_mesh_lengths im adaptive fspace ipar fspace2 ipar2 :
  resolve_initial_mesh im adaptive fspace ipar = inr (fspace2, ipar2) ->
  length fspace2 = length fspace /\ length ipar2 = length ipar.
Proof.
  unfold resolve_initial_mesh. intros H.
  destruct im as [|n|m].
  - destruct adaptive; simpl in H; [|discriminate].
    injection H as <- <-. rewrite length_insert. auto.
  - destruct adaptive; simpl in H; [|discriminate].
    injection H as <- <-. rewrite !length_insert. auto.
  - apply rbind_inr in H. destruct H as (f1 & Hf & H).
    apply np_setslice_length in Hf.
    destruct adaptive; simpl in H; injection H as <- <-;
      rewrite !length_insert; auto.
Qed.

Lemma workspace_size_eq ncomp mstar k M :
  workspace_size ncomp mstar k M =
  (M * (3 + k * ncomp + mstar),
   M * (4 + 3 * mstar + (5 + k * ncomp) * (k * ncomp + mstar)
        + 2 * mstar * 2 * mstar)).
Proof. unfold workspace_size. f_equal; ring. Qed.

Lemma check_degrees_inr degrees ncomp mstar :
  check_degrees degrees = inr (ncomp, mstar) ->
  ncomp = len degrees /\ mstar = py_sum degrees /\
  0 < ncomp <= 256 /\ 0 < mstar <= 512 /\
  Forall (fun d => 1 <= d <= 4) degrees.
Proof.
  unfold check_degrees.
  destruct (existsb _ degrees) eqn:He; [discriminate|].
  destruct ((len degrees <=? 0) || (py_sum degrees <=? 0)) eqn:H0;
    [discriminate|].
  destruct (len degrees >? 256) eqn:H1; [discriminate|].
  destruct (py_sum degrees >? 512) eqn:H2; [discriminate|].
  intros [= <- <-].
  apply orb_false_iff in H0. destruct H0 as [Ha Hb].
  apply Z.leb_gt in Ha, Hb.
  rewrite Z.gtb_ltb in H1, H2. apply Z.ltb_ge in H1, H2.
  repeat split; try lia.
  apply Forall_forall. intros d Hd.
  assert (Hx : (d <=? 0) || (d >? 4) = false).
  { destruct ((d <=? 0) || (d >? 4)) eqn:Hx; [|reflexivity].
    assert (existsb (fun x => (x <=? 0) || (x >? 4)) degrees = true).
    { apply existsb_exists. exists d. split; [|exact Hx].
      now apply list_elem_of_In. }
    congruence. }
  apply orb_false_iff in Hx. destruct Hx as [Hx1 Hx2].
  apply Z.leb_gt in Hx1. rewrite Z.gtb_ltb in Hx2.
  apply Z.ltb_ge in Hx2. lia.
Qed.

Lemma py_max_int_ge (l : list Z) (acc : Z) :
  acc <= fold_left (fun acc y => if y >? acc then y else acc) l acc.
Proof.
  revert acc. induction l as [|y l IH]; intros acc; simpl; [lia|].
  destruct (y >? acc) eqn:Hy.
  - rewrite Z.gtb_ltb in Hy. apply Z.ltb_lt in Hy.
    specialize (IH y). lia.
  - apply IH.
Qed.

Lemma default_collocation_points_inr cp degrees ncomp mstar k :
  check_degrees degrees = inr (ncomp, mstar) ->
  default_collocation_points cp degrees = inr k ->
  0 <= k <= 7 /\ (cp = None -> k = 0).
Proof.
  intros Hd Hk. unfold default_collocation_points in Hk.
  destruct cp as [c|].
  - apply rbind_inr in Hk. destruct Hk as (m & Hmx & Hk).
    destruct ((c <? m) || (c >? 7)) eqn:Hcp; [discriminate|].
    injection Hk as <-.
    apply orb_false_iff in Hcp. destruct Hcp as [Hc1 Hc2].
    apply Z.ltb_ge in Hc1. rewrite Z.gtb_ltb in Hc2.
    apply Z.ltb_ge in Hc2.
    destruct (check_degrees_inr _ _ _ Hd) as (_ & _ & _ & _ & Hall).
    destruct degrees as [|d ds]; [discriminate|].
    simpl in Hmx. injection Hmx as <-.
    pose proof (py_max_int_ge ds d) as Hge.
    inversion Hall; subst. split; [lia | discriminate].
  - injection Hk as <-. split; [lia | reflexivity].
Qed.


(* ===================================================================== *)
(** ** The Solution handle *)
(* ===================================================================== *)

Lemma py_slice_to_nonneg {A : Type} (a : list A) (k : Z) :
  0 <= k -> py_slice_to a k = take (Z.to_nat k) a.
Proof.
  intros Hk. unfold py_slice_to.
  destruct (k <? 0) eqn:H; [apply Z.ltb_lt in H; lia | reflexivity].
Qed.

Lemma lookup_of_take {A : Type} (l l' : list A) (n i : nat) :
  take n l' = take n l -> (i < n)%nat -> l' !! i = l !! i.
Proof.
  intros Ht Hi.
  rewrite <- (lookup_take_lt l' n i Hi), <- (lookup_take_lt l n i Hi).
  now rewrite Ht.
Qed.

(** C4. From a workspace whose header holds [ncomp >= 0] at [ispace[2]],
    a float count [ispace[6]] within the float buffer and a mesh size
    [ispace[0] + 1] within that count, [Solution.__init__] keeps
    [ncomp = ispace[2]], [mstar = ispace[3]], [nmesh = ispace[0] + 1],
    the first [7 + ncomp] integers and the first [ispace[6]] floats; the
    mesh is the first [nmesh] floats of the copy; and any workspace with
    the same two prefixes gives the same Solution. *)
Theorem C4_solution_prefix (ispace0 : list Z) (fspace0 : list float)
    (n0 nc ms nf : Z) :
  ispace0 !! 0%nat = Some n0 ->
  ispace0 !! 2%nat = Some nc ->
  ispace0 !! 3%nat = Some ms ->
  ispace0 !! 6%nat = Some nf ->
  0 <= nc -> 7 + nc <= len ispace0 ->
  nf <= len fspace0 ->
  0 <= n0 + 1 <= nf ->
  exists s,
    Solution.__init__ ispace0 fspace0 = inr s /\
    Solution.ncomp s = nc /\
    Solution.mstar s = ms /\
    Solution.nmesh s = n0 + 1 /\
    Solution.ispace s = take (Z.to_nat (7 + nc)) ispace0 /\
    len (Solution.ispace s) = 7 + nc /\
    Solution.fspace s = take (Z.to_nat nf) fspace0 /\
    len (Solution.fspace s) = nf /\
    Solution.get_mesh s = take (Z.to_nat (Solution.nmesh s))
                               (Solution.fspace s) /\
    len (Solution.get_mesh s) = Solution.nmesh s /\
    (forall ispace' fspace',
       take (Z.to_nat (7 + nc)) ispace' = take (Z.to_nat (7 + nc)) ispace0 ->
       take (Z.to_nat nf) fspace' = take (Z.to_nat nf) fspace0 ->
       Solution.__init__ ispace' fspace' = inr s).
Proof.
  intros H0 H2 H3 H6 Hnc Hli Hlf Hmesh.
  eexists. split.
  { unfold Solution.__init__, np_getitem.
    rewrite H2. simpl. rewrite H3. simpl. rewrite H0. simpl.
    rewrite H6. simpl. reflexivity. }
  simpl. unfold len in *.
  rewrite (py_slice_to_nonneg ispace0 (7 + nc)) by lia.
  rewrite (py_slice_to_nonneg fspace0 nf) by lia.
  unfold Solution.get_mesh. simpl.
  rewrite (py_slice_to_nonneg _ (n0 + 1)) by lia.
  repeat split; try reflexivity.
  - rewrite length_take. lia.
  - rewrite length_take. lia.
  - rewrite !length_take. lia.
  - intros ispace' fspace' Hi Hf.
    unfold Solution.__init__, np_getitem.
    rewrite (lookup_of_take ispace0 ispace' _ 2 Hi) by lia.
    rewrite H2. simpl.
    rewrite (lookup_of_take ispace0 ispace' _ 3 Hi) by lia.
    rewrite H3. simpl.
    rewrite (lookup_of_take ispace0 ispace' _ 0 Hi) by lia.
    rewrite H0. simpl.
    rewrite (lookup_of_take ispace0 ispace' _ 6 Hi) by lia.
    rewrite H6. simpl.
    rewrite (py_slice_to_nonneg ispace' (7 + nc)) by lia.
    rewrite (py_slice_to_nonneg fspace' nf) by lia.
    now rewrite Hi, Hf.
Qed.

(* ===================================================================== *)
(** ** Nested solves *)
(* ===================================================================== *)

Lemma _colnew_exit_outermost (w2 : world) :
  _colnew_depth w2 = 1 -> _colnew_exit w2 = (inr tt, set_depth 0 w2).
Proof.
  intros Hd. unfold _colnew_exit. simpl. rewrite Hd. reflexivity.
Qed.

Lemma _colnew_exit_nested (w2 : world) (stack : list (list block))
    (entry : list block) :
  _colnew_depth w2 <> 1 ->
  _colnew_stack w2 = stack ++ [entry] ->
  same_layout (_colnew_commons w2) entry ->
  _colnew_exit w2 =
  (inr tt,
   set_commons entry (set_stack stack (set_depth (_colnew_depth w2 - 1) w2))).
Proof.
  intros Hd Hs Hl. unfold _colnew_exit. simpl.
  destruct (_colnew_depth w2 - 1 =? 0) eqn:H0;
    [apply Z.eqb_eq in H0; lia|].
  rewrite Hs, pop_snoc. simpl.
  now rewrite (restore_commons_same_layout _ _ Hl).
Qed.

(** C3. A nested [solve] (one entered at depth other than 0) pushes a copy
    of every COMMON block on entry, and the matching exit pops it and
    writes every saved variable back, so that after the solve the blocks,
    the stack and the depth are what they were on entry.  The outermost
    enter pushes nothing and the outermost exit restores nothing.  Exit
    runs after [_colnew_solve] whether that returned or raised, and the
    outcome of [_colnew_solve] is the outcome of [solve]. *)
Theorem C3_reentrancy a w :
  keeps_frames colnew ->
  (_colnew_depth w <> 0 ->
   _colnew_enter w =
     (inr tt,
      set_stack (_colnew_stack w ++ [_colnew_commons w])
                (set_depth (_colnew_depth w + 1) w)) /\
   (forall w2,
      _colnew_depth w2 = _colnew_depth w + 1 ->
      _colnew_stack w2 = _colnew_stack w ++ [_colnew_commons w] ->
      same_layout (_colnew_commons w2) (_colnew_commons w) ->
      _colnew_exit w2 =
        (inr tt,
         set_commons (_colnew_commons w)
           (set_stack (_colnew_stack w)
              (set_depth (_colnew_depth w) w2)))) /\
   _colnew_commons (solve a w).2 = _colnew_commons w) /\
  (_colnew_depth w = 0 ->
   _colnew_enter w = (inr tt, set_depth 1 w) /\
   (forall w2, _colnew_depth w2 = 1 ->
               _colnew_exit w2 = (inr tt, set_depth 0 w2)) /\
   _colnew_commons (solve a w).2 =
     _colnew_commons (_colnew_solve a (entered w)).2) /\
  _colnew_depth (solve a w).2 = _colnew_depth w /\
  _colnew_stack (solve a w).2 = _colnew_stack w /\
  (_colnew_exit (_colnew_solve a (entered w)).2).1 = inr tt /\
  solve a w =
    ((_colnew_solve a (entered w)).1,
     (_colnew_exit (_colnew_solve a (entered w)).2).2).
Proof.
  intros Hk.
  pose proof (_colnew_solve_frame_step a Hk (entered w)) as Hf.
  pose proof (solve_eq_keeps a w Hk) as Hs.
  pose proof (_colnew_exit_eq w _ Hf) as He.
  repeat split.
  - rewrite _colnew_enter_eq. unfold entered.
    destruct (_colnew_depth w =? 0) eqn:H0;
      [apply Z.eqb_eq in H0; contradiction | reflexivity].
  - intros w2 Hd Hst Hl.
    rewrite (_colnew_exit_nested w2 _ _ ltac:(lia) Hst Hl).
    rewrite Hd. do 4 f_equal. lia.
  - rewrite Hs. simpl.
    destruct (_colnew_depth w =? 0) eqn:H0;
      [apply Z.eqb_eq in H0; contradiction | reflexivity].
  - rewrite _colnew_enter_eq. unfold entered. now rewrite H, Z.eqb_refl.
  - apply _colnew_exit_outermost.
  - rewrite Hs. simpl. now rewrite H, Z.eqb_refl.
  - rewrite Hs. reflexivity.
  - rewrite Hs. reflexivity.
  - now rewrite He.
  - rewrite Hs, He. reflexivity.
Qed.

(* ===================================================================== *)
(** ** Active tolerances *)
(* ===================================================================== *)

Lemma increasing_shift (l : list Z) :
  increasing l -> increasing (map (fun i => i + 1) l).
Proof.
  induction l as [|x r IH]; simpl; [auto|].
  destruct r as [|y r]; simpl in *; [auto|].
  intros [Hxy Hr]. split; [lia | apply IH, Hr].
Qed.

Lemma where_positive_lower (t : list float) (i j : Z) :
  j ∈ where_positive i t -> i <= j.
Proof.
  revert i. induction t as [|x t IH]; intros i; simpl.
  - intros H. now apply elem_of_nil in H.
  - destruct (F64.gt x 0).
    + intros H. apply elem_of_cons in H. destruct H as [->|H]; [lia|].
      apply IH in H. lia.
    + intros H. apply IH in H. lia.
Qed.

Lemma where_positive_increasing (t : list float) (i : Z) :
  increasing (where_positive i t).
Proof.
  revert i. induction t as [|x t IH]; intros i; simpl; [exact I|].
  destruct (F64.gt x 0); [|apply IH].
  specialize (IH (i + 1)).
  destruct (where_positive (i + 1) t) as [|y r] eqn:Hw; [exact I|].
  split; [|exact IH].
  assert (Hy : y ∈ where_positive (i + 1) t) by (rewrite Hw; left).
  apply where_positive_lower in Hy. lia.
Qed.

Lemma where_positive_elem (t : list float) (i j : Z) :
  j ∈ where_positive i t <->
  exists x, i <= j /\ t !! Z.to_nat (j - i) = Some x /\ F64.gt x 0 = true.
Proof.
  revert i. induction t as [|x t IH]; intros i; simpl.
  - split.
    + intros H. now apply elem_of_nil in H.
    + intros (y & _ & H & _). discriminate.
  - assert (Hshift : forall j', i + 1 <= j' ->
              (x :: t) !! Z.to_nat (j' - i) = t !! Z.to_nat (j' - (i + 1))).
    { intros j' Hj'. replace (Z.to_nat (j' - i))
        with (S (Z.to_nat (j' - (i + 1)))) by lia. reflexivity. }
    destruct (F64.gt x 0) eqn:Hx.
    + rewrite elem_of_cons, IH. split.
      * intros [->|(y & Hle & Hl & Hy)].
        -- exists x. rewrite Z.sub_diag. auto with zarith.
        -- exists y. rewrite Hshift by lia. repeat split; auto; lia.
      * intros (y & Hle & Hl & Hy).
        destruct (decide (j = i)) as [->|Hne]; [now left|right].
        exists y. rewrite <- Hshift by lia. repeat split; auto; lia.
    + rewrite IH. split.
      * intros (y & Hle & Hl & Hy).
        exists y. rewrite Hshift by lia. repeat split; auto; lia.
      * intros (y & Hle & Hl & Hy).
        destruct (decide (j = i)) as [->|Hne].
        { rewrite Z.sub_diag in Hl. simpl in Hl. congruence. }
        exists y. rewrite <- Hshift by lia. repeat split; auto; lia.
Qed.

Lemma np_take_cons (l : list float) (i : Z) (r : list Z) :
  np_take l (i :: r) =
  match l !! Z.to_nat i with
  | Some y => y :: np_take l r
  | None => np_take l r
  end.
Proof. reflexivity. Qed.

Lemma np_take_Forall2 (t : list float) (idx : list Z) :
  Forall (fun j => is_Some (t !! Z.to_nat j)) idx ->
  Forall2 (fun i x => t !! Z.to_nat (i - 1) = Some x)
          (map (fun i => i + 1) idx) (np_take t idx).
Proof.
  induction 1 as [|j r [x Hx] _ IH]; [constructor|].
  rewrite np_take_cons, Hx. simpl. constructor; [|exact IH].
  now replace (j + 1 - 1) with j by lia.
Qed.

Lemma np_take_where_positive (pre t : list float) :
  np_take (pre ++ t) (where_positive (len pre) t)
  = List.filter (fun x => F64.gt x 0) t.
Proof.
  revert pre. induction t as [|x t IH]; intros pre; simpl; [reflexivity|].
  assert (Hnext : np_take (pre ++ x :: t) (where_positive (len pre + 1) t)
                  = List.filter (fun x => F64.gt x 0) t).
  { replace (pre ++ x :: t) with ((pre ++ [x]) ++ t)
      by now rewrite <- app_assoc.
    replace (len pre + 1) with (len (pre ++ [x])); [apply IH|].
    unfold len. rewrite length_app. simpl. lia. }
  destruct (F64.gt x 0) eqn:Hx; [|exact Hnext].
  rewrite np_take_cons, Hnext.
  replace (Z.to_nat (len pre)) with (length pre) by (unfold len; lia).
  now rewrite list_lookup_middle by reflexivity.
Qed.

Lemma int32_small (x : Z) : - 2 ^ 31 <= x < 2 ^ 31 -> int32 x = x.
Proof.
  intros H. unfold int32.
  rewrite Z.mod_small; lia.
Qed.

Lemma resolve_initial_guess_ipar ig im coarsen ispace fspace ipar
    ispace1 fspace1 ipar1 g (i : nat) :
  resolve_initial_guess ig im coarsen ispace fspace ipar
    = inr (ispace1, fspace1, ipar1, g) ->
  i <> 2%nat -> i <> 8%nat -> ipar1 !! i = ipar !! i.
Proof.
  unfold resolve_initial_guess. intros H H2 H8.
  destruct ig as [s|cb| |]; try discriminate.
  - destruct im as [|n|m].
    + apply rbind_inr in H. destruct H as (i1 & Hi & H).
      apply rbind_inr in H. destruct H as (f1 & Hf & H).
      apply rbind_inr in H. destruct H as (n0 & Hn & H).
      destruct coarsen; injection H as <- <- <- <-;
        rewrite !list_lookup_insert_ne by congruence; reflexivity.
    + destruct coarsen; [discriminate|]. simpl in H. discriminate.
    + destruct coarsen; [discriminate|]. simpl in H.
      apply rbind_inr in H. destruct H as (i1 & Hi & H).
      apply rbind_inr in H. destruct H as (f1 & Hf & H).
      injection H as <- <- <- <-.
      rewrite !list_lookup_insert_ne by congruence. reflexivity.
  - injection H as <- <- <- <-.
    rewrite !list_lookup_insert_ne by congruence. reflexivity.
  - injection H as <- <- <- <-.
    rewrite !list_lookup_insert_ne by congruence. reflexivity.
Qed.

Lemma resolve_initial_mesh_ipar im adaptive fspace ipar fspace2 ipar2
    (i : nat) :
  resolve_initial_mesh im adaptive fspace ipar = inr (fspace2, ipar2) ->
  i <> 2%nat -> i <> 7%nat -> ipar2 !! i = ipar !! i.
Proof.
  unfold resolve_initial_mesh. intros H H2 H7.
  destruct im as [|n|m].
  - destruct adaptive; simpl in H; [|discriminate].
    injection H as <- <-.
    rewrite !list_lookup_insert_ne by congruence. reflexivity.
  - destruct adaptive; simpl in H; [|discriminate].
    injection H as <- <-.
    rewrite !list_lookup_insert_ne by congruence. reflexivity.
  - apply rbind_inr in H. destruct H as (f1 & Hf & H).
    destruct adaptive; simpl in H; injection H as <- <-;
      rewrite !list_lookup_insert_ne by congruence; reflexivity.
Qed.

Lemma filter_length_le {A : Type} (f : A -> bool) (l : list A) :
  (length (List.filter f l) <= length l)%nat.
Proof.
  induction l as [|x l IH]; simpl; [lia|].
  destruct (f x); simpl; lia.
Qed.

(** C6, as the code has it.  For tolerances of length [mstar], the
    tolerances handed to the kernel are exactly the entries greater than
    0, in their order; [ltol] lists their positions counted from 1, in
    increasing order, so that [tol[j]] is the tolerance of unknown
    [ltol[j]]; and [ipar[3]] is their number.  Entries that are 0,
    negative or NaN are dropped. *)
Theorem C6_active_tolerances a w c ncomp mstar :
  handle_complex a = inr c ->
  check_degrees (ComplexAdapter.degrees c) = inr (ncomp, mstar) ->
  let t := default (replicate (Z.to_nat mstar) 0%float)
                   (ComplexAdapter.tolerances c) in
  len t = mstar ->
  exists ltol tol,
    active_tolerances t mstar = inr (ltol, tol) /\
    tol = List.filter (fun x => F64.gt x 0) t /\
    length ltol = length tol /\
    increasing ltol /\
    (forall i, i ∈ ltol <->
               exists x, 1 <= i /\ t !! Z.to_nat (i - 1) = Some x /\
                         F64.gt x 0 = true) /\
    Forall2 (fun i x => t !! Z.to_nat (i - 1) = Some x) ltol tol /\
    (forall ka w1,
       kernel_arguments a w = (inr ka, w1) ->
       k_ltol ka = ltol /\ k_tol ka = tol /\
       k_ipar ka !! 3%nat = Some (len tol)).
Proof.
  intros Hc Hd t Hlen.
  assert (Htake : np_take t (where_positive 0 t)
                  = List.filter (fun x => F64.gt x 0) t)
    by apply (np_take_where_positive [] t).
  assert (Hll : length (where_positive 0 t)
                = length (List.filter (fun x => F64.gt x 0) t)).
  { clear. generalize 0. induction t as [|x t IH]; intros i; simpl;
      [reflexivity|]. destruct (F64.gt x 0); simpl; now rewrite IH. }
  exists (map (fun i => i + 1) (where_positive 0 t)),
         (List.filter (fun x => F64.gt x 0) t).
  assert (Hact : active_tolerances t mstar
                 = inr (map (fun i => i + 1) (where_positive 0 t),
                        List.filter (fun x => F64.gt x 0) t)).
  { unfold active_tolerances. rewrite Hlen, Z.eqb_refl. simpl.
    now rewrite Htake. }
  assert (Hel : forall i, i ∈ map (fun i => i + 1) (where_positive 0 t) <->
               exists x, 1 <= i /\ t !! Z.to_nat (i - 1) = Some x /\
                         F64.gt x 0 = true).
  { intros i. rewrite list_elem_of_fmap. split.
    - intros (j & -> & Hj). apply where_positive_elem in Hj.
      destruct Hj as (x & Hle & Hl & Hx). exists x.
      replace (j + 1 - 1) with (j - 0) by lia. repeat split; auto; lia.
    - intros (x & Hle & Hl & Hx). exists (i - 1). split; [lia|].
      apply where_positive_elem. exists x.
      replace (i - 1 - 0) with (i - 1) by lia. repeat split; auto; lia. }
  repeat split.
  - exact Hact.
  - now rewrite length_map.
  - apply increasing_shift, where_positive_increasing.
  - apply Hel.
  - apply Hel.
  - rewrite <- Htake. apply np_take_Forall2.
    apply Forall_forall. intros j Hj.
    apply where_positive_elem in Hj.
    destruct Hj as (x & _ & Hl & _).
    replace (j - 0) with j in Hl by lia. eauto.
  - apply kernel_arguments_marshalled in H.
    destruct H as [c' ncomp' mstar' k' left_ right_ ispace0 fspace0
      ltol tol ispace1 fspace1 ipar1 guess_func fspace2 ipar2
      bp zeta w1' bp' tols fixpnt sizes Hc' Hd' Hk' Hl Hr Hi Hf Hn' Ho Hg
      Ht Hig Him].
    simpl. rewrite Hc in Hc'. injection Hc' as <-.
    rewrite Hd in Hd'. injection Hd' as <- <-.
    subst tols. fold t in Ht. rewrite Hact in Ht. now injection Ht.
  - apply kernel_arguments_marshalled in H.
    destruct H as [c' ncomp' mstar' k' left_ right_ ispace0 fspace0
      ltol tol ispace1 fspace1 ipar1 guess_func fspace2 ipar2
      bp zeta w1' bp' tols fixpnt sizes Hc' Hd' Hk' Hl Hr Hi Hf Hn' Ho Hg
      Ht Hig Him].
    simpl. rewrite Hc in Hc'. injection Hc' as <-.
    rewrite Hd in Hd'. injection Hd' as <- <-.
    subst tols. fold t in Ht. rewrite Hact in Ht. now injection Ht.
  - apply kernel_arguments_marshalled in H.
    destruct H as [c' ncomp' mstar' k' left_ right_ ispace0 fspace0
      ltol tol ispace1 fspace1 ipar1 guess_func fspace2 ipar2
      bp zeta w1' bp' tols fixpnt sizes Hc' Hd' Hk' Hl Hr Hi Hf Hn' Ho Hg
      Ht Hig Him].
    simpl. rewrite Hc in Hc'. injection Hc' as <-.
    rewrite Hd in Hd'. injection Hd' as <- <-.
    subst tols. fold t in Ht. rewrite Hact in Ht.
    injection Ht as <- <-.
    rewrite (resolve_initial_mesh_ipar _ _ _ _ _ _ 3 Him) by lia.
    rewrite (resolve_initial_guess_ipar _ _ _ _ _ _ _ _ _ _ 3 Hig) by lia.
    unfold make_ipar. simpl. f_equal.
    unfold len. rewrite length_map, Hll.
    apply int32_small.
    pose proof (filter_length_le (fun x => F64.gt x 0) t) as Hle.
    destruct (check_degrees_inr _ _ _ Hd) as (_ & _ & _ & Hm & _).
    unfold len in Hlen. lia.
Qed.

(* ===================================================================== *)
(** ** Verbosity *)
(* ===================================================================== *)








(* ===================================================================== *)
(** ** Sorting boundary points *)
(* ===================================================================== *)

Lemma sort_lt_false_of_le x y : F64.le x y = true -> F64.sort_lt y x = false.
Proof.
  intros H. unfold F64.sort_lt.
  rewrite (F64Facts.le_not_gt _ _ H), (F64Facts.le_not_nan_l _ _ H). reflexivity.
Qed.

(** Sorting an ascending list changes nothing. *)
Lemma np_sort_ascending (l : list float) : ascending l -> np_sort l = l.
Proof.
  unfold np_sort, sort_by.
  induction l as [|x r IH]; simpl; [reflexivity|].
  destruct r as [|y r]; [reflexivity|].
  intros [Hxy Hr]. rewrite (IH Hr). simpl.
  now rewrite (sort_lt_false_of_le _ _ Hxy).
Qed.

Lemma sort_lt_asym x y : F64.sort_lt x y = true -> F64.sort_lt y x = false.
Proof.
  unfold F64.sort_lt. intros H.
  apply orb_true_iff in H. destruct H as [H|H].
  - rewrite (F64Facts.lt_asym _ _ H). simpl.
    assert (Hx : F64.isnan x = false).
    { apply F64Facts.isnan_SF. intros Hn. rewrite F64Facts.lt_SF, Hn in H.
      discriminate. }
    now rewrite Hx.
  - apply andb_true_iff in H. destruct H as [Hy Hx].
    apply negb_true_iff in Hx. rewrite Hx, Hy. simpl.
    rewrite ?andb_false_r, ?orb_false_r.
    rewrite F64Facts.lt_SF.
    assert (Hn : Prim2SF y = S754_nan).
    { destruct (Prim2SF y) eqn:E; try reflexivity;
        assert (F64.isnan y = false)
          by (apply F64Facts.isnan_SF; rewrite E; discriminate); congruence. }
    now rewrite Hn.
Qed.

Lemma insert_by_sorted x l :
  sorted_np l -> sorted_np (insert_by F64.sort_lt x l).
Proof.
  induction l as [|y r IH]; simpl; [auto|].
  intros Hs. destruct (F64.sort_lt y x) eqn:Hyx.
  - destruct r as [|z r]; simpl in *.
    + split; [now apply sort_lt_asym | exact I].
    + destruct Hs as [Hzy Hr]. specialize (IH Hr).
      destruct (F64.sort_lt z x) eqn:Hzx; simpl in *.
      * split; [exact Hzy | exact IH].
      * split; [now apply sort_lt_asym | exact IH].
  - simpl. split; [exact Hyx | exact Hs].
Qed.

Lemma np_sort_sorted l : sorted_np (np_sort l).
Proof.
  unfold np_sort, sort_by. induction l as [|x r IH]; simpl; [exact I|].
  now apply insert_by_sorted.
Qed.

Lemma insert_by_length ltb x l :
  length (insert_by ltb x l) = S (length l).
Proof.
  induction l as [|y r IH]; simpl; [reflexivity|].
  destruct (ltb y x); simpl; now rewrite ?IH.
Qed.

Lemma np_sort_length l : length (np_sort l) = length l.
Proof.
  unfold np_sort, sort_by. induction l as [|x r IH]; simpl; [reflexivity|].
  now rewrite insert_by_length, IH.
Qed.

(** If the sorted copy equals the sequence entry by entry, the sequence
    was ascending. *)
Lemma eq_sorted_ascending (s l : list float) :
  length s = length l ->
  forallb id (zip_with F64.eq s l) = true ->
  sorted_np s -> ascending l.
Proof.
  revert l. induction s as [|a s IH]; intros [|x l] Hlen Heq Hs;
    simpl in *; try discriminate; [exact I|].
  apply andb_true_iff in Heq. destruct Heq as [Hax Heq]. unfold id in Hax.
  destruct l as [|y l]; [exact I|].
  destruct s as [|b s]; [discriminate|].
  destruct Hs as [Hba Hs].
  split.
  - simpl in Heq. apply andb_true_iff in Heq. destruct Heq as [Hby _].
    unfold id in Hby.
    apply (F64Facts.le_eq_compat a x b y Hax Hby).
    apply F64Facts.not_gt_le.
    + exact (F64Facts.eq_not_nan_l _ _ Hax).
    + exact (F64Facts.eq_not_nan_l _ _ Hby).
    + unfold F64.sort_lt in Hba. apply orb_false_iff in Hba. tauto.
  - apply (IH (y :: l)); [simpl in *; lia | exact Heq | exact Hs].
Qed.

Lemma forallb_eq_refl (l : list float) :
  Forall (fun x => F64.isnan x = false) l ->
  forallb id (zip_with F64.eq l l) = true.
Proof.
  induction 1 as [|x l Hx _ IH]; simpl; [reflexivity|].
  rewrite IH, andb_true_r. unfold id, F64.eq.
  unfold F64.isnan in Hx. now apply negb_false_iff in Hx.
Qed.

(* ===================================================================== *)
(** ** Which exceptions the marshalling raises *)
(* ===================================================================== *)

Lemma check_degrees_inl degrees e :
  check_degrees degrees = inl e -> is_ValueError e = true.
Proof.
  unfold check_degrees.
  repeat match goal with
         | |- context [if ?b then _ else _] => destruct b
         end; intros [= <-]; reflexivity.
Qed.

Lemma py_max_int_inl l e : py_max_int l = inl e -> is_ValueError e = true.
Proof. destruct l; simpl; intros [= <-]; reflexivity. Qed.

Lemma default_collocation_points_inl cp degrees e :
  default_collocation_points cp degrees = inl e -> is_ValueError e = true.
Proof.
  unfold default_collocation_points. destruct cp as [c|]; [|discriminate].
  destruct (py_max_int degrees) as [e'|m] eqn:Hm; simpl.
  - intros [= <-]. now apply py_max_int_inl in Hm.
  - destruct ((c <? m) || (c >? 7)); intros [= <-]. reflexivity.
Qed.

Lemma py_min_inl l e : py_min l = inl e -> is_ValueError e = true.
Proof. destruct l; simpl; intros [= <-]; reflexivity. Qed.

Lemma py_max_inl l e : py_max l = inl e -> is_ValueError e = true.
Proof. destruct l; simpl; intros [= <-]; reflexivity. Qed.

Lemma np_empty_inl {A : Type} (junk : nat -> A) n e :
  np_empty junk n = inl e -> is_ValueError e = true.
Proof.
  unfold np_empty. destruct (n <? 0); intros [= <-]. reflexivity.
Qed.

Lemma active_tolerances_inl t mstar e :
  active_tolerances t mstar = inl e -> is_ValueError e = true.
Proof.
  unfold active_tolerances. destruct (negb _); intros [= <-]. reflexivity.
Qed.

Lemma np_setslice_inl {A : Type} (a : list A) lo hi v e :
  np_setslice a lo hi v = inl e -> is_ValueError e = true.
Proof.
  unfold np_setslice. destruct (_ =? _)%nat; [discriminate|].
  destruct v as [|x [|y v]]; intros [= <-]; reflexivity.
Qed.

Lemma raise_if_inl b e0 w e w1 :
  raise_if b e0 w = (inl e, w1) -> e = e0 /\ b = true /\ w1 = w.
Proof.
  unfold raise_if. destruct b; simpl; intros [= <- <-]; auto.
Qed.

Lemma resolve_initial_guess_inl a ispace fspace ipar e :
  resolve_initial_guess (initial_guess a) (initial_mesh a)
    (coarsen_initial_guess_mesh a) ispace fspace ipar = inl e ->
  is_ValueError e = true \/ guess_crash a e.
Proof.
  unfold resolve_initial_guess, guess_crash.
  destruct (initial_guess a) as [s|cb| |] eqn:Hig; try discriminate.
  - destruct (initial_mesh a) as [|n|m] eqn:Him.
    + destruct (np_setslice ispace _ _ _) as [e1|i1] eqn:H1; simpl.
      { intros [= <-]. left. now apply np_setslice_inl in H1. }
      destruct (np_setslice fspace _ _ _) as [e1|f1] eqn:H2; simpl.
      { intros [= <-]. left. now apply np_setslice_inl in H2. }
      unfold np_getitem. destruct (i1 !! 0%nat); simpl.
      { destruct (coarsen_initial_guess_mesh a); discriminate. }
      intros [= <-]. right. exists s. split; [reflexivity|]. now right.
    + destruct (coarsen_initial_guess_mesh a) eqn:Hco.
      { intros [= <-]. now left. }
      simpl. intros [= <-]. right. exists s. split; [reflexivity|].
      left. exists n. auto.
    + destruct (coarsen_initial_guess_mesh a) eqn:Hco.
      { intros [= <-]. now left. }
      simpl.
      destruct (np_setslice ispace _ _ _) as [e1|i1] eqn:H1; simpl.
      { intros [= <-]. left. now apply np_setslice_inl in H1. }
      destruct (np_setslice fspace _ _ _) as [e1|f1] eqn:H2; simpl.
      { intros [= <-]. left. now apply np_setslice_inl in H2. }
      discriminate.
  - intros [= <-]. now left.
Qed.

Lemma resolve_initial_mesh_inl im adaptive fspace ipar e :
  resolve_initial_mesh im adaptive fspace ipar = inl e ->
  is_ValueError e = true.
Proof.
  unfold resolve_initial_mesh.
  destruct im as [|n|m]; simpl.
  - destruct adaptive; simpl; intros [= <-]. reflexivity.
  - destruct adaptive; simpl; intros [= <-]. reflexivity.
  - destruct (np_setslice fspace _ _ _) as [e1|f1] eqn:H1; simpl.
    + intros [= <-]. now apply np_setslice_inl in H1.
    + destruct adaptive; discriminate.
Qed.

Lemma marshalled_boundary_ok a w ka w1 c :
  handle_complex a = inr c -> marshalled a w ka w1 -> boundary_ok a c w.
Proof.
  intros Hc H.
  destruct H as [c' ncomp' mstar' k' left_ right_ ispace0 fspace0
    ltol tol ispace1 fspace1 ipar1 guess_func fspace2 ipar2
    bp zeta w1' bp' tols fixpnt sizes Hc' Hd' Hk' Hl Hr Hi Hf Hn' Ho Hg
    Ht Hig Him].
  rewrite Hc in Hc'. injection Hc' as <-.
  destruct (check_degrees_inr _ _ _ Hd') as (_ & Hm & _).
  unfold boundary_ok. repeat split.
  - subst bp. congruence.
  - exact Ho.
  - exists left_, right_. auto.
Qed.

(** Every exception raised before the kernel call is a ValueError, except
    for the two crashes of the "Initial guess" block, which come after the
    boundary points were accepted. *)
Lemma kernel_arguments_inl a w e w1 c :
  handle_complex a = inr c ->
  kernel_arguments a w = (inl e, w1) ->
  is_ValueError e = true \/ (guess_crash a e /\ boundary_ok a c w).
Proof.
  intros Hc H. unfold kernel_arguments in H.
  rewrite (bind_step _ _ w c w) in H by (unfold lift; now rewrite Hc).
  apply bind_inl in H. destruct H as [H|([ncomp mstar] & w' & Hd & H)].
  { injection H as H _. left. now apply check_degrees_inl in H. }
  unfold lift in Hd. injection Hd as Hd <-.
  apply bind_inl in H. destruct H as [H|(k & w' & Hk & H)].
  { injection H as H _. left. now apply default_collocation_points_inl in H. }
  unfold lift in Hk. injection Hk as Hk <-.
  apply bind_inl in H. destruct H as [H|(bp & w' & Hbp & H)];
    [discriminate|].
  unfold read in Hbp. injection Hbp as <- <-.
  apply bind_inl in H. destruct H as [H|(left_ & w' & Hl & H)].
  { injection H as H _. left. destruct (left a); [discriminate|].
    now apply py_min_inl in H. }
  unfold lift in Hl. injection Hl as Hl <-.
  apply bind_inl in H. destruct H as [H|(right_ & w' & Hr & H)].
  { injection H as H _. left. destruct (right a); [discriminate|].
    now apply py_max_inl in H. }
  unfold lift in Hr. injection Hr as Hr <-.
  destruct (workspace_size ncomp mstar k (maximum_mesh_size a))
    as [nispace nfspace].
  apply bind_inl in H. destruct H as [H|(ispace0 & w' & Hi & H)].
  { injection H as H _. left. now apply np_empty_inl in H. }
  unfold alloc_int in Hi. injection Hi as Hi <-.
  apply bind_inl in H. destruct H as [H|(fspace0 & w' & Hf & H)].
  { injection H as H _. left. now apply np_empty_inl in H. }
  unfold alloc_float in Hf. injection Hf as Hf <-.
  apply bind_inl in H. destruct H as [H|(u1 & w' & Hn & H)].
  { apply raise_if_inl in H. destruct H as (-> & _). now left. }
  apply raise_if_inr in Hn. destruct Hn as [Hn ->].
  apply bind_inl in H. destruct H as [H|(zeta & w' & Hz & H)].
  { rewrite asarray_sort_eq in H. discriminate. }
  rewrite asarray_sort_eq in Hz. injection Hz as <- <-.
  apply bind_inl in H. destruct H as [H|(bp' & w' & Hbp' & H)];
    [discriminate|].
  unfold read in Hbp'. injection Hbp' as <- <-.
  apply bind_inl in H. destruct H as [H|(u2 & w' & Ho & H)].
  { apply raise_if_inl in H. destruct H as (-> & _). now left. }
  apply raise_if_inr in Ho. destruct Ho as [Ho ->].
  apply bind_inl in H. destruct H as [H|(u3 & w' & Hg & H)].
  { apply raise_if_inl in H. destruct H as (-> & _). now left. }
  apply raise_if_inr in Hg. destruct Hg as [Hg ->].
  apply bind_inl in H. destruct H as [H|([ltol tol] & w' & Ht & H)].
  { injection H as H _. left. now apply active_tolerances_inl in H. }
  unfold lift in Ht. injection Ht as Ht <-.
  apply negb_false_iff in Hn, Ho, Hg. apply Z.eqb_eq in Hn.
  destruct (check_degrees_inr _ _ _ Hd) as (_ & Hm & _).
  assert (Hok : boundary_ok a c w).
  { unfold boundary_ok. repeat split; [congruence | exact Ho |].
    exists left_, right_. auto. }
  apply bind_inl in H.
  destruct H as [H|([[[ispace1 fspace1] ipar1] g] & w' & Hig & H)].
  { injection H as H _. apply resolve_initial_guess_inl in H.
    destruct H as [H|H]; [now left | right; auto]. }
  unfold lift in Hig. injection Hig as Hig <-.
  apply bind_inl in H. destruct H as [H|([fspace2 ipar2] & w' & Him & H)].
  { injection H as H _. left. now apply resolve_initial_mesh_inl in H. }
  discriminate.
Qed.

(* ===================================================================== *)
(** ** Calls that are rejected before the kernel runs *)
(* ===================================================================== *)

Lemma is_ValueError_inv e :
  is_ValueError e = true -> exists msg, e = ValueError msg.
Proof. destruct e; try discriminate. eauto. Qed.

(** A call that cannot be marshalled raises before the kernel call: a
    ValueError, or one of the crashes of the "Initial guess" block. *)
Lemma solve_rejects_or_crashes a w c :
  handle_complex a = inr c ->
  (forall ka w1, ~ marshalled a (entered w) ka w1) ->
  exists e w',
    solve a w = (inl e, w') /\ kernel_calls w' = kernel_calls w /\
    (is_ValueError e = true \/
     (guess_crash a e /\ boundary_ok a c (entered w))).
Proof.
  intros Hc Hno.
  destruct (kernel_arguments a (entered w)) as [[e|ka] w1] eqn:Hka.
  - destruct (solve_raises_before_call a w e w1 Hka) as [Hs Hcalls].
    exists e, (exited w w1). repeat split; auto.
    exact (kernel_arguments_inl a _ e w1 c Hc Hka).
  - apply kernel_arguments_marshalled in Hka. now apply Hno in Hka.
Qed.

Lemma solve_rejects a w c :
  handle_complex a = inr c ->
  (forall ka w1, ~ marshalled a (entered w) ka w1) ->
  (forall e, guess_crash a e -> boundary_ok a c (entered w) -> False) ->
  exists msg w',
    solve a w = (inl (ValueError msg), w') /\
    kernel_calls w' = kernel_calls w.
Proof.
  intros Hc Hno Hcrash.
  destruct (solve_rejects_or_crashes a w c Hc Hno)
    as (e & w' & Hs & Hcalls & [He|[Hg Hb]]).
  - apply is_ValueError_inv in He. destruct He as [msg ->]. eauto.
  - destruct (Hcrash e Hg Hb).
Qed.

Lemma boundary_ok_list a c w l :
  ComplexAdapter.boundary_points c = PyList l ->
  boundary_ok a c w ->
  len l = py_sum (ComplexAdapter.degrees c) /\
  ascending l /\ np_sort l = l /\
  exists left_ right_,
    match left a with None => py_min l | Some x => inr x end = inr left_ /\
    match right a with None => py_max l | Some x => inr x end
      = inr right_ /\
    Forall (fun z => F64.ge z left_ && F64.le z right_ = true) l.
Proof.
  intros Hl. unfold boundary_ok. rewrite Hl. simpl.
  intros (Hlen & Heq & left_ & right_ & Hle & Hri & Hrange).
  assert (Hasc : ascending l).
  { apply (eq_sorted_ascending (np_sort l) l);
      [apply np_sort_length | exact Heq | apply np_sort_sorted]. }
  pose proof (np_sort_ascending l Hasc) as Hsort.
  repeat split; auto.
  exists left_, right_. repeat split; auto.
  rewrite Hsort in Hrange. apply Forall_forall. intros z Hz.
  rewrite forallb_forall in Hrange. apply Hrange.
  now apply list_elem_of_In.
Qed.

(** A Python list of boundary points is checked as documented: a wrong
    length, a list that is not ascending, or a point outside
    [[left, right]] makes [solve] raise a ValueError before the kernel is
    called; a list that is accepted reaches the kernel unchanged. *)
Lemma boundary_points_list_validated a w c l :
  handle_complex a = inr c ->
  ComplexAdapter.boundary_points c = PyList l ->
  ((len l <> py_sum (ComplexAdapter.degrees c) \/
    ~ ascending l \/
    (exists left_ right_ z,
       match left a with None => py_min l | Some x => inr x end
         = inr left_ /\
       match right a with None => py_max l | Some x => inr x end
         = inr right_ /\
       z ∈ l /\ F64.ge z left_ && F64.le z right_ = false)) ->
   exists msg w',
     solve a w = (inl (ValueError msg), w') /\
     kernel_calls w' = kernel_calls w) /\
  (forall ka w1,
     kernel_arguments a w = (inr ka, w1) ->
     k_zeta ka = l /\ w1 = w /\ ascending l /\
     Forall (fun z => F64.ge z (k_left ka) && F64.le z (k_right ka) = true)
            l).
Proof.
  intros Hc Hl. split.
  - intros Hbad.
    assert (Hnot : boundary_ok a c (entered w) -> False).
    { intros Hok. apply (boundary_ok_list a c _ l Hl) in Hok.
      destruct Hok as (Hlen & Hasc & _ & left_ & right_ & Hle & Hri & Hall).
      destruct Hbad as [Hbad|[Hbad|(l' & r' & z & Hl' & Hr' & Hz & Hout)]];
        [contradiction | contradiction |].
      rewrite Hle in Hl'. injection Hl' as <-.
      rewrite Hri in Hr'. injection Hr' as <-.
      rewrite Forall_forall in Hall. specialize (Hall z Hz). congruence. }
    apply (solve_rejects a w c Hc).
    + intros ka w1 Hm. apply Hnot.
      exact (marshalled_boundary_ok a _ ka w1 c Hc Hm).
    + intros e _ Hok. exact (Hnot Hok).
  - intros ka w1 Hka. apply kernel_arguments_marshalled in Hka.
    pose proof (marshalled_boundary_ok a w ka w1 c Hc Hka) as Hok.
    apply (boundary_ok_list a c _ l Hl) in Hok.
    destruct Hok as (Hlen & Hasc & Hsort & left_ & right_ & Hle & Hri & Hall).
    destruct Hka as [c' ncomp' mstar' k' left' right' ispace0 fspace0
      ltol tol ispace1 fspace1 ipar1 guess_func fspace2 ipar2
      bp zeta w1' bp' tols fixpnt sizes Hc' Hd' Hk' Hl' Hr' Hi Hf Hn' Ho Hg
      Ht Hig Him].
    rewrite Hc in Hc'. injection Hc' as <-.
    subst zeta bp w1'. rewrite Hl in *. simpl in *.
    rewrite Hle in Hl'. injection Hl' as <-.
    rewrite Hri in Hr'. injection Hr' as <-.
    auto.
Qed.

(* ===================================================================== *)
(** ** Initial mesh and continuation *)
(* ===================================================================== *)

Lemma make_ipar_length lin k ltol fspace ispace v reg fixpnt :
  length (make_ipar lin k ltol fspace ispace v reg fixpnt) = 11%nat.
Proof. reflexivity. Qed.

Lemma marshalled_ipar_length a w ka w1 :
  marshalled a w ka w1 -> length (k_ipar ka) = 11%nat.
Proof.
  intros H.
  destruct H as [c' ncomp' mstar' k' left_ right_ ispace0 fspace0
    ltol tol ispace1 fspace1 ipar1 guess_func fspace2 ipar2
    bp zeta w1' bp' tols fixpnt sizes Hc' Hd' Hk' Hl Hr Hi Hf Hn' Ho Hg
    Ht Hig Him].
  simpl.
  apply resolve_initial_mesh_lengths in Him. destruct Him as [_ ->].
  apply resolve_initial_guess_lengths in Hig. destruct Hig as (_ & _ & ->).
  apply make_ipar_length.
Qed.

(** Without adaptive mesh selection and without mesh points, the "Initial
    mesh" block always raises. *)
Lemma resolve_initial_mesh_nonadaptive im fspace ipar :
  im = MeshNone \/ (exists n, im = MeshCount n) ->
  resolve_initial_mesh im false fspace ipar =
  inl (ValueError "Cannot disable mesh selection when no initial_mesh given").
Proof. intros [->|[n ->]]; reflexivity. Qed.

(** A non-adaptive call without mesh points never reaches the kernel: it
    raises a ValueError, or crashes in the "Initial guess" block. *)
Lemma nonadaptive_without_mesh a w c :
  handle_complex a = inr c ->
  adaptive_mesh_selection a = false ->
  initial_mesh a = MeshNone \/ (exists n, initial_mesh a = MeshCount n) ->
  exists e w',
    solve a w = (inl e, w') /\ kernel_calls w' = kernel_calls w /\
    (is_ValueError e = true \/ guess_crash a e).
Proof.
  intros Hc Had Him.
  destruct (solve_rejects_or_crashes a w c Hc) as (e & w' & Hs & Hk & He).
  - intros ka w1 Hm.
    destruct Hm as [c' ncomp' mstar' k' left_ right_ ispace0 fspace0
      ltol tol ispace1 fspace1 ipar1 guess_func fspace2 ipar2
      bp zeta w1' bp' tols fixpnt sizes Hc' Hd' Hk' Hl Hr Hi Hf Hn' Ho Hg
      Ht Hig Him'].
    rewrite Had in Him'.
    rewrite (resolve_initial_mesh_nonadaptive _ _ _ Him) in Him'.
    discriminate.
  - exists e, w'. repeat split; auto. tauto.
Qed.

(** With mesh points, a non-adaptive call that reaches the kernel carries
    the fixed-mesh flag [ipar[7] = 2] and [len(initial_mesh) - 1]
    subintervals. *)
Lemma nonadaptive_fixed_mesh a w ka w1 m :
  adaptive_mesh_selection a = false ->
  initial_mesh a = MeshPoints m ->
  kernel_arguments a w = (inr ka, w1) ->
  k_ipar ka !! 7%nat = Some 2 /\
  k_ipar ka !! 2%nat = Some (int32 (len m - 1)) /\
  ((length m <= length (k_fspace ka))%nat ->
   take (length m) (k_fspace ka) = m).
Proof.
  intros Had Him Hka. apply kernel_arguments_marshalled in Hka.
  destruct Hka as [c' ncomp' mstar' k' left_ right_ ispace0 fspace0
    ltol tol ispace1 fspace1 ipar1 guess_func fspace2 ipar2
    bp zeta w1' bp' tols fixpnt sizes Hc' Hd' Hk' Hl Hr Hi Hf Hn' Ho Hg
    Ht Hig Him'].
  simpl.
  assert (Hlen : length ipar1 = 11%nat).
  { apply resolve_initial_guess_lengths in Hig.
    destruct Hig as (_ & _ & ->). apply make_ipar_length. }
  rewrite Had, Him in Him'. unfold resolve_initial_mesh in Him'.
  apply rbind_inr in Him'. destruct Him' as (f1 & Hf1 & Him').
  simpl in Him'. injection Him' as <- <-.
  repeat split.
  - rewrite list_lookup_insert_eq; [reflexivity|].
    rewrite length_insert. lia.
  - rewrite list_lookup_insert_ne by lia.
    rewrite list_lookup_insert_eq; [reflexivity | lia].
  - intros Hfit. pose proof (np_setslice_length _ _ _ _ _ Hf1) as Hl1.
    unfold np_setslice in Hf1. simpl in Hf1.
    rewrite Nat.sub_0_r in Hf1.
    rewrite (Nat.min_l (length m)), Nat.eqb_refl in Hf1 by lia.
    injection Hf1 as <-. now rewrite take_app_length.
Qed.



(** A float64 ndarray of boundary points passes the ordering check as
    soon as it holds no NaN: [zeta] is the array itself, sorted in place,
    so [zeta == boundary_points] compares the sorted array with itself. *)
Lemma insert_by_Forall (P : float -> Prop) ltb x l :
  P x -> Forall P l -> Forall P (insert_by ltb x l).
Proof.
  intros Hx. induction 1 as [|y r Hy Hr IH]; simpl.
  - constructor; [exact Hx | constructor].
  - destruct (ltb y x); constructor; auto.
Qed.

Lemma np_sort_Forall (P : float -> Prop) l :
  Forall P l -> Forall P (np_sort l).
Proof.
  unfold np_sort, sort_by. induction 1 as [|x r Hx Hr IH]; simpl.
  - constructor.
  - now apply insert_by_Forall.
Qed.

Lemma ndarray_ordering_unchecked (r : positive) (w : world) :
  let b := NdArray r in
  Forall (fun x => F64.isnan x = false) (contents b w) ->
  forallb id (zip_with F64.eq (np_sort (contents b w))
                       (contents b (sorted_world b w))) = true.
Proof.
  intros b Hn. rewrite contents_sorted_world. simpl.
  apply forallb_eq_refl. now apply np_sort_Forall.
Qed.

(** [solve] itself keeps the frames, so a kernel whose callbacks run
    nested solves keeps them too. *)
Lemma solve_frame_step a :
  keeps_frames colnew -> preserves frame_step (solve a).
Proof.
  intros Hk w. rewrite (solve_eq_keeps a w Hk). simpl.
  pose proof (_colnew_solve_frame_step a Hk (entered w)) as (_ & _ & Hl).
  repeat split. simpl.
  destruct (_colnew_depth w =? 0) eqn:H0; [|apply same_layout_refl].
  replace (_colnew_commons (entered w)) with (_colnew_commons w) in Hl;
    [exact Hl|].
  unfold entered. now rewrite H0.
Qed.

(* ===================================================================== *)
(** ** Sorting and distinct values *)
(* ===================================================================== *)

Lemma elem_of_insert_by ltb x l (y : float) :
  y ∈ insert_by ltb x l <-> y = x \/ y ∈ l.
Proof.
  induction l as [|z l IH]; simpl.
  - rewrite list_elem_of_singleton. rewrite elem_of_nil. tauto.
  - destruct (ltb z x).
    + rewrite !elem_of_cons, IH. tauto.
    + rewrite !elem_of_cons. tauto.
Qed.

Lemma elem_of_sort_by ltb l (y : float) : y ∈ sort_by ltb l <-> y ∈ l.
Proof.
  unfold sort_by. induction l as [|x l IH]; simpl; [tauto|].
  rewrite elem_of_insert_by, elem_of_cons, IH. tauto.
Qed.

Lemma sort_by_length ltb l : length (sort_by ltb l) = length l.
Proof.
  unfold sort_by. induction l as [|x l IH]; simpl; [reflexivity|].
  now rewrite insert_by_length, IH.
Qed.

Lemma sort_by_Forall (P : float -> Prop) ltb l :
  Forall P l -> Forall P (sort_by ltb l).
Proof.
  rewrite !Forall_forall. intros H y Hy. apply H. now apply elem_of_sort_by in Hy.
Qed.

Lemma keep_changes_subset prev l (y : float) :
  y ∈ keep_changes prev l -> y ∈ l.
Proof.
  revert prev. induction l as [|z l IH]; intros prev; simpl; [tauto|].
  destruct (F64.eq z prev).
  - intros H. right. eauto.
  - rewrite !elem_of_cons. intros [->|H]; eauto.
Qed.

Lemma keep_changes_length prev l :
  (length (keep_changes prev l) <= length l)%nat.
Proof.
  revert prev. induction l as [|z l IH]; intros prev; simpl; [lia|].
  destruct (F64.eq z prev); simpl; specialize (IH z); lia.
Qed.

Lemma strictly_ascending_head x x' t :
  F64.eq x x' = true ->
  strictly_ascending (x :: t) -> strictly_ascending (x' :: t).
Proof.
  intros E. destruct t as [|y t]; simpl; [tauto|].
  intros [H1 H2]. split; [|exact H2].
  now rewrite <- (F64Order.lt_eq_compat_l x x' y E).
Qed.

Lemma keep_changes_strict prev l :
  no_nan (prev :: l) -> sorted_np (prev :: l) ->
  strictly_ascending (prev :: keep_changes prev l).
Proof.
  revert prev. induction l as [|y l IH]; intros prev Hn Hs; [exact I|].
  inversion Hn as [|? ? Hp Hn']; subst.
  inversion Hn' as [|? ? Hy Hn'']; subst.
  destruct Hs as [Hs1 Hs2].
  specialize (IH y Hn' Hs2).
  cbn [keep_changes].
  destruct (F64.eq y prev) eqn:E.
  - now apply (strictly_ascending_head y prev).
  - change (F64.lt prev y = true /\ strictly_ascending (y :: keep_changes y l)).
    split; [|exact IH].
    apply F64Order.le_neq_lt.
    + apply F64Facts.not_gt_le; auto.
      unfold F64.sort_lt in Hs1. now apply orb_false_elim in Hs1.
    + destruct (F64.eq prev y) eqn:E'; [|reflexivity].
      apply F64Order.eq_sym in E'. congruence.
Qed.

Lemma keep_changes_covers prev l x :
  no_nan (prev :: l) -> x ∈ prev :: l ->
  exists y, y ∈ prev :: keep_changes prev l /\ F64.eq y x = true.
Proof.
  revert prev. induction l as [|z l IH]; intros prev Hn Hx.
  - apply list_elem_of_singleton in Hx. subst x. exists prev. split; [left|].
    inversion Hn; subst. now apply F64Order.eq_refl.
  - inversion Hn as [|? ? Hp Hn']; subst.
    apply elem_of_cons in Hx. destruct Hx as [->|Hx].
    + exists prev. split; [left|]. now apply F64Order.eq_refl.
    + destruct (IH z Hn' Hx) as (y & Hy & Hyx).
      cbn [keep_changes]. destruct (F64.eq z prev) eqn:E.
      * apply elem_of_cons in Hy. destruct Hy as [->|Hy].
        -- exists prev. split; [left|].
           apply (F64Order.eq_trans prev z x); auto.
           now apply F64Order.eq_sym.
        -- exists y. split; [now right | exact Hyx].
      * exists y. split; [now right | exact Hyx].
Qed.

Lemma np_unique_subset l (y : float) : y ∈ np_unique l -> y ∈ l.
Proof.
  unfold np_unique. destruct (np_sort l) as [|x r] eqn:E; [now rewrite elem_of_nil|].
  intros H. apply (elem_of_sort_by F64.sort_lt). fold (np_sort l). rewrite E.
  apply elem_of_cons in H. destruct H as [->|H]; [left|right].
  now apply keep_changes_subset in H.
Qed.

Lemma np_unique_strict l : no_nan l -> strictly_ascending (np_unique l).
Proof.
  intros Hn. unfold np_unique.
  pose proof (np_sort_sorted l) as Hs.
  pose proof (np_sort_Forall _ l Hn) as Hn'.
  destruct (np_sort l) as [|x r]; [exact I|].
  now apply keep_changes_strict.
Qed.

Lemma np_unique_covers l x :
  no_nan l -> x ∈ l ->
  exists y, y ∈ np_unique l /\ F64.eq y x = true.
Proof.
  intros Hn Hx. unfold np_unique.
  pose proof (np_sort_Forall _ l Hn) as Hn'.
  apply (elem_of_sort_by F64.sort_lt) in Hx. fold (np_sort l) in Hx.
  destruct (np_sort l) as [|z r]; [now apply elem_of_nil in Hx|].
  now apply keep_changes_covers.
Qed.

Lemma np_unique_length l : (length (np_unique l) <= length l)%nat.
Proof.
  unfold np_unique. pose proof (np_sort_length l) as H.
  destruct (np_sort l) as [|x r]; simpl in *; [lia|].
  pose proof (keep_changes_length x r). lia.
Qed.

Lemma strictly_ascending_no_nan l :
  strictly_ascending l -> (2 <= length l)%nat -> no_nan l.
Proof.
  induction l as [|x [|y l] IH]; simpl; try lia.
  intros [H1 H2] _. constructor; [now apply F64Order.lt_not_nan_l in H1|].
  destruct l as [|z l].
  - constructor; [|constructor]. now apply F64Order.lt_not_nan_r in H1.
  - apply IH; [exact H2 | simpl; lia].
Qed.

(** In a strictly increasing list an earlier entry is below a later one. *)
Lemma strictly_ascending_lookup l (i j : nat) (x y : float) :
  strictly_ascending l -> (i < j)%nat ->
  l !! i = Some x -> l !! j = Some y -> F64.lt x y = true.
Proof.
  revert i j x y. induction l as [|a l IH]; intros i j x y Hs Hij Hi Hj;
    [discriminate|].
  destruct j as [|j]; [lia|]. simpl in Hj.
  destruct l as [|b l]; [discriminate|].
  destruct Hs as [Hab Hs].
  destruct i as [|i].
  - injection Hi as ->. destruct j as [|j].
    + injection Hj as ->. exact Hab.
    + apply (F64Order.lt_trans x b y Hab).
      apply (IH 0%nat (S j) b y Hs); [lia|reflexivity|exact Hj].
  - simpl in Hi. apply (IH i j x y Hs); [lia|exact Hi|exact Hj].
Qed.

(* ===================================================================== *)
(** ** Fixed points of the mesh *)
(* ===================================================================== *)

Lemma filter_elem_of (f : float -> bool) (l : list float) (x : float) :
  x ∈ List.filter f l <-> x ∈ l /\ f x = true.
Proof. rewrite !list_elem_of_In. apply filter_In. Qed.

Lemma fixed_points_bound (bp extra : list float) (left_ right_ : float) :
  (length (fixed_points bp extra left_ right_)
   <= length bp + length extra)%nat.
Proof.
  unfold fixed_points.
  set (inside := fun x => F64.gt x left_ && F64.lt x right_).
  pose proof (np_unique_length
                (List.filter inside (py_sort (bp ++ extra)))) as H1.
  pose proof (filter_length_le inside (py_sort (bp ++ extra))) as H2.
  unfold py_sort in *. rewrite sort_by_length, length_app in H2. lia.
Qed.

(** X3. The fixed points computed from the boundary points and the extra
    fixed points are strictly increasing, lie strictly between [left] and
    [right], are all taken from the two lists, and every point of the two
    lists that lies strictly inside is represented (up to float
    equality). *)
Theorem fixed_points_strictly_inside (bp extra : list float)
    (left_ right_ : float) :
  let fp := fixed_points bp extra left_ right_ in
  strictly_ascending fp /\
  (forall y, y ∈ fp ->
     y ∈ bp ++ extra /\ F64.gt y left_ = true /\ F64.lt y right_ = true) /\
  (forall x, x ∈ bp ++ extra ->
     F64.gt x left_ = true -> F64.lt x right_ = true ->
     exists y, y ∈ fp /\ F64.eq y x = true) /\
  (length fp <= length bp + length extra)%nat.
Proof.
  unfold fixed_points.
  set (inside := fun x => F64.gt x left_ && F64.lt x right_).
  set (cand := List.filter inside (py_sort (bp ++ extra))).
  assert (Hcand : forall x, x ∈ cand <-> x ∈ bp ++ extra /\ inside x = true).
  { intros x. unfold cand, py_sort.
    now rewrite filter_elem_of, elem_of_sort_by. }
  assert (Hn : no_nan cand).
  { apply Forall_forall. intros x Hx. apply Hcand in Hx.
    destruct Hx as [_ Hx]. apply andb_true_iff in Hx.
    exact (F64Order.lt_not_nan_l _ _ (proj2 Hx)). }
  repeat split.
  - now apply np_unique_strict.
  - apply np_unique_subset, Hcand in H. tauto.
  - apply np_unique_subset, Hcand in H. destruct H as [_ H].
    apply andb_true_iff in H. tauto.
  - apply np_unique_subset, Hcand in H. destruct H as [_ H].
    apply andb_true_iff in H. tauto.
  - intros x Hx Hl Hr. apply np_unique_covers; [exact Hn|].
    apply Hcand. split; [exact Hx|]. unfold inside. now rewrite Hl, Hr.
  - apply fixed_points_bound.
Qed.

(* ===================================================================== *)
(** ** Calls refused by the checks *)
(* ===================================================================== *)

Lemma uninit_int_entered w : uninit_int (entered w) = uninit_int w.
Proof. unfold entered. now destruct (_colnew_depth w =? 0). Qed.

Lemma uninit_float_entered w : uninit_float (entered w) = uninit_float w.
Proof. unfold entered. now destruct (_colnew_depth w =? 0). Qed.

Lemma heap_entered w : heap (entered w) = heap w.
Proof. unfold entered. now destruct (_colnew_depth w =? 0). Qed.

Lemma boundary_ok_entered a c w :
  boundary_ok a c (entered w) <-> boundary_ok a c w.
Proof.
  unfold boundary_ok. rewrite !contents_sorted_world, !contents_entered.
  reflexivity.
Qed.

Lemma checks_pass_entered a c w :
  checks_pass a c (entered w) <-> checks_pass a c w.
Proof.
  unfold checks_pass.
  setoid_rewrite uninit_int_entered. setoid_rewrite uninit_float_entered.
  setoid_rewrite boundary_ok_entered. reflexivity.
Qed.

Lemma marshalled_checks_pass a w ka w1 c :
  handle_complex a = inr c -> marshalled a w ka w1 -> checks_pass a c w.
Proof.
  intros Hc H. pose proof (marshalled_boundary_ok a w ka w1 c Hc H) as Hb.
  destruct H as [c' ncomp' mstar' k' left_ right_ ispace0 fspace0
    ltol tol ispace1 fspace1 ipar1 guess_func fspace2 ipar2
    bp zeta w1' bp' tols fixpnt sizes Hc' Hd' Hk' Hl Hr Hi Hf Hn' Ho Hg
    Ht Hig Him].
  rewrite Hc in Hc'. injection Hc' as <-.
  exists ncomp', mstar', k', ispace0, fspace0, ltol, tol. auto 10.
Qed.

(** An exception raised before the kernel call is a ValueError, unless it
    is one of the two crashes of the "Initial guess" block; these come
    after every earlier check has passed. *)
Lemma kernel_arguments_inl_late a w e w1 c :
  handle_complex a = inr c ->
  kernel_arguments a w = (inl e, w1) ->
  is_ValueError e = true \/ (guess_crash a e /\ checks_pass a c w).
Proof.
  intros Hc H. unfold kernel_arguments in H.
  rewrite (bind_step _ _ w c w) in H by (unfold lift; now rewrite Hc).
  apply bind_inl in H. destruct H as [H|([ncomp mstar] & w' & Hd & H)].
  { injection H as H _. left. now apply check_degrees_inl in H. }
  unfold lift in Hd. injection Hd as Hd <-.
  apply bind_inl in H. destruct H as [H|(k & w' & Hk & H)].
  { injection H as H _. left. now apply default_collocation_points_inl in H. }
  unfold lift in Hk. injection Hk as Hk <-.
  apply bind_inl in H. destruct H as [H|(bp & w' & Hbp & H)];
    [discriminate|].
  unfold read in Hbp. injection Hbp as <- <-.
  apply bind_inl in H. destruct H as [H|(left_ & w' & Hl & H)].
  { injection H as H _. left. destruct (left a); [discriminate|].
    now apply py_min_inl in H. }
  unfold lift in Hl. injection Hl as Hl <-.
  apply bind_inl in H. destruct H as [H|(right_ & w' & Hr & H)].
  { injection H as H _. left. destruct (right a); [discriminate|].
    now apply py_max_inl in H. }
  unfold lift in Hr. injection Hr as Hr <-.
  destruct (workspace_size ncomp mstar k (maximum_mesh_size a))
    as [nispace nfspace] eqn:Hsz.
  apply bind_inl in H. destruct H as [H|(ispace0 & w' & Hi & H)].
  { injection H as H _. left. now apply np_empty_inl in H. }
  unfold alloc_int in Hi. injection Hi as Hi <-.
  apply bind_inl in H. destruct H as [H|(fspace0 & w' & Hf & H)].
  { injection H as H _. left. now apply np_empty_inl in H. }
  unfold alloc_float in Hf. injection Hf as Hf <-.
  apply bind_inl in H. destruct H as [H|(u1 & w' & Hn & H)].
  { apply raise_if_inl in H. destruct H as (-> & _). now left. }
  apply raise_if_inr in Hn. destruct Hn as [Hn ->].
  apply bind_inl in H. destruct H as [H|(zeta & w' & Hz & H)].
  { rewrite asarray_sort_eq in H. discriminate. }
  rewrite asarray_sort_eq in Hz. injection Hz as <- <-.
  apply bind_inl in H. destruct H as [H|(bp' & w' & Hbp' & H)];
    [discriminate|].
  unfold read in Hbp'. injection Hbp' as <- <-.
  apply bind_inl in H. destruct H as [H|(u2 & w' & Ho & H)].
  { apply raise_if_inl in H. destruct H as (-> & _). now left. }
  apply raise_if_inr in Ho. destruct Ho as [Ho ->].
  apply bind_inl in H. destruct H as [H|(u3 & w' & Hg & H)].
  { apply raise_if_inl in H. destruct H as (-> & _). now left. }
  apply raise_if_inr in Hg. destruct Hg as [Hg ->].
  apply bind_inl in H. destruct H as [H|([ltol tol] & w' & Ht & H)].
  { injection H as H _. left. now apply active_tolerances_inl in H. }
  unfold lift in Ht. injection Ht as Ht <-.
  apply negb_false_iff in Hn, Ho, Hg. apply Z.eqb_eq in Hn.
  destruct (check_degrees_inr _ _ _ Hd) as (_ & Hm & _).
  assert (Hok : boundary_ok a c w).
  { unfold boundary_ok. repeat split; [congruence | exact Ho |].
    exists left_, right_. auto. }
  assert (Hpass : checks_pass a c w).
  { exists ncomp, mstar, k, ispace0, fspace0, ltol, tol.
    rewrite Hsz. simpl. auto 10. }
  apply bind_inl in H.
  destruct H as [H|([[[ispace1 fspace1] ipar1] g] & w' & Hig & H)].
  { injection H as H _. apply resolve_initial_guess_inl in H.
    destruct H as [H|H]; [now left | right; auto]. }
  unfold lift in Hig. injection Hig as Hig <-.
  apply bind_inl in H. destruct H as [H|([fspace2 ipar2] & w' & Him & H)].
  { injection H as H _. left. now apply resolve_initial_mesh_inl in H. }
  discriminate.
Qed.

(** A call that fails one of the checks before the "Initial guess" block
    is refused with a ValueError. *)
Lemma solve_rejects_early a w c :
  handle_complex a = inr c ->
  ~ checks_pass a c w ->
  rejected (solve a w) w.
Proof.
  intros Hc Hno. rewrite <- checks_pass_entered in Hno.
  destruct (kernel_arguments a (entered w)) as [[e|ka] w1] eqn:Hka.
  - destruct (solve_raises_before_call a w e w1 Hka) as [Hs Hcalls].
    destruct (kernel_arguments_inl_late a _ e w1 c Hc Hka) as [He|[_ Hp]];
      [|contradiction].
    apply is_ValueError_inv in He. destruct He as [msg ->].
    exists msg. now rewrite Hs.
  - apply kernel_arguments_marshalled in Hka.
    now apply (marshalled_checks_pass _ _ _ _ c Hc) in Hka.
Qed.

Lemma kernel_arguments_checks_pass a w ka w1 c :
  handle_complex a = inr c ->
  kernel_arguments a w = (inr ka, w1) -> checks_pass a c w.
Proof.
  intros Hc H. apply kernel_arguments_marshalled in H.
  exact (marshalled_checks_pass _ _ _ _ c Hc H).
Qed.

Lemma py_sum_shift (l : list Z) (acc : Z) :
  fold_left Z.add l acc = acc + py_sum l.
Proof.
  unfold py_sum. revert acc.
  induction l as [|x l IH]; intros acc; cbn [fold_left]; [lia|].
  rewrite (IH (acc + x)), (IH (0 + x)). lia.
Qed.

Lemma check_degrees_spec (degrees : list Z) :
  (exists ncomp mstar, check_degrees degrees = inr (ncomp, mstar)) <->
  degrees <> [] /\ Forall (fun d => 1 <= d <= 4) degrees /\
  len degrees <= 256 /\ py_sum degrees <= 512.
Proof.
  split.
  - intros (ncomp & mstar & H).
    destruct (check_degrees_inr _ _ _ H) as (-> & -> & H1 & H2 & H3).
    repeat split; try lia; auto.
    intros ->. unfold len in H1. simpl in H1. lia.
  - intros (Hne & Hall & Hn & Hm).
    unfold check_degrees.
    assert (He : existsb (fun x => (x <=? 0) || (x >? 4)) degrees = false).
    { apply not_true_is_false. intros He. apply existsb_exists in He.
      destruct He as (x & Hx & He). rewrite Forall_forall in Hall.
      apply list_elem_of_In in Hx. specialize (Hall x Hx). lia. }
    rewrite He.
    assert (Hlen : 0 < len degrees).
    { destruct degrees; [congruence|]. unfold len. simpl. lia. }
    assert (Hsum : len degrees <= py_sum degrees).
    { clear -Hall. induction Hall as [|x l Hx Hl IH].
      - unfold len, py_sum. simpl. lia.
      - unfold py_sum. simpl. rewrite py_sum_shift.
        unfold len in *. simpl length. lia. }
    replace ((len degrees <=? 0) || (py_sum degrees <=? 0)) with false
      by (symmetry; apply orb_false_intro; lia).
    replace (len degrees >? 256) with false by lia.
    replace (py_sum degrees >? 512) with false by lia.
    eauto.
Qed.

(** X1. The degrees are validated before anything else: an empty list, a
    degree outside 1..4, more than 256 equations or more than 512 unknowns
    make [solve] raise a ValueError without calling the kernel; the degrees
    of every call that reaches the kernel satisfy all four conditions and
    are passed on unchanged. *)
Theorem degrees_validated a w c :
  handle_complex a = inr c ->
  let d := ComplexAdapter.degrees c in
  ((d = [] \/ Exists (fun x => x <= 0 \/ 4 < x) d \/ 256 < len d \/
    512 < py_sum d) ->
   rejected (solve a w) w) /\
  (forall ka w1,
     kernel_arguments a w = (inr ka, w1) ->
     k_degrees ka = d /\ d <> [] /\ Forall (fun x => 1 <= x <= 4) d /\
     len d <= 256 /\ py_sum d <= 512).
Proof.
  intros Hc d. split.
  - intros Hbad. apply (solve_rejects_early a w c Hc).
    intros (ncomp & mstar & k & i & f & lt & t & Hd & _).
    assert (Hok : exists n m, check_degrees d = inr (n, m)) by eauto.
    apply check_degrees_spec in Hok. destruct Hok as (Hne & Hall & Hn & Hm).
    destruct Hbad as [Hb|[Hb|[Hb|Hb]]]; try lia; [contradiction|].
    apply Exists_exists in Hb. destruct Hb as (x & Hx & Hb).
    rewrite Forall_forall in Hall. specialize (Hall x Hx). lia.
  - intros ka w1 H.
    pose proof (kernel_arguments_checks_pass a w ka w1 c Hc H) as Hp.
    destruct Hp as (ncomp & mstar & k & i & f & lt & t & Hd & _).
    assert (Hok : exists n m, check_degrees d = inr (n, m)) by eauto.
    apply check_degrees_spec in Hok.
    apply kernel_arguments_marshalled in H.
    destruct H as [c' ncomp' mstar' k' left_ right_ ispace0 fspace0
      ltol tol ispace1 fspace1 ipar1 guess_func fspace2 ipar2
      bp zeta w1' bp' tols fixpnt sizes Hc' Hd' Hk' Hl Hr Hi Hf Hn' Ho Hg
      Ht Hig Him].
    rewrite Hc in Hc'. injection Hc' as <-. simpl. tauto.
Qed.

Lemma fold_max_int_spec (l : list Z) (acc : Z) :
  let m := fold_left (fun acc y => if y >? acc then y else acc) l acc in
  acc <= m /\ Forall (fun d => d <= m) l.
Proof.
  revert acc. induction l as [|x l IH]; intros acc; cbn [fold_left].
  - split; [lia | constructor].
  - destruct (IH (if x >? acc then x else acc)) as [H1 H2].
    split; [destruct (x >? acc) eqn:E; lia|].
    constructor; [destruct (x >? acc) eqn:E; lia | exact H2].
Qed.

Lemma py_max_int_spec (l : list Z) (m : Z) :
  py_max_int l = inr m -> Forall (fun d => d <= m) l.
Proof.
  destruct l as [|x l]; [discriminate|]. simpl. intros [= <-].
  destruct (fold_max_int_spec l x) as [H1 H2]. constructor; assumption.
Qed.

Lemma default_collocation_points_spec cp degrees k :
  default_collocation_points cp degrees = inr k ->
  k = default 0 cp /\
  (forall k', cp = Some k' -> Forall (fun d => d <= k') degrees /\ k' <= 7).
Proof.
  unfold default_collocation_points. destruct cp as [c0|]; simpl.
  - destruct (py_max_int degrees) as [e|m] eqn:Hm; simpl; [discriminate|].
    destruct ((c0 <? m) || (c0 >? 7)) eqn:E; [discriminate|].
    intros [= <-]. apply orb_false_elim in E. destruct E as [E1 E2].
    split; [reflexivity|]. intros k' [= <-].
    split; [|lia]. apply py_max_int_spec in Hm.
    eapply Forall_impl; [exact Hm|]. simpl. intros d Hd. lia.
  - intros [= <-]. split; [reflexivity | discriminate].
Qed.

(** What the marshalling fixes of the kernel's arguments, apart from the
    mesh and guess entries of [ipar]. *)
Lemma kernel_arguments_ipar a w ka w1 c :
  handle_complex a = inr c ->
  kernel_arguments a w = (inr ka, w1) ->
  exists ncomp mstar k,
    check_degrees (ComplexAdapter.degrees c) = inr (ncomp, mstar) /\
    default_collocation_points (collocation_points a)
      (ComplexAdapter.degrees c) = inr k /\
    0 <= (workspace_size ncomp mstar k (maximum_mesh_size a)).1 /\
    0 <= (workspace_size ncomp mstar k (maximum_mesh_size a)).2 /\
    len (k_ispace ka)
      = (workspace_size ncomp mstar k (maximum_mesh_size a)).1 /\
    len (k_fspace ka)
      = (workspace_size ncomp mstar k (maximum_mesh_size a)).2 /\
    let fp :=
      fixed_points (contents (ComplexAdapter.boundary_points c) w1)
        (default [] (extra_fixed_points a)) (k_left ka) (k_right ka) in
    k_fixpnt ka = (if len fp =? 0 then [0%float] else fp) /\
    length (k_ipar ka) = 11%nat /\
    forall i : nat,
      i <> 2%nat -> i <> 7%nat -> i <> 8%nat ->
      k_ipar ka !! i =
      make_ipar (is_linear a) k (k_ltol ka) (k_fspace ka) (k_ispace ka)
        (clamp_verbosity (verbosity a)) (problem_regularity a) fp !! i.
Proof.
  intros Hc H. apply kernel_arguments_marshalled in H.
  pose proof (marshalled_ipar_length _ _ _ _ H) as Hlen.
  destruct H as [c' ncomp mstar k left_ right_ ispace0 fspace0
    ltol tol ispace1 fspace1 ipar1 guess_func fspace2 ipar2
    bp zeta w1' bp' tols fixpnt sizes Hc' Hd Hk Hl Hr Hi Hf Hn' Ho Hg
    Ht Hig Him].
  rewrite Hc in Hc'. injection Hc' as <-.
  exists ncomp, mstar, k. cbn [k_ispace k_fspace k_fixpnt k_ipar k_ltol
    k_left k_right] in *.
  destruct (np_empty_inr _ _ _ Hi) as [Hi0 Hil].
  destruct (np_empty_inr _ _ _ Hf) as [Hf0 Hfl].
  destruct (resolve_initial_guess_lengths _ _ _ _ _ _ _ _ _ _ Hig)
    as (Hli & Hlf & _).
  destruct (resolve_initial_mesh_lengths _ _ _ _ _ _ Him) as (Hlf2 & _).
  assert (Hlen_i : len ispace1 = len ispace0) by (unfold len; congruence).
  assert (Hlen_f : len fspace2 = len fspace0) by (unfold len; congruence).
  split; [exact Hd|]. split; [exact Hk|].
  split; [exact Hi0|]. split; [exact Hf0|].
  split; [rewrite Hlen_i; exact Hil|]. split; [rewrite Hlen_f; exact Hfl|].
  split; [reflexivity|]. split; [exact Hlen|].
  intros i H2 H7 H8.
  rewrite (resolve_initial_mesh_ipar _ _ _ _ _ _ i Him H2 H7).
  rewrite (resolve_initial_guess_ipar _ _ _ _ _ _ _ _ _ _ i Hig H2 H8).
  unfold make_ipar. now rewrite Hlen_i, Hlen_f.
Qed.

(** X2. A number of collocation points below the largest degree or above 7
    makes [solve] raise a ValueError without calling the kernel.  In every
    call that reaches the kernel, [ipar[1]] holds the number given, or 0
    when none was given, and a given number is between every degree
    and 7. *)
Theorem collocation_points_validated a w c :
  handle_complex a = inr c ->
  (forall k, collocation_points a = Some k ->
     Exists (fun d => k < d) (ComplexAdapter.degrees c) \/ 7 < k ->
     rejected (solve a w) w) /\
  (forall ka w1,
     kernel_arguments a w = (inr ka, w1) ->
     k_ipar ka !! 1%nat = Some (default 0 (collocation_points a)) /\
     (forall k, collocation_points a = Some k ->
        Forall (fun d => d <= k) (ComplexAdapter.degrees c) /\ k <= 7)).
Proof.
  intros Hc. split.
  - intros k Hk Hbad. apply (solve_rejects_early a w c Hc).
    intros (ncomp & mstar & k0 & i & f & lt & t & _ & Hk0 & _).
    apply default_collocation_points_spec in Hk0.
    destruct Hk0 as [_ Hk0]. destruct (Hk0 k Hk) as [Hall H7].
    destruct Hbad as [Hb|Hb]; [|lia].
    apply Exists_exists in Hb. destruct Hb as (d & Hd & Hb).
    rewrite Forall_forall in Hall. specialize (Hall d Hd). lia.
  - intros ka w1 H.
    destruct (kernel_arguments_ipar a w ka w1 c Hc H)
      as (ncomp & mstar & k & Hd & Hk & _ & _ & _ & _ & _ & _ & Hipar).
    rewrite (Hipar 1%nat) by lia.
    destruct (default_collocation_points_inr _ _ _ _ _ Hd Hk) as [Hr _].
    destruct (default_collocation_points_spec _ _ _ Hk) as [Hk1 Hk2].
    split; [|exact Hk2].
    cbn. rewrite int32_small by lia. now rewrite Hk1.
Qed.

Lemma where_positive_zeros (n : nat) (i : Z) :
  where_positive i (replicate n 0%float) = [].
Proof.
  revert i. induction n as [|n IH]; intros i; [reflexivity|].
  cbn [replicate where_positive].
  replace (F64.gt 0 0) with false by reflexivity. apply IH.
Qed.

(** X15. A tolerance list whose length differs from the number of unknowns
    makes [solve] raise a ValueError without calling the kernel.  When no
    tolerances are given, the kernel receives no active tolerance at all:
    [ltol] and [tol] are empty and [ipar[3]] is 0. *)
Theorem tolerances_length_checked a w c :
  handle_complex a = inr c ->
  (forall t, ComplexAdapter.tolerances c = Some t ->
     len t <> py_sum (ComplexAdapter.degrees c) ->
     rejected (solve a w) w) /\
  (ComplexAdapter.tolerances c = None ->
   forall ka w1,
     kernel_arguments a w = (inr ka, w1) ->
     k_ltol ka = [] /\ k_tol ka = [] /\ k_ipar ka !! 3%nat = Some 0).
Proof.
  intros Hc. split.
  - intros t Ht Hlen. apply (solve_rejects_early a w c Hc).
    intros (ncomp & mstar & k0 & i & f & lt & tl & Hd & _ & _ & _ & Hact & _).
    destruct (check_degrees_inr _ _ _ Hd) as (_ & -> & _).
    rewrite Ht in Hact. unfold active_tolerances in Hact. simpl in Hact.
    destruct (len t =? py_sum (ComplexAdapter.degrees c)) eqn:E;
      [|discriminate]. lia.
  - intros Ht ka w1 H.
    destruct (kernel_arguments_ipar a w ka w1 c Hc H)
      as (ncomp & mstar & k & Hd & Hk & _ & _ & _ & _ & _ & _ & Hipar).
    rewrite (Hipar 3%nat) by lia.
    apply kernel_arguments_marshalled in H.
    destruct H as [c' ncomp' mstar' k' left_ right_ ispace0 fspace0
      ltol tol ispace1 fspace1 ipar1 guess_func fspace2 ipar2
      bp zeta w1' bp' tols fixpnt sizes Hc' Hd' Hk' Hl Hr Hi Hf Hn' Ho Hg
      Hact Hig Him].
    rewrite Hc in Hc'. injection Hc' as <-.
    subst tols. rewrite Ht in Hact. unfold active_tolerances in Hact.
    simpl in Hact.
    destruct (negb _) in Hact; [discriminate|].
    rewrite where_positive_zeros in Hact. injection Hact as <- <-.
    repeat split.
Qed.

(** X16. A negative [maximum_mesh_size] makes [solve] raise a ValueError
    without calling the kernel: the workspace cannot be allocated. *)
Theorem negative_mesh_size_rejected a w c :
  handle_complex a = inr c ->
  maximum_mesh_size a < 0 ->
  rejected (solve a w) w.
Proof.
  intros Hc HM. apply (solve_rejects_early a w c Hc).
  intros (ncomp & mstar & k & i & f & lt & tl & Hd & Hk & Hi & _).
  destruct (check_degrees_inr _ _ _ Hd) as (_ & _ & Hn & Hm & _).
  destruct (default_collocation_points_inr _ _ _ _ _ Hd Hk) as [Hk7 _].
  apply np_empty_inr in Hi. destruct Hi as [Hi _].
  rewrite workspace_size_eq in Hi. simpl in Hi. nia.
Qed.

(* ===================================================================== *)
(** ** What the kernel is handed *)
(* ===================================================================== *)

Ltac open_marshalled H :=
  destruct H as [c' ncomp mstar k left_ right_ ispace0 fspace0
    ltol tol ispace1 fspace1 ipar1 guess_func fspace2 ipar2
    bp zeta w1' bp' tols fixpnt sizes Hc' Hd Hk Hl Hr Hi Hf Hn' Ho Hg
    Ht Hig Him].

Lemma kernel_arguments_adapter a w ka w1 :
  kernel_arguments a w = (inr ka, w1) ->
  exists c, handle_complex a = inr c.
Proof.
  intros H. apply kernel_arguments_marshalled in H. open_marshalled H.
  eauto.
Qed.

(** X5. The configuration vector handed to the kernel has 11 entries and
    describes the buffers that are actually passed: [ipar[4]] and
    [ipar[5]] are the lengths of the float and integer workspaces (which
    fit a 32-bit integer), [ipar[0]] is 0 for a linear and 1 for a
    nonlinear problem, and [problem_regularity] is stored in [ipar[9]]
    without any check. *)
Theorem ipar_describes_workspaces a w ka w1 :
  kernel_arguments a w = (inr ka, w1) ->
  len (k_fspace ka) < 2 ^ 31 ->
  length (k_ipar ka) = 11%nat /\
  k_ipar ka !! 0%nat = Some (if is_linear a then 0 else 1) /\
  k_ipar ka !! 4%nat = Some (len (k_fspace ka)) /\
  k_ipar ka !! 5%nat = Some (len (k_ispace ka)) /\
  len (k_ispace ka) <= len (k_fspace ka) /\
  k_ipar ka !! 9%nat = Some (int32 (problem_regularity a)).
Proof.
  intros H Hfit. destruct (kernel_arguments_adapter _ _ _ _ H) as [c Hc].
  destruct (kernel_arguments_ipar a w ka w1 c Hc H)
    as (ncomp & mstar & k & Hd & Hk & Hi0 & Hf0 & Hil & Hfl & _ & Hlen
        & Hipar).
  destruct (check_degrees_inr _ _ _ Hd) as (_ & _ & Hn & Hm & _).
  destruct (default_collocation_points_inr _ _ _ _ _ Hd Hk) as [Hk7 _].
  assert (Hle : len (k_ispace ka) <= len (k_fspace ka)).
  { rewrite Hil, Hfl. rewrite workspace_size_eq in *. simpl in *.
    assert (HA : 0 <= k * ncomp) by nia.
    assert (HM : 0 <= maximum_mesh_size a) by nia.
    apply Z.mul_le_mono_nonneg_l; [exact HM|]. nia. }
  assert (H0 : 0 <= len (k_ispace ka)) by (unfold len; lia).
  assert (H1 : 0 <= len (k_fspace ka)) by (unfold len; lia).
  rewrite !Hipar by lia. cbn.
  rewrite (int32_small (len (k_fspace ka))) by lia.
  rewrite (int32_small (len (k_ispace ka))) by lia.
  repeat split; auto.
  destruct (is_linear a); reflexivity.
Qed.

Lemma kernel_arguments_bp_length a w ka w1 c :
  handle_complex a = inr c ->
  kernel_arguments a w = (inr ka, w1) ->
  len (contents (ComplexAdapter.boundary_points c) w1)
  = py_sum (ComplexAdapter.degrees c).
Proof.
  intros Hc H. apply kernel_arguments_marshalled in H. open_marshalled H.
  rewrite Hc in Hc'. injection Hc' as <-.
  destruct (check_degrees_inr _ _ _ Hd) as (_ & Hms & _).
  rewrite <- Hms, <- Hn'. subst w1'.
  rewrite contents_sorted_world. subst bp. unfold len.
  destruct (ComplexAdapter.boundary_points c); [reflexivity|].
  now rewrite np_sort_length.
Qed.

(** X4. The kernel never receives an empty array of fixed points:
    [ipar[10]] is the number of fixed points computed from the boundary
    points and the extra fixed points, and when there is none the array
    passed is the placeholder [[0.]]. *)
Theorem kernel_fixed_points a w ka w1 c :
  handle_complex a = inr c ->
  kernel_arguments a w = (inr ka, w1) ->
  len (default [] (extra_fixed_points a)) < 2 ^ 30 ->
  let fp :=
    fixed_points (contents (ComplexAdapter.boundary_points c) w1)
      (default [] (extra_fixed_points a)) (k_left ka) (k_right ka) in
  k_ipar ka !! 10%nat = Some (len fp) /\
  k_fixpnt ka = match fp with [] => [0%float] | _ => fp end /\
  k_fixpnt ka <> [].
Proof.
  intros Hc H Hex fp.
  destruct (kernel_arguments_ipar a w ka w1 c Hc H)
    as (ncomp & mstar & k & Hd & Hk & _ & _ & _ & _ & Hfix & _ & Hipar).
  fold fp in Hfix, Hipar.
  destruct (check_degrees_inr _ _ _ Hd) as (_ & Hms & _ & Hm & _).
  pose proof (kernel_arguments_bp_length a w ka w1 c Hc H) as Hbp.
  rewrite <- Hms in Hbp.
  pose proof (fixed_points_bound
                (contents (ComplexAdapter.boundary_points c) w1)
                (default [] (extra_fixed_points a)) (k_left ka) (k_right ka))
    as Hlen.
  fold fp in Hlen.
  rewrite (Hipar 10%nat) by lia. cbn.
  rewrite int32_small by (unfold len in *; lia).
  split; [reflexivity|]. rewrite Hfix.
  destruct fp as [|x fp']; simpl; split; (reflexivity || discriminate).
Qed.

Lemma zip_eq_no_nan (s l : list float) :
  length s = length l ->
  forallb id (zip_with F64.eq s l) = true -> no_nan s.
Proof.
  revert l. induction s as [|x s IH]; intros [|y l] Hlen H;
    try discriminate; [constructor|].
  simpl in H. apply andb_true_iff in H. destruct H as [Hxy H].
  constructor; [exact (F64Facts.eq_not_nan_l _ _ Hxy)|].
  apply (IH l); [simpl in Hlen; lia | exact H].
Qed.

Lemma sorted_np_ascending (l : list float) :
  no_nan l -> sorted_np l -> ascending l.
Proof.
  induction l as [|x [|y l] IH]; intros Hn Hs; try exact I.
  inversion Hn as [|? ? Hx Hn']; subst.
  inversion Hn' as [|? ? Hy _]; subst.
  destruct Hs as [Hs1 Hs2]. split; [|now apply IH].
  apply F64Facts.not_gt_le; auto.
  unfold F64.sort_lt in Hs1. now apply orb_false_elim in Hs1.
Qed.

(** X6. Whatever the caller passes as boundary points, a list or an array,
    the boundary points handed to the kernel are the sorted input, as many
    as there are unknowns, free of NaN, in ascending order and inside
    [[left, right]]; in particular [left <= right]. *)
Theorem kernel_boundary_points a w ka w1 c :
  handle_complex a = inr c ->
  kernel_arguments a w = (inr ka, w1) ->
  k_zeta ka = np_sort (contents (ComplexAdapter.boundary_points c) w) /\
  len (k_zeta ka) = py_sum (ComplexAdapter.degrees c) /\
  no_nan (k_zeta ka) /\
  ascending (k_zeta ka) /\
  Forall (fun z => F64.le (k_left ka) z = true /\
                   F64.le z (k_right ka) = true) (k_zeta ka) /\
  F64.le (k_left ka) (k_right ka) = true.
Proof.
  intros Hc H.
  pose proof (kernel_arguments_bp_length a w ka w1 c Hc H) as Hbp.
  apply kernel_arguments_marshalled in H. open_marshalled H.
  rewrite Hc in Hc'. injection Hc' as <-.
  cbn [k_zeta k_left k_right].
  destruct (check_degrees_inr _ _ _ Hd) as (_ & Hms & _ & Hm & _).
  assert (Hlz : length zeta = length bp') .
  { subst zeta bp' w1'. rewrite contents_sorted_world, np_sort_length.
    subst bp. destruct (ComplexAdapter.boundary_points c); [reflexivity|].
    now rewrite np_sort_length. }
  assert (Hnn : no_nan zeta) by exact (zip_eq_no_nan zeta bp' Hlz Ho).
  assert (Hrange : Forall (fun z => F64.le left_ z = true /\
                                    F64.le z right_ = true) zeta).
  { apply Forall_forall. intros z Hz.
    rewrite forallb_forall in Hg. apply list_elem_of_In in Hz.
    specialize (Hg z Hz). apply andb_true_iff in Hg. exact Hg. }
  split; [reflexivity|].
  split; [unfold len; rewrite Hlz; exact Hbp|].
  split; [exact Hnn|].
  split; [apply sorted_np_ascending; [exact Hnn | apply np_sort_sorted]|].
  split; [exact Hrange|].
  destruct zeta as [|z zeta'] eqn:Ez.
  - exfalso. change (len bp' = py_sum (ComplexAdapter.degrees c)) in Hbp.
    unfold len in Hbp. rewrite <- Hlz in Hbp. simpl in Hbp. lia.
  - inversion Hrange as [|? ? [H1 H2] _]; subst.
    exact (F64Order.le_trans _ _ _ H1 H2).
Qed.

(* ===================================================================== *)
(** ** Initial guess and initial mesh *)
(* ===================================================================== *)

(** When every earlier check passes, an exception of the "Initial guess"
    block is the exception of the call. *)
Lemma kernel_arguments_guess_raises a w c ncomp mstar k left_ right_
    ispace0 fspace0 ltol tol e :
  let bp := contents (ComplexAdapter.boundary_points c) w in
  let zeta := np_sort bp in
  let w1 := sorted_world (ComplexAdapter.boundary_points c) w in
  let bp' := contents (ComplexAdapter.boundary_points c) w1 in
  let tolerances :=
    default (replicate (Z.to_nat mstar) 0%float)
            (ComplexAdapter.tolerances c) in
  let fixpnt :=
    fixed_points bp' (default [] (extra_fixed_points a)) left_ right_ in
  let sizes := workspace_size ncomp mstar k (maximum_mesh_size a) in
  handle_complex a = inr c ->
  check_degrees (ComplexAdapter.degrees c) = inr (ncomp, mstar) ->
  default_collocation_points (collocation_points a)
    (ComplexAdapter.degrees c) = inr k ->
  match left a with None => py_min bp | Some x => inr x end = inr left_ ->
  match right a with None => py_max bp | Some x => inr x end = inr right_ ->
  np_empty (uninit_int w) sizes.1 = inr ispace0 ->
  np_empty (uninit_float w) sizes.2 = inr fspace0 ->
  len bp = mstar ->
  forallb id (zip_with F64.eq zeta bp') = true ->
  forallb (fun z => F64.ge z left_ && F64.le z right_) zeta = true ->
  active_tolerances tolerances mstar = inr (ltol, tol) ->
  resolve_initial_guess (initial_guess a) (initial_mesh a)
    (coarsen_initial_guess_mesh a) ispace0 fspace0
    (make_ipar (is_linear a) k ltol fspace0 ispace0
       (clamp_verbosity (verbosity a)) (problem_regularity a) fixpnt)
    = inl e ->
  kernel_arguments a w = (inl e, w1).
Proof.
  intros bp zeta w1 bp' tols fixpnt sizes Hc Hd Hk Hl Hr Hi Hf Hn Ho Hg Ht
    Hig.
  unfold kernel_arguments.
  do 4 run_lift. fold bp. do 2 run_lift.
  subst sizes.
  destruct (workspace_size ncomp mstar k (maximum_mesh_size a))
    as [nispace nfspace]. simpl in Hi, Hf. cbv beta iota.
  do 2 run_lift.
  apply Z.eqb_eq in Hn. run_check.
  run_lift. fold zeta w1. run_lift. fold bp'.
  do 2 run_check.
  fold tols. run_lift. fold fixpnt.
  erewrite bind_fail; [reflexivity|].
  unfold lift. now rewrite Hig.
Qed.


Lemma resolve_initial_guess_8 ig im coarsen ispace fspace ipar
    ispace1 fspace1 ipar1 g :
  (9 <= length ipar)%nat ->
  resolve_initial_guess ig im coarsen ispace fspace ipar
    = inr (ispace1, fspace1, ipar1, g) ->
  match ig with
  | GuessNone => ipar1 !! 8%nat = Some 0 /\ g = dummy_guess
  | GuessCallable f => ipar1 !! 8%nat = Some 1 /\ g = User f
  | GuessSolution s =>
      g = dummy_guess /\
      match im with
      | MeshNone => ipar1 !! 8%nat = Some (if coarsen then 3 else 2)
      | _ => coarsen = false /\ ipar1 !! 8%nat = Some 4
      end
  | GuessOther => False
  end.
Proof.
  intros Hlen. unfold resolve_initial_guess.
  destruct ig as [s|f| |]; [| | |discriminate].
  - destruct im as [|n|m].
    + intros H. apply rbind_inr in H. destruct H as (i1 & _ & H).
      apply rbind_inr in H. destruct H as (f1 & _ & H).
      apply rbind_inr in H. destruct H as (n0 & _ & H).
      injection H as <- <- <- <-. split; [reflexivity|].
      destruct coarsen;
        (rewrite list_lookup_insert_eq;
         [reflexivity | rewrite length_insert; lia]).
    + destruct coarsen; discriminate.
    + destruct coarsen; [discriminate|]. intros H.
      apply rbind_inr in H. destruct H as (n0 & _ & H).
      apply rbind_inr in H. destruct H as (i1 & _ & H).
      apply rbind_inr in H. destruct H as (f1 & _ & H).
      injection H as <- <- <- <-. repeat split.
      rewrite list_lookup_insert_ne by lia.
      rewrite list_lookup_insert_eq; [reflexivity | lia].
  - intros [= <- <- <- <-].
    rewrite list_lookup_insert_eq; [split; reflexivity | lia].
  - intros [= <- <- <- <-].
    rewrite list_lookup_insert_eq; [split; reflexivity | lia].
Qed.

(** X9. The kind of initial guess reaches the kernel in [ipar[8]]: 0 when
    there is none, 1 for a callable, which is then the guess function the
    kernel receives (wrapped when the call is not vectorized); without a
    callable the kernel receives the function that raises "Invalid initial
    guess".  An [initial_guess] of any other kind makes [solve] raise a
    ValueError without calling the kernel. *)
Theorem initial_guess_modes a w c :
  handle_complex a = inr c ->
  (initial_guess a = GuessOther -> rejected (solve a w) w) /\
  (forall ka w1,
     kernel_arguments a w = (inr ka, w1) ->
     let wrap g := if vectorized a then g else vectorized_guess g in
     match initial_guess a with
     | GuessNone =>
         k_ipar ka !! 8%nat = Some 0 /\ k_guess ka = wrap dummy_guess
     | GuessCallable f =>
         k_ipar ka !! 8%nat = Some 1 /\ k_guess ka = wrap (User f)
     | GuessSolution s =>
         k_guess ka = wrap dummy_guess /\
         exists mode, k_ipar ka !! 8%nat = Some mode /\ 2 <= mode <= 4
     | GuessOther => False
     end).
Proof.
  intros Hc. split.
  - intros HG.
    destruct (solve_rejects a w c Hc) as (msg & w' & Hs & Hcalls).
    + intros ka w1 H. open_marshalled H.
      rewrite HG in Hig. discriminate.
    + intros e (s & Hs & _) _. congruence.
    + exists msg. now rewrite Hs.
  - intros ka w1 H wrap. apply kernel_arguments_marshalled in H.
    open_marshalled H. cbn [k_ipar k_guess].
    assert (H8 := Hig). apply resolve_initial_guess_8 in H8;
      [|rewrite make_ipar_length; lia].
    rewrite (resolve_initial_mesh_ipar _ _ _ _ _ _ 8%nat Him) by lia.
    unfold pick_guess. fold (wrap guess_func).
    destruct (initial_guess a) as [s|f| |]; [| | |exact H8].
    + destruct H8 as [-> H8]. split; [reflexivity|].
      destruct (initial_mesh a).
      * exists (if coarsen_initial_guess_mesh a then 3 else 2).
        split; [exact H8|]. destruct (coarsen_initial_guess_mesh a); lia.
      * exists 4. split; [tauto | lia].
      * exists 4. split; [tauto | lia].
    + destruct H8 as [H8 ->]. now split.
    + destruct H8 as [H8 ->]. now split.
Qed.

Lemma np_setslice_prefix {A : Type} (a v a' : list A) :
  np_setslice a 0 (length v) v = inr a' ->
  (length v <= length a)%nat ->
  a' = v ++ drop (length v) a.
Proof.
  unfold np_setslice. intros H Hfit. simpl in H.
  rewrite Nat.sub_0_r in H.
  rewrite (Nat.min_l (length v)), Nat.eqb_refl in H by lia.
  now injection H as <-.
Qed.

(** X7. The initial mesh reaches the kernel as follows.  Without
    [initial_mesh], or with a number of points, the call must be adaptive
    and [ipar[7]] is 0; the number of subintervals [ipar[2]] is the number
    given, and 10 by default when the guess is not a former Solution.
    With a list of mesh points, [ipar[7]] is 1 for an adaptive and 2 for a
    non-adaptive call, [ipar[2]] is one less than the number of points,
    and the points are at the head of the float workspace. *)
Theorem initial_mesh_modes a w ka w1 :
  kernel_arguments a w = (inr ka, w1) ->
  match initial_mesh a with
  | MeshNone =>
      adaptive_mesh_selection a = true /\
      k_ipar ka !! 7%nat = Some 0 /\
      match initial_guess a with
      | GuessSolution _ => True
      | _ => k_ipar ka !! 2%nat = Some 10
      end
  | MeshCount n =>
      adaptive_mesh_selection a = true /\
      k_ipar ka !! 7%nat = Some 0 /\
      k_ipar ka !! 2%nat = Some (int32 n)
  | MeshPoints m =>
      k_ipar ka !! 7%nat
        = Some (if adaptive_mesh_selection a then 1 else 2) /\
      k_ipar ka !! 2%nat = Some (int32 (len m - 1)) /\
      ((length m <= length (k_fspace ka))%nat ->
       take (length m) (k_fspace ka) = m)
  end.
Proof.
  intros H. apply kernel_arguments_marshalled in H. open_marshalled H.
  cbn [k_ipar k_fspace].
  assert (Hlen : length ipar1 = 11%nat).
  { apply resolve_initial_guess_lengths in Hig.
    destruct Hig as (_ & _ & ->). apply make_ipar_length. }
  unfold resolve_initial_mesh in Him.
  destruct (initial_mesh a) as [|n|m] eqn:HM.
  - destruct (adaptive_mesh_selection a); [|discriminate].
    simpl in Him. injection Him as <- <-.
    split; [reflexivity|].
    split; [rewrite list_lookup_insert_eq; [reflexivity|lia]|].
    rewrite list_lookup_insert_ne by lia.
    unfold resolve_initial_guess in Hig.
    destruct (initial_guess a) as [s|f| |]; [exact I| | |discriminate];
      injection Hig as <- <- <- <-; reflexivity.
  - destruct (adaptive_mesh_selection a); [|discriminate].
    simpl in Him. injection Him as <- <-.
    split; [reflexivity|].
    split; [rewrite list_lookup_insert_eq;
            [reflexivity | rewrite !length_insert; lia]|].
    rewrite !list_lookup_insert_ne by lia.
    rewrite list_lookup_insert_eq; [reflexivity | lia].
  - apply rbind_inr in Him. destruct Him as (f1 & Hf1 & Him).
    pose proof (np_setslice_length _ _ _ _ _ Hf1) as Hl1.
    assert (Hpre : (length m <= length fspace1)%nat ->
                   take (length m) f1 = m).
    { intros Hfit. rewrite (np_setslice_prefix _ _ _ Hf1 Hfit).
      now rewrite take_app_length. }
    destruct (adaptive_mesh_selection a); simpl in Him;
      injection Him as <- <-.
    + split; [rewrite list_lookup_insert_eq;
              [reflexivity | rewrite length_insert; lia]|].
      split; [rewrite list_lookup_insert_ne by lia;
              rewrite list_lookup_insert_eq; [reflexivity | lia]|].
      intros Hfit. apply Hpre. lia.
    + split; [rewrite list_lookup_insert_eq;
              [reflexivity | rewrite length_insert; lia]|].
      split; [rewrite list_lookup_insert_ne by lia;
              rewrite list_lookup_insert_eq; [reflexivity | lia]|].
      intros Hfit. apply Hpre. lia.
Qed.

(** X10. Continuing from a former Solution without an [initial_mesh]
    needs an adaptive call.  The former Solution's integer and float data
    are copied to the head of the two workspaces, [ipar[8]] is 3 when its
    mesh is to be coarsened and 2 otherwise, [ipar[7]] is 0, and the number
    of subintervals [ipar[2]] is read back from the first entry of the
    integer workspace. *)
Theorem continue_from_solution a w ka w1 s :
  initial_guess a = GuessSolution s ->
  initial_mesh a = MeshNone ->
  kernel_arguments a w = (inr ka, w1) ->
  adaptive_mesh_selection a = true /\
  k_ipar ka !! 8%nat
    = Some (if coarsen_initial_guess_mesh a then 3 else 2) /\
  k_ipar ka !! 7%nat = Some 0 /\
  (exists n0, k_ispace ka !! 0%nat = Some n0 /\
              k_ipar ka !! 2%nat = Some (int32 n0)) /\
  ((length (Solution.ispace s) <= length (k_ispace ka))%nat ->
   take (length (Solution.ispace s)) (k_ispace ka) = Solution.ispace s) /\
  ((length (Solution.fspace s) <= length (k_fspace ka))%nat ->
   take (length (Solution.fspace s)) (k_fspace ka) = Solution.fspace s).
Proof.
  intros HG HM H. apply kernel_arguments_marshalled in H. open_marshalled H.
  cbn [k_ipar k_fspace k_ispace].
  rewrite HG, HM in Hig. rewrite HM in Him.
  unfold resolve_initial_mesh in Him.
  destruct (adaptive_mesh_selection a); [|discriminate].
  simpl in Him. injection Him as <- <-.
  unfold resolve_initial_guess in Hig.
  apply rbind_inr in Hig. destruct Hig as (i1 & Hi1 & Hig).
  apply rbind_inr in Hig. destruct Hig as (f1 & Hf1 & Hig).
  apply rbind_inr in Hig. destruct Hig as (n0 & Hn0 & Hig).
  injection Hig as <- <- <- _.
  split; [reflexivity|].
  split; [destruct (coarsen_initial_guess_mesh a); reflexivity|].
  split; [destruct (coarsen_initial_guess_mesh a); reflexivity|].
  split.
  { exists n0. split.
    - unfold np_getitem in Hn0. destruct (i1 !! 0%nat); congruence.
    - destruct (coarsen_initial_guess_mesh a); reflexivity. }
  pose proof (np_setslice_length _ _ _ _ _ Hi1) as Hl1.
  pose proof (np_setslice_length _ _ _ _ _ Hf1) as Hl2.
  split; intros Hfit.
  - rewrite (np_setslice_prefix _ _ _ Hi1) by lia.
    now rewrite take_app_length.
  - rewrite (np_setslice_prefix _ _ _ Hf1) by lia.
    now rewrite take_app_length.
Qed.

Lemma np_setslice_overflow {A : Type} (a v : list A) :
  (length a < length v)%nat -> length v <> 1%nat ->
  np_setslice a 0 (length v) v
  = inl (ValueError "could not broadcast input array").
Proof.
  intros Hlt Hne. unfold np_setslice. simpl. rewrite Nat.sub_0_r.
  rewrite (Nat.min_r (length v)) by lia.
  destruct (Nat.eqb_spec (length v) (length a)) as [E|_]; [lia|].
  destruct v as [|x [|y v]]; simpl in *; try reflexivity. lia.
Qed.

(** X12. What is copied into the workspaces must fit.  A list of mesh
    points longer than the float workspace, or a former Solution (given
    without [initial_mesh]) whose integer data are longer than the integer
    workspace, makes [solve] raise a ValueError without calling the
    kernel. *)
Theorem workspace_overflow_rejected a w c :
  handle_complex a = inr c ->
  (forall m,
     initial_mesh a = MeshPoints m ->
     (forall ncomp mstar k,
        check_degrees (ComplexAdapter.degrees c) = inr (ncomp, mstar) ->
        default_collocation_points (collocation_points a)
          (ComplexAdapter.degrees c) = inr k ->
        (workspace_size ncomp mstar k (maximum_mesh_size a)).2 < len m) ->
     len m <> 1 ->
     rejected (solve a w) w) /\
  (forall s,
     initial_guess a = GuessSolution s ->
     initial_mesh a = MeshNone ->
     (forall ncomp mstar k,
        check_degrees (ComplexAdapter.degrees c) = inr (ncomp, mstar) ->
        default_collocation_points (collocation_points a)
          (ComplexAdapter.degrees c) = inr k ->
        (workspace_size ncomp mstar k (maximum_mesh_size a)).1
          < len (Solution.ispace s)) ->
     len (Solution.ispace s) <> 1 ->
     rejected (solve a w) w).
Proof.
  intros Hc. split.
  - intros m HM Hbig Hne.
    destruct (solve_rejects a w c Hc) as (msg & w' & Hs & Hcalls).
    + intros ka w1 H. open_marshalled H.
      rewrite Hc in Hc'. injection Hc' as <-.
      specialize (Hbig _ _ _ Hd Hk).
      apply np_empty_inr in Hf. destruct Hf as [_ Hf]. fold sizes in Hbig.
      destruct (resolve_initial_guess_lengths _ _ _ _ _ _ _ _ _ _ Hig)
        as (_ & Hlf & _).
      rewrite HM in Him. unfold resolve_initial_mesh in Him.
      rewrite np_setslice_overflow in Him; [discriminate| |].
      * unfold len in *. lia.
      * unfold len in Hne. lia.
    + intros e (s & _ & [(n & Hn & _)|[Hn _]]) _; congruence.
    + exists msg. now rewrite Hs.
  - intros s HG HM Hbig Hne.
    assert (Hfail : forall ispace0 fspace0 ipar,
              (length ispace0 < length (Solution.ispace s))%nat ->
              resolve_initial_guess (initial_guess a) (initial_mesh a)
                (coarsen_initial_guess_mesh a) ispace0 fspace0 ipar
              = inl (ValueError "could not broadcast input array")).
    { intros i0 f0 ip Hlt. rewrite HG, HM. unfold resolve_initial_guess.
      rewrite np_setslice_overflow; [reflexivity | exact Hlt|].
      unfold len in Hne. lia. }
    destruct (kernel_arguments a (entered w)) as [[e|ka] w1] eqn:Hka.
    + destruct (solve_raises_before_call a w e w1 Hka) as [Hs Hcalls].
      destruct (kernel_arguments_inl_late a _ e w1 c Hc Hka)
        as [He|[_ Hp]].
      * apply is_ValueError_inv in He. destruct He as [msg ->].
        exists msg. now rewrite Hs.
      * destruct Hp as (ncomp & mstar & k & i0 & f0 & lt & tl & Hd & Hk
                        & Hi & Hf & Ht & Hlen & Ho & l_ & r_ & Hl & Hr & Hg).
        specialize (Hbig _ _ _ Hd Hk).
        destruct (check_degrees_inr _ _ _ Hd) as (_ & Hms & _).
        pose proof (np_empty_inr _ _ _ Hi) as [_ Hil].
        rewrite (kernel_arguments_guess_raises a (entered w) c ncomp mstar k
                   l_ r_ i0 f0 lt tl
                   (ValueError "could not broadcast input array")
                   Hc Hd Hk Hl Hr Hi Hf) in Hka.
        -- injection Hka as <- _. eexists. now rewrite Hs.
        -- congruence.
        -- exact Ho.
        -- exact Hg.
        -- exact Ht.
        -- apply Hfail. unfold len in *. lia.
    + exfalso. apply kernel_arguments_marshalled in Hka. open_marshalled Hka.
      rewrite Hc in Hc'. injection Hc' as <-.
      specialize (Hbig _ _ _ Hd Hk).
      apply np_empty_inr in Hi. destruct Hi as [_ Hi]. fold sizes in Hbig.
      rewrite Hfail in Hig; [discriminate|]. unfold len in *. lia.
Qed.

(* ===================================================================== *)
(** ** The kernel call and its callbacks *)
(* ===================================================================== *)

(** X21. An exception raised inside the kernel call (by one of the
    caller's functions) comes out of [solve] unchanged, after the exit
    bookkeeping has run: depth and stack are as before the call. *)
Theorem kernel_exception_propagates a w ka w1 e w2 :
  keeps_frames colnew ->
  kernel_arguments a (entered w) = (inr ka, w1) ->
  colnew ka (log_call ka w1) = (inl e, w2) ->
  solve a w = (inl e, exited w w2) /\
  _colnew_depth (exited w w2) = _colnew_depth w /\
  _colnew_stack (exited w w2) = _colnew_stack w.
Proof.
  intros Hk Hka Hcall. split; [|split; reflexivity].
  rewrite (solve_eq_keeps a w Hk). unfold _colnew_solve.
  rewrite (bind_step _ _ _ ka w1 Hka).
  rewrite (bind_fail _ _ w1 e w2); [reflexivity|].
  unfold call_colnew. exact Hcall.
Qed.


(* ===================================================================== *)
(** ** The default interval *)
(* ===================================================================== *)

Lemma ascending_head_le (x : float) (r : list float) :
  ascending (x :: r) -> Forall (fun y => F64.le x y = true) r.
Proof.
  revert x. induction r as [|y r IH]; intros x Hs; [constructor|].
  destruct Hs as [Hxy Hs]. constructor; [exact Hxy|].
  eapply Forall_impl; [exact (IH y Hs)|]. simpl. intros z Hz.
  exact (F64Order.le_trans _ _ _ Hxy Hz).
Qed.

Lemma fold_min_fixed (x : float) (r : list float) :
  Forall (fun y => F64.le x y = true) r ->
  fold_left (fun acc y => if F64.lt y acc then y else acc) r x = x.
Proof.
  induction 1 as [|y r Hy _ IH]; cbn [fold_left]; [reflexivity|].
  now rewrite (F64Facts.le_not_gt _ _ Hy).
Qed.

Lemma fold_max_last (r : list float) (acc prev : float) :
  F64.eq acc prev = true -> ascending (prev :: r) ->
  exists xn,
    last (prev :: r) = Some xn /\
    F64.eq (fold_left (fun acc y => if F64.gt y acc then y else acc) r acc)
           xn = true.
Proof.
  revert acc prev. induction r as [|y r IH]; intros acc prev He Hs.
  - exists prev. split; [reflexivity | exact He].
  - destruct Hs as [Hpy Hs]. cbn [fold_left].
    assert (Hy : F64.isnan y = false) by exact (F64Facts.le_not_nan_r _ _ Hpy).
    assert (He' : F64.eq (if F64.gt y acc then y else acc) y = true).
    { unfold F64.gt. fold (F64.lt acc y).
      destruct (F64.lt acc y) eqn:E; [now apply F64Order.eq_refl|].
      rewrite (F64Order.lt_eq_compat_l acc prev y He) in E.
      apply (F64Order.eq_trans acc prev y He).
      destruct (F64.eq prev y) eqn:E'; [reflexivity|].
      rewrite (F64Order.le_neq_lt _ _ Hpy E') in E. discriminate. }
    destruct (IH _ y He' Hs) as (xn & Hl & Hm).
    exists xn. split; [|exact Hm].
    change (last (prev :: y :: r)) with (last (y :: r)). exact Hl.
Qed.

Lemma ascending_le_last (l : list float) (xn : float) :
  ascending l -> no_nan l -> last l = Some xn ->
  Forall (fun z => F64.le z xn = true) l.
Proof.
  induction l as [|x [|y l] IH]; intros Hs Hn Hl; [constructor| |].
  - injection Hl as <-. inversion Hn; subst. constructor; [|constructor].
    now apply F64Order.le_refl.
  - destruct Hs as [Hxy Hs]. inversion Hn as [|? ? _ Hn']; subst.
    change (last (x :: y :: l)) with (last (y :: l)) in Hl.
    pose proof (IH Hs Hn' Hl) as Hall.
    constructor; [|exact Hall].
    inversion Hall as [|? ? Hy _]; subst.
    exact (F64Order.le_trans _ _ _ Hxy Hy).
Qed.

(** The smallest and the largest entry of an ascending list are its first
    entry and (up to float equality) its last. *)
Lemma min_max_ascending (l : list float) (x0 : float) :
  ascending l -> no_nan l -> head l = Some x0 ->
  py_min l = inr x0 /\
  exists m xn,
    py_max l = inr m /\ last l = Some xn /\ F64.eq m xn = true /\
    Forall (fun z => F64.ge z x0 && F64.le z m = true) l.
Proof.
  intros Hs Hn Hh. destruct l as [|x r]; [discriminate|].
  injection Hh as ->. inversion Hn as [|? ? Hx _]; subst.
  pose proof (ascending_head_le x0 r Hs) as Hle.
  split; [simpl; now rewrite (fold_min_fixed x0 r Hle)|].
  destruct (fold_max_last r x0 x0 (F64Order.eq_refl x0 Hx) Hs)
    as (xn & Hl & Hm).
  eexists _, xn. split; [reflexivity|]. split; [exact Hl|].
  split; [exact Hm|].
  pose proof (ascending_le_last (x0 :: r) xn Hs Hn Hl) as Hlast.
  assert (Hge : Forall (fun z => F64.le x0 z = true) (x0 :: r)).
  { constructor; [now apply F64Order.le_refl | exact Hle]. }
  apply Forall_forall. intros z Hz.
  rewrite Forall_forall in Hlast, Hge.
  apply andb_true_iff. split; [exact (Hge z Hz)|].
  apply (F64Order.le_trans z xn); [exact (Hlast z Hz)|].
  apply F64Order.eq_le. now apply F64Order.eq_sym.
Qed.

(** X14. When [left] and [right] are omitted and the boundary points are a
    list, the interval is the one spanned by the boundary points: a list
    of the right length in ascending order passes the boundary checks, and
    the kernel receives the first point as [left] and a point equal to the
    last one as [right]. *)
Theorem default_interval a w c l :
  handle_complex a = inr c ->
  ComplexAdapter.boundary_points c = PyList l ->
  left a = None -> right a = None ->
  (ascending l -> no_nan l -> l <> [] ->
   len l = py_sum (ComplexAdapter.degrees c) -> boundary_ok a c w) /\
  (forall ka w1,
     kernel_arguments a w = (inr ka, w1) ->
     head l = Some (k_left ka) /\
     exists xn, last l = Some xn /\ F64.eq (k_right ka) xn = true).
Proof.
  intros Hc Hb HL HR. split.
  - intros Hs Hn Hne Hlen.
    destruct l as [|x0 r] eqn:El; [congruence|]. rewrite <- El in *.
    assert (Hh : head l = Some x0) by now rewrite El.
    destruct (min_max_ascending l x0 Hs Hn Hh)
      as (Hmin & m & xn & Hmax & _ & _ & Hrange).
    unfold boundary_ok. rewrite contents_sorted_world, Hb. simpl.
    rewrite (np_sort_ascending l Hs).
    split; [exact Hlen|]. split; [now apply forallb_eq_refl|].
    exists x0, m. rewrite HL, HR. split; [exact Hmin|]. split; [exact Hmax|].
    apply forallb_forall. intros z Hz. rewrite Forall_forall in Hrange.
    apply Hrange. now apply list_elem_of_In.
  - intros ka w1 H. apply kernel_arguments_marshalled in H.
    pose proof (marshalled_boundary_ok a w ka w1 c Hc H) as Hok.
    assert (Hnn : no_nan l).
    { unfold boundary_ok in Hok. rewrite contents_sorted_world, Hb in Hok.
      simpl in Hok. destruct Hok as (_ & Heq & _).
      destruct (boundary_ok_list a c w l Hb
                  (marshalled_boundary_ok a w ka w1 c Hc H))
        as (_ & _ & Hsort & _).
      rewrite Hsort in Heq. exact (zip_eq_no_nan l l eq_refl Heq). }
    destruct (boundary_ok_list a c w l Hb Hok) as (Hlen & Hs & _ & _).
    open_marshalled H. rewrite Hc in Hc'. injection Hc' as <-.
    cbn [k_left k_right]. subst bp. rewrite Hb in Hl, Hr. simpl in Hl, Hr.
    rewrite HL in Hl. rewrite HR in Hr.
    destruct l as [|x0 r] eqn:El; [discriminate|]. rewrite <- El in *.
    assert (Hh : head l = Some x0) by now rewrite El.
    destruct (min_max_ascending l x0 Hs Hnn Hh)
      as (Hmin & m & xn & Hmax & Hlast & Hm & _).
    rewrite Hmin in Hl. rewrite Hmax in Hr.
    injection Hl as <-. injection Hr as <-.
    split; [exact Hh|]. exists xn. auto.
Qed.

(* ===================================================================== *)
(** ** A success report with a truncated workspace *)
(* ===================================================================== *)

Lemma Solution_init_short (ispace0 : list Z) (fspace0 : list float) :
  (length ispace0 < 7)%nat ->
  Solution.__init__ ispace0 fspace0
  = inl (IndexError "index is out of bounds").
Proof.
  intros Hlen. unfold Solution.__init__, np_getitem.
  do 7 (destruct ispace0 as [|? ispace0]; [reflexivity|]).
  simpl in Hlen. lia.
Qed.

(** X17. Building the Solution reads the four header entries [ispace[0]],
    [ispace[2]], [ispace[3]] and [ispace[6]]: it succeeds whenever the
    integer workspace has at least 7 entries and raises IndexError
    otherwise.  So when the kernel reports success but hands back fewer
    than 7 integers, [solve] raises IndexError, after the exit
    bookkeeping has run. *)
Theorem truncated_workspace_index_error a w ka w1 ispace fspace w2 :
  keeps_frames colnew ->
  kernel_arguments a (entered w) = (inr ka, w1) ->
  colnew ka (log_call ka w1) = (inr (1, ispace, fspace), w2) ->
  ((length ispace < 7)%nat <->
   exists msg, Solution.__init__ ispace fspace = inl (IndexError msg)) /\
  ((7 <= length ispace)%nat <->
   exists s, Solution.__init__ ispace fspace = inr s) /\
  ((length ispace < 7)%nat ->
   exists msg, solve a w = (inl (IndexError msg), exited w w2)).
Proof.
  intros Hk Hka Hcall.
  assert (Hshort : (length ispace < 7)%nat <->
            exists msg, Solution.__init__ ispace fspace
                        = inl (IndexError msg)).
  { split; [intros H; eexists; now apply Solution_init_short|].
    intros [msg H].
    destruct (Nat.lt_ge_cases (length ispace) 7) as [Hlt|Hge]; [exact Hlt|].
    destruct (Solution_init_total ispace fspace Hge) as [s Hs]. congruence. }
  split; [exact Hshort|]. split.
  - split; [apply Solution_init_total|]. intros [s Hs].
    destruct (Nat.lt_ge_cases (length ispace) 7) as [Hlt|Hge]; [|exact Hge].
    apply Hshort in Hlt. destruct Hlt as [msg Hm]. congruence.
  - intros Hlen. eexists. rewrite (solve_eq_keeps a w Hk).
    rewrite (_colnew_solve_after_call _ _ _ _ _ _ _ _ Hka Hcall). simpl.
    unfold after_call. simpl.
    now rewrite (Solution_init_short ispace fspace Hlen).
Qed.

(* ===================================================================== *)
(** ** What a refused call leaves behind *)
(* ===================================================================== *)

Lemma np_sort_fixed (l : list float) : sorted_np l -> np_sort l = l.
Proof.
  unfold np_sort, sort_by.
  induction l as [|x [|y l] IH]; intros Hs; try reflexivity.
  destruct Hs as [Hs1 Hs2]. cbn [foldr] in *. rewrite (IH Hs2).
  cbn [insert_by]. now rewrite Hs1.
Qed.

Lemma np_sort_idem (l : list float) : np_sort (np_sort l) = np_sort l.
Proof. apply np_sort_fixed, np_sort_sorted. Qed.

Lemma sorted_world_idem (b : array_like) (w : world) :
  sorted_world b (sorted_world b w) = sorted_world b w.
Proof.
  destruct b as [l|r]; [reflexivity|].
  unfold sorted_world, set_heap, contents. simpl.
  rewrite lookup_insert_eq. simpl. rewrite np_sort_idem.
  now rewrite insert_insert_eq.
Qed.

Lemma sorted_at_most_refl b w : sorted_at_most b w w.
Proof. now left. Qed.

Lemma sorted_at_most_trans b w1 w2 w3 :
  sorted_at_most b w1 w2 -> sorted_at_most b w2 w3 -> sorted_at_most b w1 w3.
Proof.
  intros [->| ->] [->| ->]; unfold sorted_at_most; auto.
  right. apply sorted_world_idem.
Qed.

Ltac sort_only b :=
  first
    [ apply (preserves_lift (sorted_at_most b) (sorted_at_most_refl b))
    | apply (preserves_ret (sorted_at_most b) (sorted_at_most_refl b))
    | apply (preserves_raise_if (sorted_at_most b) (sorted_at_most_refl b))
    | apply (preserves_read (sorted_at_most b) (sorted_at_most_refl b))
    | apply (preserves_alloc_int (sorted_at_most b) (sorted_at_most_refl b))
    | apply (preserves_alloc_float (sorted_at_most b)
               (sorted_at_most_refl b))
    | (intros ?; rewrite asarray_sort_eq; right; reflexivity) ].

(** The marshalling leaves the state as it was, except that it may have
    sorted the caller's array of boundary points. *)
Lemma kernel_arguments_world a w r w1 :
  kernel_arguments a w = (r, w1) ->
  w1 = w \/
  exists c, handle_complex a = inr c /\
            w1 = sorted_world (ComplexAdapter.boundary_points c) w.
Proof.
  unfold kernel_arguments. intros H.
  destruct (handle_complex a) as [e|c] eqn:Hc.
  - rewrite (bind_fail _ _ w e w) in H by reflexivity.
    injection H as _ <-. now left.
  - rewrite (bind_step _ _ w c w) in H by reflexivity.
    cbv zeta in H. set (b := ComplexAdapter.boundary_points c) in *.
    match type of H with
    | ?g w = _ => assert (Hp : preserves (sorted_at_most b) g)
    end.
    { apply (preserves_bind _ (sorted_at_most_trans b));
        [sort_only b | intros [ncomp mstar]].
      do 4 (apply (preserves_bind _ (sorted_at_most_trans b));
            [sort_only b | intros ?]).
      destruct (workspace_size _ _ _ _) as [nispace nfspace].
      do 7 (apply (preserves_bind _ (sorted_at_most_trans b));
            [sort_only b | intros ?]).
      apply (preserves_bind _ (sorted_at_most_trans b));
        [sort_only b | intros [ltol tol]].
      apply (preserves_bind _ (sorted_at_most_trans b));
        [sort_only b | intros [[[ispace1 fspace1] ipar1] guess_func]].
      apply (preserves_bind _ (sorted_at_most_trans b));
        [sort_only b | intros [fspace2 ipar2]].
      sort_only b. }
    specialize (Hp w). rewrite H in Hp. simpl in Hp.
    destruct Hp as [->| ->]; [now left | right; eauto].
Qed.

Lemma exited_entered (w : world) : exited w (entered w) = w.
Proof.
  unfold exited, entered. destruct w as [d s c h ui uf kc]. simpl.
  now destruct (d =? 0).
Qed.

Lemma exited_sorted_world (b : array_like) (w : world) :
  exited w (sorted_world b (entered w)) = sorted_world b w.
Proof.
  destruct b as [l|r]; [apply exited_entered|].
  unfold exited, entered, sorted_world, set_heap, contents.
  destruct w as [d s c h ui uf kc]. simpl.
  now destruct (d =? 0).
Qed.

(** X13. A call that is refused before the kernel runs has no effect on
    the solver's state: depth, stack, COMMON blocks and the record of
    kernel calls are as before.  The one thing that may have changed is
    the caller's own float64 array of boundary points, which has then been
    sorted in place; with a list of boundary points the state is exactly
    the initial one. *)
Theorem refused_call_leaves_state a w e w1 :
  kernel_arguments a (entered w) = (inl e, w1) ->
  exists w',
    solve a w = (inl e, w') /\
    (w' = w \/
     exists c r,
       handle_complex a = inr c /\
       ComplexAdapter.boundary_points c = NdArray r /\
       w' = set_heap (<[r := np_sort (default [] (heap w !! r))]> (heap w))
                     w).
Proof.
  intros H. destruct (solve_raises_before_call a w e w1 H) as [Hs _].
  exists (exited w w1). split; [exact Hs|].
  destruct (kernel_arguments_world _ _ _ _ H) as [->|(c & Hc & ->)].
  - left. apply exited_entered.
  - rewrite exited_sorted_world.
    destruct (ComplexAdapter.boundary_points c) as [l|r] eqn:Hb.
    + now left.
    + right. exists c, r. auto.
Qed.

(* ===================================================================== *)
(** ** Enter and exit *)
(* ===================================================================== *)

(** X11. [_colnew_exit] undoes [_colnew_enter]: run one after the other
    with nothing in between, at any depth, they return normally and leave
    depth, stack and COMMON blocks exactly as they were. *)
Theorem enter_exit_round_trip (w : world) :
  (do! _ := _colnew_enter in _colnew_exit) w = (inr tt, w).
Proof.
  rewrite (bind_step _ _ w tt (entered w)) by apply _colnew_enter_eq.
  rewrite (_colnew_exit_eq w (entered w)) by apply frame_step_refl.
  now rewrite exited_entered.
Qed.

End DriverFacts.

(* ===================================================================== *)
(** ** Facts about [check_jacobians] *)
(* ===================================================================== *)



(** Conditions given at the same point read the same copy of the
    z-vector. *)
Lemma index_from_shared (p p' : float) (l : list float) (i : nat) :
  F64.eq p p' = true -> index_from p l i = index_from p' l i.
Proof.
  intros Hp. revert i. induction l as [|x l IH]; intros i; simpl;
    [reflexivity|].
  assert (Hx : F64.eq x p = F64.eq x p').
  { rewrite !F64Facts.eq_SF. unfold SFeqb.
    rewrite (F64Facts.SFcompare_Eq_r (Prim2SF x) (Prim2SF p) (Prim2SF p'));
      [reflexivity|].
    rewrite F64Facts.eq_SF in Hp. unfold SFeqb in Hp.
    destruct (SFcompare (Prim2SF p) (Prim2SF p')) as [[]|];
      congruence. }
  rewrite Hx. destruct (F64.eq x p'); [reflexivity | apply IH].
Qed.

(** The verdict on the boundary conditions is the verdict of
    [check_jacobian] on the expanded problem, one z-vector copy per
    distinct boundary point. *)
Lemma check_jacobians_verdict check_jacobian rand fsub dfsub gsub dgsub
    (boundary_points : list float) (degrees : list Z) xmin xmax imap :
  py_min boundary_points = inr xmin ->
  py_max boundary_points = inr xmax ->
  check_rhs check_jacobian rand fsub dfsub
            (Z.to_nat (py_sum degrees)) xmin xmax 0 5 = inr tt ->
  indep_map (np_unique boundary_points) boundary_points = inr imap ->
  let mstar := Z.to_nat (py_sum degrees) in
  let L := length (np_unique boundary_points) in
  check_jacobians check_jacobian rand fsub dfsub gsub dgsub
                  boundary_points degrees =
  if check_jacobian (mstar * L)%nat (_gsub gsub mstar L imap)
                    (_dgsub dgsub mstar L imap)
  then inr tt
  else inl (ValueError "dgsub may be invalid").
Proof.
  intros Hmin Hmax Hrhs Himap. unfold check_jacobians.
  rewrite Hmin. cbn [rbind]. rewrite Hmax. cbn [rbind].
  rewrite Hrhs. cbn [rbind]. rewrite Himap. reflexivity.
Qed.

(** On the boundary points [0, 0, 1] there are two distinct points, and
    the first two conditions share the first copy. *)
Example indep_map_shared :
  np_unique [0%float; 0%float; 1%float] = [0%float; 1%float] /\
  indep_map (np_unique [0%float; 0%float; 1%float])
            [0%float; 0%float; 1%float] = inr [0; 0; 1]%nat.
Proof. split; reflexivity. Qed.

Lemma index_from_finds (p : float) (l : list float) (i : nat) :
  (exists y, y ∈ l /\ F64.eq y p = true) ->
  exists j q,
    index_from p l i = inr (i + j)%nat /\ l !! j = Some q /\
    F64.eq q p = true /\
    (forall j' q', (j' < j)%nat -> l !! j' = Some q' ->
                   F64.eq q' p = false).
Proof.
  revert i. induction l as [|x l IH]; intros i (y & Hy & Hyp).
  - now apply elem_of_nil in Hy.
  - cbn [index_from]. destruct (F64.eq x p) eqn:E.
    + exists 0%nat, x. rewrite Nat.add_0_r. repeat split; auto.
      intros j' q' Hj'. lia.
    + apply elem_of_cons in Hy. destruct Hy as [->|Hy]; [congruence|].
      destruct (IH (S i) (ex_intro _ y (conj Hy Hyp)))
        as (j & q & Hi & Hq & Hqp & Hfirst).
      exists (S j), q. rewrite Nat.add_succ_r. repeat split; auto.
      intros [|j'] q' Hj' Hq'.
      * injection Hq' as <-. exact E.
      * apply (Hfirst j' q'); [lia | exact Hq'].
Qed.

Lemma mapM_total {A B : Type} (f : A -> res B) (l : list A) :
  (forall x, x ∈ l -> exists y, f x = inr y) ->
  exists ys,
    mapM f l = inr ys /\ length ys = length l /\
    forall i x, l !! i = Some x ->
      exists y, ys !! i = Some y /\ f x = inr y.
Proof.
  induction l as [|x l IH]; intros Hf.
  - exists []. repeat split. intros i x Hx. discriminate.
  - destruct (Hf x) as [y Hy]; [left|].
    destruct IH as (ys & Hys & Hlen & Hall).
    { intros z Hz. apply Hf. now right. }
    exists (y :: ys). cbn [mapM]. rewrite Hy. cbn [rbind]. rewrite Hys.
    cbn [rbind]. split; [reflexivity|]. split; [simpl; now rewrite Hlen|].
    intros [|i] z Hz.
    + injection Hz as <-. exists y. auto.
    + apply (Hall i z Hz).
Qed.

(** X18. For boundary points without NaN, [check_jacobians] finds for
    every boundary condition the position of its point among the distinct
    boundary points.  The distinct points are strictly increasing, so a
    point shared by several conditions is counted once, and conditions at
    equal points get the same position. *)
Theorem indep_map_locates (bp : list float) :
  no_nan bp ->
  let indep := np_unique bp in
  strictly_ascending indep /\
  (length indep <= length bp)%nat /\
  exists imap,
    indep_map indep bp = inr imap /\
    length imap = length bp /\
    (forall i p, bp !! i = Some p ->
       exists j q, imap !! i = Some j /\ indep !! j = Some q /\
                   F64.eq q p = true) /\
    (forall i1 i2 p1 p2,
       bp !! i1 = Some p1 -> bp !! i2 = Some p2 ->
       F64.eq p1 p2 = true -> imap !! i1 = imap !! i2).
Proof.
  intros Hn indep.
  split; [now apply np_unique_strict|].
  split; [apply np_unique_length|].
  destruct (mapM_total (fun p => index_from p indep 0) bp)
    as (imap & Hm & Hlen & Hall).
  { intros p Hp.
    destruct (index_from_finds p indep 0 (np_unique_covers bp p Hn Hp))
      as (j & q & Hj & _). eauto. }
  exists imap. split; [exact Hm|]. split; [exact Hlen|]. split.
  - intros i p Hp. destruct (Hall i p Hp) as (j & Hj & Hidx).
    assert (Hin : p ∈ bp) by (eapply list_elem_of_lookup_2; eauto).
    destruct (index_from_finds p indep 0 (np_unique_covers bp p Hn Hin))
      as (j0 & q & Hj0 & Hq & Hqp & _).
    rewrite Hidx in Hj0. injection Hj0 as ->.
    exists j0, q. auto.
  - intros i1 i2 p1 p2 H1 H2 He.
    destruct (Hall i1 p1 H1) as (j1 & Hj1 & Hidx1).
    destruct (Hall i2 p2 H2) as (j2 & Hj2 & Hidx2).
    rewrite (index_from_shared p1 p2 indep 0 He) in Hidx1.
    rewrite Hidx1 in Hidx2. injection Hidx2 as ->.
    now rewrite Hj1, Hj2.
Qed.


Lemma check_rhs_forallb (check_jacobian : nat -> (list float -> list float) ->
      (list float -> list (list float)) -> bool)
    (rand : nat -> float) (fsub : float -> list float -> list float)
    (dfsub : float -> list float -> list (list float))
    (mstar : nat) (xmin xmax : float) (k n : nat) :
  check_rhs check_jacobian rand fsub dfsub mstar xmin xmax k n =
  if forallb
       (fun i => let x := (xmin + (xmax - xmin) * rand i)%float in
                 check_jacobian mstar (fsub x) (dfsub x))
       (seq k n)
  then inr tt
  else inl (ValueError "dfsub may be invalid").
Proof.
  revert k. induction n as [|n IH]; intros k; [reflexivity|].
  cbn [check_rhs seq forallb].
  destruct (check_jacobian mstar _ _); [apply IH | reflexivity].
Qed.

(** X20. [check_jacobians] returns normally only when the six checks pass:
    the right-hand side Jacobian at five random points of the interval
    spanned by the boundary points, then the boundary Jacobian.  The first
    right-hand side check that fails raises ValueError "dfsub may be
    invalid", and the boundary check is then not made; a failing boundary
    check raises ValueError "dgsub may be invalid".  Without boundary
    points the call raises a ValueError at once. *)
Theorem check_jacobians_outcome
    (check_jacobian : nat -> (list float -> list float) ->
      (list float -> list (list float)) -> bool)
    (rand : nat -> float) (fsub : float -> list float -> list float)
    (dfsub : float -> list float -> list (list float))
    (gsub : list (list float) -> list float)
    (dgsub : list (list float) -> list (list float))
    (bp : list float) (degrees : list Z) :
  no_nan bp ->
  let run := check_jacobians check_jacobian rand fsub dfsub gsub dgsub
               bp degrees in
  let mstar := Z.to_nat (py_sum degrees) in
  let L := length (np_unique bp) in
  (bp = [] -> exists msg, run = inl (ValueError msg)) /\
  (bp <> [] ->
   exists xmin xmax imap,
     py_min bp = inr xmin /\ py_max bp = inr xmax /\
     indep_map (np_unique bp) bp = inr imap /\
     let rhs_ok :=
       forallb
         (fun i => let x := (xmin + (xmax - xmin) * rand i)%float in
                   check_jacobian mstar (fsub x) (dfsub x))
         (seq 0 5) in
     let bc_ok :=
       check_jacobian (mstar * L)%nat (_gsub gsub mstar L imap)
                      (_dgsub dgsub mstar L imap) in
     run = (if rhs_ok
            then if bc_ok then inr tt
                 else inl (ValueError "dgsub may be invalid")
            else inl (ValueError "dfsub may be invalid"))).
Proof.
  intros Hn run mstar L. split.
  - intros ->. eexists. reflexivity.
  - intros Hne.
    destruct (indep_map_locates bp Hn) as (_ & _ & imap & Himap & _).
    assert (Hmin : exists xmin, py_min bp = inr xmin)
      by (destruct bp; [congruence | simpl; eauto]).
    assert (Hmax : exists xmax, py_max bp = inr xmax)
      by (destruct bp; [congruence | simpl; eauto]).
    destruct Hmin as [xmin Hmin]. destruct Hmax as [xmax Hmax].
    exists xmin, xmax, imap.
    split; [exact Hmin|]. split; [exact Hmax|]. split; [exact Himap|].
    unfold run, check_jacobians.
    rewrite Hmin. cbn [rbind]. rewrite Hmax. cbn [rbind].
    rewrite check_rhs_forallb. fold mstar.
    destruct (forallb _ (seq 0 5)); [|reflexivity].
    cbn [rbind]. rewrite Himap. reflexivity.
Qed.

(* ##################################################################### *)
(** * Part III: concrete calls *)
(* ##################################################################### *)

Lemma scribble_layout (c : list block) :
  same_layout (map (fmap (fun _ => CInt [0])) c) c.
Proof.
  induction c as [|b c IH]; simpl; constructor; [|exact IH].
  apply dom_fmap_L.
Qed.

Lemma stub_keeps_frames (iflag : Z) : keeps_frames (stub iflag).
Proof. intros ka w. repeat split. apply scribble_layout. Qed.




Lemma C3_reentrancy_witness :
  _colnew_commons (solve (stub 1) no_adapter args0 w_nested).2
    = [ {[ "n" := CInt [3]; "b" := CReal [0.5%float] ]} ]
  /\ _colnew_commons (solve (stub 1) no_adapter args0 w0).2
    = [ {[ "n" := CInt [0]; "b" := CInt [0] ]} ].
Proof.
  split.
  - destruct (C3_reentrancy (stub 1) no_adapter args0 w_nested
                (stub_keeps_frames 1)) as (H & _).
    destruct H as (_ & _ & H); [simpl; lia|]. exact H.
  - destruct (C3_reentrancy (stub 1) no_adapter args0 w0
                (stub_keeps_frames 1)) as (_ & H & _).
    destruct H as (_ & _ & H); [reflexivity|]. rewrite H.
    vm_compute. reflexivity.
Defined.

Lemma C4_solution_prefix_witness :
  exists s,
    Solution.__init__ [1; 0; 1; 2; 0; 0; 2; 0; 9; 9]
                      [0%float; 1%float; 5%float] = inr s /\
    Solution.ispace s = [1; 0; 1; 2; 0; 0; 2; 0] /\
    Solution.fspace s = [0%float; 1%float] /\
    Solution.get_mesh s = [0%float; 1%float].
Proof.
  destruct (C4_solution_prefix [1; 0; 1; 2; 0; 0; 2; 0; 9; 9]
              [0%float; 1%float; 5%float] 1 1 2 2
              eq_refl eq_refl eq_refl eq_refl
              ltac:(lia) ltac:(vm_compute; discriminate)
              ltac:(vm_compute; discriminate) ltac:(lia))
    as (s & Hs & _ & _ & Hn & Hi & _ & Hf & _ & Hm & _).
  exists s. repeat split; auto.
  rewrite Hm, Hf, Hn. reflexivity.
Defined.

Lemma C6_active_tolerances_witness :
  exists ltol tol,
    active_tolerances [(-1)%float; 0.5%float] 2 = inr (ltol, tol) /\
    tol = [0.5%float] /\ length ltol = 1%nat.
Proof.
  destruct (C6_active_tolerances no_adapter args_negative_tolerance w0
              (ComplexAdapter.Build (PyList [0%float; 1%float]) [2]
                 (Callable 0) (Callable 1) None None
                 (Some [(-1)%float; 0.5%float]))
              1 2 eq_refl eq_refl eq_refl)
    as (ltol & tol & Ha & Ht & Hl & _).
  exists ltol, tol. repeat split; [exact Ha | exact Ht |].
  rewrite Hl, Ht. reflexivity.
Defined.

(** The tolerance -1.0 is not 0, and yet the kernel does not get it. *)
Lemma C6_counterexample :
  exists ka,
    kernel_calls (solve (stub 1) no_adapter args_negative_tolerance w0).2
      = [ka] /\
    k_tol ka = [0.5%float] /\ k_ltol ka = [2] /\
    k_ipar ka !! 3%nat = Some 1 /\
    k_tol ka <>
      List.filter (fun x => negb (F64.eq x 0)) [(-1)%float; 0.5%float].
Proof.
  eexists. split; [vm_compute; reflexivity|].
  repeat split. vm_compute. discriminate.
Qed.


(** C5, where the code departs from it.  The boundary points [0.5, 0.2]
    are not ascending.  Passed as a list they are rejected with a
    ValueError before the kernel is called.  Passed as a float64 array
    they are accepted: the kernel is called with [0.2, 0.5], [solve]
    returns a Solution, and the caller's array has been reordered. *)
Theorem C5_unsorted_ndarray_accepted :
  let unsorted := [0.5%float; 0x1.999999999999ap-3%float] in
  let sorted := [0x1.999999999999ap-3%float; 0.5%float] in
  ~ ascending unsorted /\
  contents (NdArray 1) w0 = unsorted /\
  (exists w',
     solve (stub 1) no_adapter args_list w0
       = (inl (ValueError "Invalid ordering of boundary points"), w') /\
     kernel_calls w' = []) /\
  (exists s ka w',
     solve (stub 1) no_adapter args_ndarray w0 = (inr (RealSolution s), w') /\
     kernel_calls w' = [ka] /\
     k_zeta ka = sorted /\
     contents (NdArray 1) w' = sorted).
Proof.
  cbv zeta. split; [|split; [|split]].
  - simpl. intros [H _]. vm_compute in H. discriminate.
  - reflexivity.
  - eexists. split; [vm_compute; reflexivity | reflexivity].
  - do 3 eexists. split; [vm_compute; reflexivity|].
    repeat split.
Qed.

(** C7, where the code departs from it.  The call is non-adaptive and
    gives no mesh points, only their number; it is refused before the
    kernel is called, but by the TypeError of [len(initial_mesh)] in the
    "Initial guess" block, not by a ValueError. *)
Theorem C7_count_mesh_type_error :
  adaptive_mesh_selection args_count_mesh = false /\
  initial_mesh args_count_mesh = MeshCount 10 /\
  exists w',
    solve (stub 1) no_adapter args_count_mesh w0
      = (inl (TypeError "object of type 'int' has no len()"), w') /\
    kernel_calls w' = [].
Proof.
  split; [reflexivity|]. split; [reflexivity|].
  eexists. split; [vm_compute; reflexivity | reflexivity].
Qed.

Example nested_solve_restores :
  exists s w',
    solve nesting_kernel no_adapter args0 w0 = (inr (RealSolution s), w') /\
    Solution.nmesh s = 43 /\
    _colnew_depth w' = 0 /\ _colnew_stack w' = [] /\
    length (kernel_calls w') = 2%nat.
Proof.
  do 2 eexists. split; [vm_compute; reflexivity|]. repeat split.
Qed.

Example verbosity_is_clamped :
  map clamp_verbosity [-5; 0; 1; 2; 17] = [0; 0; 1; 2; 2].
Proof. reflexivity. Qed.

(* ===================================================================== *)
(** ** Calls that are refused *)
(* ===================================================================== *)

(** A degree of 5 is refused. *)
Lemma degrees_validated_witness :
  rejected
    (solve (stub 1) no_adapter
       (sample_call [5] GuessNone MeshNone None None None 3) w0) w0.
Proof.
  apply (proj1 (degrees_validated (stub 1) no_adapter
                  (sample_call [5] GuessNone MeshNone None None None 3) w0
                  (sample_adapter [5] None) eq_refl)).
  right. left. apply Exists_cons_hd. right. reflexivity.
Defined.

(** One collocation point for an equation of order 2 is refused. *)
Lemma collocation_points_validated_witness :
  rejected
    (solve (stub 1) no_adapter
       (sample_call [2] GuessNone MeshNone None (Some 1) None 3) w0) w0.
Proof.
  apply (proj1 (collocation_points_validated (stub 1) no_adapter
                  (sample_call [2] GuessNone MeshNone None (Some 1) None 3)
                  w0 (sample_adapter [2] None) eq_refl) 1 eq_refl).
  left. apply Exists_cons_hd. reflexivity.
Defined.

(** One tolerance for two unknowns is refused. *)
Lemma tolerances_length_checked_witness :
  rejected
    (solve (stub 1) no_adapter
       (sample_call [2] GuessNone MeshNone (Some [0.5%float]) None None 3)
       w0) w0.
Proof.
  apply (proj1 (tolerances_length_checked (stub 1) no_adapter
                  (sample_call [2] GuessNone MeshNone (Some [0.5%float])
                     None None 3)
                  w0 (sample_adapter [2] (Some [0.5%float])) eq_refl)
               [0.5%float] eq_refl).
  vm_compute. discriminate.
Defined.

(** A mesh size of -1 is refused. *)
Lemma negative_mesh_size_rejected_witness :
  rejected
    (solve (stub 1) no_adapter
       (sample_call [2] GuessNone MeshNone None None None (-1)) w0) w0.
Proof.
  apply (negative_mesh_size_rejected (stub 1) no_adapter
           (sample_call [2] GuessNone MeshNone None None None (-1)) w0
           (sample_adapter [2] None) eq_refl).
  reflexivity.
Defined.


(** The refused call with a degree of 5 leaves the state as it was. *)
Lemma refused_call_leaves_state_witness :
  exists w',
    solve (stub 1) no_adapter
      (sample_call [5] GuessNone MeshNone None None None 3) w0
    = (inl (ValueError "Invalid value for ``degrees``"), w') /\
    (w' = w0 \/
     exists c r,
       handle_complex no_adapter
         (sample_call [5] GuessNone MeshNone None None None 3) = inr c /\
       ComplexAdapter.boundary_points c = NdArray r /\
       w' = set_heap (<[r := np_sort (default [] (heap w0 !! r))]> (heap w0))
                     w0).
Proof.
  apply (refused_call_leaves_state (stub 1) no_adapter
           (sample_call [5] GuessNone MeshNone None None None 3) w0
           (ValueError "Invalid value for ``degrees``") (entered w0)).
  vm_compute. reflexivity.
Defined.

(** Three mesh points for a workspace of size 0. *)
Lemma workspace_overflow_rejected_witness :
  rejected
    (solve (stub 1) no_adapter
       (sample_call [2] GuessNone
          (MeshPoints [0%float; 0.5%float; 1%float]) None None None 0) w0)
    w0.
Proof.
  apply (proj1 (workspace_overflow_rejected (stub 1) no_adapter
                  (sample_call [2] GuessNone
                     (MeshPoints [0%float; 0.5%float; 1%float])
                     None None None 0)
                  w0 (sample_adapter [2] None) eq_refl)
               [0%float; 0.5%float; 1%float] eq_refl).
  - intros ncomp mstar k _ _. rewrite workspace_size_eq. reflexivity.
  - vm_compute. discriminate.
Defined.

(* ===================================================================== *)
(** ** Calls that reach the kernel *)
(* ===================================================================== *)

Lemma ipar_describes_workspaces_witness :
  exists ka w1,
    kernel_arguments no_adapter args0 w0 = (inr ka, w1) /\
    k_ipar ka !! 4%nat = Some 108 /\ k_ipar ka !! 5%nat = Some 15.
Proof.
  assert (Hka : exists ka w1,
             kernel_arguments no_adapter args0 w0 = (inr ka, w1) /\
             len (k_fspace ka) = 108 /\ len (k_ispace ka) = 15).
  { do 2 eexists. split; [vm_compute; reflexivity|]. split; reflexivity. }
  destruct Hka as (ka & w1 & Hka & Hf & Hi).
  destruct (ipar_describes_workspaces no_adapter args0 w0 ka w1 Hka)
    as (_ & _ & H4 & H5 & _).
  - rewrite Hf. reflexivity.
  - exists ka, w1. rewrite H4, H5, Hf, Hi. repeat split. exact Hka.
Defined.

(** Extra fixed points 0.5, 0.25, 0.5 and 1.5 on the interval [0, 1]. *)
Lemma kernel_fixed_points_witness :
  exists ka w1,
    kernel_arguments no_adapter
      (sample_call [2] GuessNone MeshNone None None
         (Some [0.5%float; 0.25%float; 0.5%float; 1.5%float]) 3) w0
    = (inr ka, w1) /\
    k_ipar ka !! 10%nat = Some 2 /\
    k_fixpnt ka = [0.25%float; 0.5%float].
Proof.
  set (a := sample_call [2] GuessNone MeshNone None None
              (Some [0.5%float; 0.25%float; 0.5%float; 1.5%float]) 3).
  assert (Hka : exists ka w1,
             kernel_arguments no_adapter a w0 = (inr ka, w1) /\
             fixed_points
               (contents
                  (ComplexAdapter.boundary_points (sample_adapter [2] None))
                  w1)
               (default [] (extra_fixed_points a)) (k_left ka) (k_right ka)
             = [0.25%float; 0.5%float]).
  { do 2 eexists. split; [vm_compute; reflexivity|]. vm_compute. reflexivity. }
  destruct Hka as (ka & w1 & Hka & Hfp).
  destruct (kernel_fixed_points no_adapter a w0 ka w1
              (sample_adapter [2] None) eq_refl Hka)
    as (H10 & Hfix & _).
  - reflexivity.
  - exists ka, w1. rewrite H10, Hfix, Hfp. repeat split. exact Hka.
Defined.

(** The sample problem: boundary points 0 and 1. *)
Lemma kernel_boundary_points_witness :
  exists ka w1,
    kernel_arguments no_adapter args0 w0 = (inr ka, w1) /\
    ascending (k_zeta ka) /\ F64.le (k_left ka) (k_right ka) = true.
Proof.
  assert (Hka : exists ka w1,
             kernel_arguments no_adapter args0 w0 = (inr ka, w1)).
  { do 2 eexists. vm_compute. reflexivity. }
  destruct Hka as (ka & w1 & Hka).
  destruct (kernel_boundary_points no_adapter args0 w0 ka w1
              (sample_adapter [2] (Some [0x1p-10%float; 0%float]))
              eq_refl Hka)
    as (_ & _ & _ & Hasc & _ & Hle).
  exists ka, w1. auto.
Defined.

(** A callable initial guess. *)
Lemma initial_guess_modes_witness :
  exists ka w1,
    kernel_arguments no_adapter
      (sample_call [2] (GuessCallable (Callable 7)) MeshNone None None None 3)
      w0 = (inr ka, w1) /\
    k_ipar ka !! 8%nat = Some 1 /\ k_guess ka = User (Callable 7).
Proof.
  set (a := sample_call [2] (GuessCallable (Callable 7)) MeshNone None None
              None 3).
  assert (Hka : exists ka w1,
             kernel_arguments no_adapter a w0 = (inr ka, w1)).
  { do 2 eexists. vm_compute. reflexivity. }
  destruct Hka as (ka & w1 & Hka).
  pose proof (proj2 (initial_guess_modes (stub 1) no_adapter a w0
                       (sample_adapter [2] None) eq_refl) ka w1 Hka) as H.
  simpl in H. exists ka, w1. split; [exact Hka | exact H].
Defined.

(** Four mesh points asked for. *)
Lemma initial_mesh_modes_witness :
  exists ka w1,
    kernel_arguments no_adapter
      (sample_call [2] GuessNone (MeshCount 4) None None None 3) w0
    = (inr ka, w1) /\
    k_ipar ka !! 7%nat = Some 0 /\ k_ipar ka !! 2%nat = Some 4.
Proof.
  set (a := sample_call [2] GuessNone (MeshCount 4) None None None 3).
  assert (Hka : exists ka w1,
             kernel_arguments no_adapter a w0 = (inr ka, w1)).
  { do 2 eexists. vm_compute. reflexivity. }
  destruct Hka as (ka & w1 & Hka).
  pose proof (initial_mesh_modes no_adapter a w0 ka w1 Hka) as H.
  simpl in H. destruct H as (_ & H7 & H2).
  exists ka, w1. split; [exact Hka|]. split; [exact H7 | exact H2].
Defined.

(** Continuing from [former], its mesh to be coarsened. *)
Lemma continue_from_solution_witness :
  exists ka w1,
    kernel_arguments no_adapter
      (sample_call [2] (GuessSolution former) MeshNone None None None 3) w0
    = (inr ka, w1) /\
    k_ipar ka !! 8%nat = Some 3 /\
    take 8 (k_ispace ka) = [1; 0; 1; 2; 0; 0; 2; 0] /\
    take 2 (k_fspace ka) = [0%float; 1%float].
Proof.
  set (a := sample_call [2] (GuessSolution former) MeshNone None None None 3).
  assert (Hka : exists ka w1,
             kernel_arguments no_adapter a w0 = (inr ka, w1) /\
             length (k_ispace ka) = 15%nat /\
             length (k_fspace ka) = 108%nat).
  { do 2 eexists. split; [vm_compute; reflexivity|]. split; reflexivity. }
  destruct Hka as (ka & w1 & Hka & Hli & Hlf).
  destruct (continue_from_solution no_adapter a w0 ka w1 former
              eq_refl eq_refl Hka)
    as (_ & H8 & _ & _ & Hi & Hf).
  exists ka, w1. split; [exact Hka|]. split; [exact H8|]. split.
  - apply Hi. rewrite Hli. simpl. repeat constructor.
  - apply Hf. rewrite Hlf. simpl. repeat constructor.
Defined.

(** The boundary points [0, 1] pass the checks with the default
    interval. *)
Lemma default_interval_witness :
  boundary_ok args0 (sample_adapter [2] (Some [0x1p-10%float; 0%float])) w0.
Proof.
  apply (proj1 (default_interval no_adapter args0 w0
                  (sample_adapter [2] (Some [0x1p-10%float; 0%float]))
                  [0%float; 1%float] eq_refl eq_refl eq_refl eq_refl)).
  - split; [reflexivity | exact I].
  - repeat constructor.
  - discriminate.
  - reflexivity.
Defined.

(** The truncating kernel touches nothing. *)
Lemma truncating_stub_keeps_frames : keeps_frames truncating_stub.
Proof. intros ka w. apply frame_step_refl. Qed.

(** A success report with three integers. *)
Lemma truncated_workspace_index_error_witness :
  exists msg w',
    solve truncating_stub no_adapter args0 w0 = (inl (IndexError msg), w').
Proof.
  assert (Hka : exists ka w1,
             kernel_arguments no_adapter args0 (entered w0) = (inr ka, w1)).
  { do 2 eexists. vm_compute. reflexivity. }
  destruct Hka as (ka & w1 & Hka).
  destruct (truncated_workspace_index_error truncating_stub no_adapter args0
              w0 ka w1 [1; 0; 1] [0%float; 1%float] (log_call ka w1)
              truncating_stub_keeps_frames Hka eq_refl)
    as (_ & _ & H).
  destruct H as [msg H]; [simpl; repeat constructor|].
  exists msg. eexists. exact H.
Defined.

(** The raising kernel overwrites the COMMON variables only. *)
Lemma raising_stub_keeps_frames : keeps_frames raising_stub.
Proof. intros ka w. repeat split. apply scribble_layout. Qed.

(** A callback that raises inside a nested solve. *)
Lemma kernel_exception_propagates_witness :
  exists w',
    solve raising_stub no_adapter args0 w_nested
    = (inl (RuntimeError "fsub failed"), w') /\
    _colnew_depth w' = 1 /\ _colnew_stack w' = [].
Proof.
  assert (Hka : exists ka w1,
             kernel_arguments no_adapter args0 (entered w_nested)
             = (inr ka, w1)).
  { do 2 eexists. vm_compute. reflexivity. }
  destruct Hka as (ka & w1 & Hka).
  destruct (kernel_exception_propagates raising_stub no_adapter args0
              w_nested ka w1 (RuntimeError "fsub failed")
              (scribble (log_call ka w1))
              raising_stub_keeps_frames Hka eq_refl)
    as (Hs & Hd & Hst).
  eexists. split; [exact Hs|]. split; [exact Hd | exact Hst].
Defined.


(* ===================================================================== *)
(** ** Checking Jacobians at a shared boundary point *)
(* ===================================================================== *)

(** Three conditions, two of them at the point 0. *)
Lemma indep_map_locates_witness :
  exists imap,
    indep_map (np_unique [0%float; 0%float; 1%float])
              [0%float; 0%float; 1%float] = inr imap /\
    length imap = 3%nat.
Proof.
  destruct (indep_map_locates [0%float; 0%float; 1%float])
    as (_ & _ & imap & Hm & Hlen & _).
  - repeat constructor.
  - exists imap. split; [exact Hm | exact Hlen].
Defined.


(** With a check that always passes, [check_jacobians] returns. *)
Lemma check_jacobians_outcome_witness :
  check_jacobians (fun _ _ _ => true) (fun _ => 0.5%float)
    (fun _ u => u) (fun _ _ => []) (fun _ => []) (fun _ => [])
    [0%float; 0%float; 1%float] [1; 2] = inr tt.
Proof.
  destruct (check_jacobians_outcome (fun _ _ _ => true) (fun _ => 0.5%float)
              (fun _ u => u) (fun _ _ => []) (fun _ => []) (fun _ => [])
              [0%float; 0%float; 1%float] [1; 2])
    as (_ & H).
  - repeat constructor.
  - destruct H as (xmin & xmax & imap & _ & _ & _ & H); [discriminate|].
    exact H.
Defined.
